(** * Polygon annotation loading of [LoadBuildingAnnotations]

    A shallow embedding of
    [aiearth/deeplearning/datasets/mmdet/polybuilding/pipelines/loading.py]
    and the properties of its polygon resampling, winding, matching and
    rasterisation steps.

    Conventions of the embedding:
    - coordinates and lengths are rationals [Q]; the arithmetic of numpy's
      floats is read exactly (no rounding error), and the one irrational
      operation, [np.sqrt], is a parameter [np_sqrt] of which only
      non-negativity is used;
    - a Python exception is a value [Raise e] of the type [result];
    - numpy arrays of shape (n, 2) are lists of points, integer arrays are
      lists of [Z];
    - an annotation written with integers gives arrays of dtype int64,
      whose arithmetic wraps around: the area and the filter of tiny
      polygons are embedded on such arrays as well, and compared with
      their embedding over [Q] on the range where nothing overflows;
    - functions of other libraries (numpy's [argsort], shapely's
      [simplify], scipy's [linear_sum_assignment], pycocotools' mask
      decoding) are section variables, constrained only by the part of
      their contract a proof uses; executable instances of them run the
      loader on examples. *)

From Stdlib Require Import ZArith QArith Qabs Qround Lia Permutation Sorted.
From stdpp Require Import base list.

(** ** Python exceptions *)

(** [UndefinedCast] is not an exception of Python: it marks the one place
    where the embedding stops, the cast of nan to int32 in
    [uniformsample]. *)
Inductive exn : Set :=
| ValueError
| IndexError
| AssertionError
| UndefinedCast.

Inductive result (A : Type) : Type :=
| Ok (a : A)
| Raise (e : exn).
Arguments Ok {A} a.
Arguments Raise {A} e.

#[global] Instance result_ret : MRet result := fun A a => Ok a.
#[global] Instance result_bind : MBind result :=
  fun A B k r => match r with Ok a => k a | Raise e => Raise e end.

Definition py_assert (b : bool) : result unit :=
  if b then Ok tt else Raise AssertionError.

(** [[f(x) for x in l]] where [f] may raise. *)
Fixpoint list_comp {A B : Type} (f : A -> result B) (l : list A) : result (list B) :=
  match l with
  | [] => Ok []
  | x :: l' => y ← f x; ys ← list_comp f l'; Ok (y :: ys)
  end.

(** ** Numbers *)

Definition Qltb (x y : Q) : bool := negb (Qle_bool y x).

Definition Qsum (l : list Q) : Q := foldr Qplus 0%Q l.
Definition Zsum (l : list Z) : Z := foldr Z.add 0%Z l.

(** [np.round]: to the nearest integer, a half to the even neighbour. *)
Definition np_round (x : Q) : Z :=
  let f := Qfloor x in
  match Qcompare (x - inject_Z f) (1 # 2) with
  | Lt => f
  | Gt => (f + 1)%Z
  | Eq => if Z.even f then f else (f + 1)%Z
  end.

(** Storing a float into an integer array truncates toward zero. *)
Definition np_int (x : Q) : Q := inject_Z (Z.quot (Qnum x) (Zpos (Qden x))).

(** The integer that an array of dtype [int] holds after a number is
    stored into it: the number truncated toward zero (for a number that
    fits in 64 bits). *)
Definition astype_int (x : Q) : Z := Z.quot (Qnum x) (Zpos (Qden x)).

(** An annotation written with integers gives arrays of dtype [int64],
    whose arithmetic wraps around: [wrap64 z] is what an [int64] holds
    after an operation whose exact result is [z]. *)
Definition wrap64 (z : Z) : Z := ((z + 2 ^ 63) mod 2 ^ 64 - 2 ^ 63)%Z.

(** The float64 that an integer becomes in [0.5 * d]: the nearest float,
    ties to even; the integers up to 2^53 are floats themselves. *)
Definition float64_of_int (d : Z) : Q :=
  let a := Z.abs d in
  let e := (Z.log2 a - 52)%Z in
  if (e <=? 0)%Z then inject_Z d
  else
    let q := (a / 2 ^ e)%Z in
    let r := (a mod 2 ^ e)%Z in
    let m := if (2 * r <? 2 ^ e)%Z then q
             else if (2 ^ e <? 2 * r)%Z then (q + 1)%Z
             else if Z.even q then q else (q + 1)%Z in
    inject_Z (Z.sgn d * (m * 2 ^ e)).

(** ** Points, polygons and numpy indexing *)

Definition point : Type := Q * Q.
Definition polygon : Type := list point.

Definition px (p : point) : Q := fst p.
Definition py (p : point) : Q := snd p.

(** [a[idx]] for an integer index array [idx] (non-negative entries). *)
Definition np_index {A : Type} (a : list A) (idx : list nat) : result (list A) :=
  list_comp (fun i => match a !! i with Some x => Ok x | None => Raise IndexError end) idx.

(** [np.roll(a, -k, axis=0)] for [0 <= k]. *)
Definition np_roll_left {A : Type} (k : nat) (a : list A) : list A :=
  match a with
  | [] => []
  | _ => drop (k mod length a) a ++ take (k mod length a) a
  end.

(** [a[::step]] for a positive [step]. *)
Fixpoint stride_from {A : Type} (step : nat) (skip : nat) (a : list A) : list A :=
  match a with
  | [] => []
  | x :: a' =>
      match skip with
      | O => x :: stride_from step (step - 1) a'
      | S k => stride_from step k a'
      end
  end.
Definition np_stride {A : Type} (step : nat) (a : list A) : list A := stride_from step 0 a.

(** [np.argmin]: the first index of a minimal entry; [ValueError] on an
    empty array. *)
Fixpoint argmin_from (best : Q) (besti : nat) (i : nat) (l : list Q) : nat :=
  match l with
  | [] => besti
  | x :: l' => if Qltb x best then argmin_from x i (S i) l' else argmin_from best besti (S i) l'
  end.
Definition np_argmin (l : list Q) : result nat :=
  match l with
  | [] => Raise ValueError
  | x :: l' => Ok (argmin_from x 0 1 l')
  end.

Fixpoint Qmin_list (x : Q) (l : list Q) : Q :=
  match l with
  | [] => x
  | y :: l' => Qmin_list (if Qltb y x then y else x) l'
  end.
Fixpoint Qmax_list (x : Q) (l : list Q) : Q :=
  match l with
  | [] => x
  | y :: l' => Qmax_list (if Qltb x y then y else x) l'
  end.
Definition np_min (l : list Q) : result Q :=
  match l with [] => Raise ValueError | x :: l' => Ok (Qmin_list x l') end.
Definition np_max (l : list Q) : result Q :=
  match l with [] => Raise ValueError | x :: l' => Ok (Qmax_list x l') end.

(** [np.min] and [np.max] of an array of dtype [int64]. *)
Fixpoint Zmin_list (x : Z) (l : list Z) : Z :=
  match l with
  | [] => x
  | y :: l' => Zmin_list (if (y <? x)%Z then y else x) l'
  end.
Fixpoint Zmax_list (x : Z) (l : list Z) : Z :=
  match l with
  | [] => x
  | y :: l' => Zmax_list (if (x <? y)%Z then y else x) l'
  end.
Definition np_min_int64 (l : list Z) : result Z :=
  match l with [] => Raise ValueError | x :: l' => Ok (Zmin_list x l') end.
Definition np_max_int64 (l : list Z) : result Z :=
  match l with [] => Raise ValueError | x :: l' => Ok (Zmax_list x l') end.

(** ** Sorting *)

(** [np.sort] of an index array. *)
Fixpoint ins_nat (x : nat) (l : list nat) : list nat :=
  match l with
  | [] => [x]
  | y :: l' => if (y <? x)%nat then y :: ins_nat x l' else x :: l
  end.
Fixpoint np_sort (l : list nat) : list nat :=
  match l with
  | [] => []
  | x :: l' => ins_nat x (np_sort l')
  end.

(** ** Rasters *)

(** A numpy array of any rank: its shape and its entries in row-major
    order. *)
Record ndarray : Type := mk_ndarray { nd_shape : list nat; nd_data : list Q }.

Definition shape_eqb (s1 s2 : list nat) : bool := bool_decide (s1 = s2).

Definition np_zeros (shape : list nat) : ndarray :=
  mk_ndarray shape (replicate (foldr Nat.mul 1%nat shape) 0%Q).

Definition nd_add (a b : ndarray) : ndarray :=
  mk_ndarray (nd_shape a) (zip_with Qplus (nd_data a) (nd_data b)).

(** [np.array(ms, dtype=np.float32).sum(0)]: an empty list gives the
    0-dimensional scalar 0.0, arrays of one common shape are added
    entry by entry, and arrays of different shapes cannot be stacked. *)
Definition np_array_sum0 (ms : list ndarray) : result ndarray :=
  match ms with
  | [] => Ok (mk_ndarray [] [0%Q])
  | m :: ms' =>
      if forallb (fun m' => shape_eqb (nd_shape m') (nd_shape m)) ms'
      then Ok (foldl nd_add m ms')
      else Raise ValueError
  end.

(** ** The loader *)

(** The attributes of [LoadBuildingAnnotations] that the mask path reads. *)
Record loader : Type := mk_loader {
  poly2mask : bool;
  key_points_weight : Q;
  num_points : Z;
  spline_num : Z;
  spline_poly_num : Z;
  training : bool
}.

(** [__init__], with the keyword arguments the mask path depends on. *)
Definition init (poly2mask : bool) (key_points_weight : Q) (num_points spline_num : Z)
    (training : bool) : loader :=
  {| poly2mask := poly2mask;
     key_points_weight := key_points_weight;
     num_points := num_points;
     spline_num := spline_num;
     spline_poly_num := num_points * 10;
     training := training |}.

(** A bounding box (xmin, ymin, xmax, ymax). *)
Definition bbox : Type := Q * Q * Q * Q.

(** One instance's mask annotation: its polygons as flat coordinate lists. *)
Definition mask_ann : Type := list (list Q).

Section Loading.

(** [np.sqrt] on floats. *)
Variable np_sqrt : Q -> Q.

(** [np.argsort] of a float array, with its default [kind] (quicksort):
    the indices that sort the array. *)
Variable np_argsort : list Q -> list nat.

(** shapely: the exterior coordinates of [Polygon(pts).simplify(0.5)]. *)
Variable simplify : polygon -> polygon.

(** scipy: [linear_sum_assignment] of a cost matrix given by its rows; the
    row indices and the column indices of the assignment. *)
Variable linear_sum_assignment : list (list Q) -> list nat * list nat.

(** pycocotools, through [_poly2mask]: the decoded bitmap of one
    instance's annotation for an image of the given height and width. *)
Variable _poly2mask : mask_ann -> nat -> nat -> ndarray.

(** *** Geometry helpers *)

(** [np.array(p).reshape(-1, 2)] *)
Fixpoint reshape2 (p : list Q) : result polygon :=
  match p with
  | [] => Ok []
  | [_] => Raise ValueError
  | x :: y :: p' => pts ← reshape2 p'; Ok ((x, y) :: pts)
  end.

Definition sqdist (a b : point) : Q :=
  ((px a - px b) * (px a - px b) + (py a - py b) * (py a - py b))%Q.

(** [(np.arange(pnum) + 1) % pnum] *)
Definition idxnext (pnum : nat) : list nat :=
  map (fun i => ((i + 1) mod pnum)%nat) (seq 0 pnum).

(** [np.sqrt(np.sum((pgtnext - pgt) ** 2, axis=1))] *)
Definition edgelen (pgtnext_px2 pgtnp_px2 : polygon) : list Q :=
  zip_with (fun a b => np_sqrt (sqdist a b)) pgtnext_px2 pgtnp_px2.

(** [np.roll(a, 1)] *)
Definition np_roll1 {A : Type} (a : list A) : list A :=
  match last a with
  | Some x => x :: take (length a - 1) a
  | None => []
  end.

Definition np_dot (a b : list Q) : Q := Qsum (zip_with Qmult a b).

(** *** [_polygon_area] *)
Definition _polygon_area (poly : polygon) : Q :=
  let x := map px poly in
  let y := map py poly in
  ((1 # 2) * Qabs (np_dot x (np_roll1 y) - np_dot y (np_roll1 x)))%Q.

(** On an array of dtype [int64] the two dot products and their
    difference are computed in [int64]; [np.abs] stays in [int64], and the
    product with [0.5] is a float. *)
Definition np_dot_int64 (a b : list Z) : Z :=
  foldl (fun acc xy => wrap64 (acc + wrap64 (fst xy * snd xy))) 0%Z (zip a b).

Definition _polygon_area_int64 (poly : list (Z * Z)) : Q :=
  let x := map fst poly in
  let y := map snd poly in
  ((1 # 2) * float64_of_int
               (wrap64 (Z.abs (wrap64 (np_dot_int64 x (np_roll1 y)
                                       - np_dot_int64 y (np_roll1 x))))))%Q.

(** *** [filter_tiny_polys] *)
Definition filter_tiny_polys (polys : list polygon) : result (list polygon) :=
  polys_ ← list_comp (fun poly =>
      x_min ← np_min (map px poly); y_min ← np_min (map py poly);
      x_max ← np_max (map px poly); y_max ← np_max (map py poly);
      Ok (poly, Qle_bool 1 (x_max - x_min) && Qle_bool 1 (y_max - y_min))) polys;
  Ok (filter (fun poly => Qltb 5 (_polygon_area poly))
             (map fst (filter (fun pb => snd pb = true) polys_))).

(** The same on arrays of dtype [int64]. *)
Definition filter_tiny_polys_int64 (polys : list (list (Z * Z)))
    : result (list (list (Z * Z))) :=
  polys_ ← list_comp (fun poly =>
      x_min ← np_min_int64 (map fst poly); y_min ← np_min_int64 (map snd poly);
      x_max ← np_max_int64 (map fst poly); y_max ← np_max_int64 (map snd poly);
      Ok (poly, (1 <=? wrap64 (x_max - x_min))%Z && (1 <=? wrap64 (y_max - y_min))%Z)) polys;
  Ok (filter (fun poly => Qltb 5 (_polygon_area_int64 poly))
             (map fst (filter (fun pb => snd pb = true) polys_))).

(** *** [get_cw_poly] *)

(** Twice the signed area of the ring closed over [poly] (shoelace sum over
    consecutive vertices, positive for a counter-clockwise ring). *)
Definition cross (a b : point) : Q := (px a * py b - px b * py a)%Q.
Fixpoint path_area2 (l : polygon) : Q :=
  match l with
  | a :: (b :: _) as l' => (cross a b + path_area2 l')%Q
  | _ => 0%Q
  end.
Definition signed_area2 (poly : polygon) : Q :=
  match poly with
  | [] => 0%Q
  | a :: _ => path_area2 (poly ++ [a])
  end.

(** shapely: [Polygon(poly).exterior.is_ccw] tells whether the ring is
    counter-clockwise, that is, whether its signed area is positive (a
    ring of zero signed area is not counter-clockwise; the pure Python
    fallback of shapely 1.x, which compares with [>=], differs on those
    rings only); the constructor refuses fewer than three points. *)
Definition is_ccw (poly : polygon) : result bool :=
  if (length poly <? 3)%nat then Raise ValueError
  else Ok (Qltb 0 (signed_area2 poly)).

Definition get_cw_poly (poly : polygon) : result polygon :=
  ccw ← is_ccw poly;
  Ok (if (ccw : bool) then rev poly else poly).

(** *** [unify_origin_polygon] *)
Definition unify_origin_polygon (poly : polygon) : result polygon :=
  xmin ← np_min (map px poly);
  xmax ← np_max (map px poly);
  ymin ← np_min (map py poly);
  ymax ← np_max (map py poly);
  let tcx := ((xmin + xmax) / 2)%Q in
  let tcy := ymin in
  let dist := map (fun p => ((px p - tcx) * (px p - tcx) + (py p - tcy) * (py p - tcy))%Q) poly in
  min_dist_idx ← np_argmin dist;
  Ok (drop min_dist_idx poly ++ take min_dist_idx poly).

(** *** [uniformsample] *)

(** The loop [while passnum > 0] that takes an excess away from the longest
    edges.  [ids] is [edgeidxsort_p] read backwards from its last entry
    ([id = -1, -2, ...]); reading past its first entry is an [IndexError].
    When an edge can absorb the whole excess, [passnum] becomes 0 and the
    loop ends, whatever [id] is. *)
Fixpoint trim_excess (ids : list nat) (passnum : Z) (edgenum : list Z) : result (list Z) :=
  if (passnum <=? 0)%Z then Ok edgenum else
  match ids with
  | [] => Raise IndexError
  | edgeid :: ids' =>
      match edgenum !! edgeid with
      | None => Raise IndexError
      | Some e =>
          if (passnum <? e)%Z
          then trim_excess ids' (passnum - passnum) (<[edgeid := (e - passnum)%Z]> edgenum)
          else trim_excess ids' (passnum - (e - 1)) (<[edgeid := (e - (e - 1))%Z]> edgenum)
      end
  end.

(** The per-edge counts of the subdivision branch: rounding, the floor of
    one point per edge, the correction of the mismatch and the assertion.
    A perimeter that is not positive makes the shares nan, whose cast to
    int32 numpy leaves to the platform: the embedding stops there, with
    [UndefinedCast], and says nothing of what the source does next. *)
Definition edge_counts (edgelen_p : list Q) (edgeidxsort_p : list nat) (newpnum : Z)
    : result (list Z) :=
  let total := Qsum edgelen_p in
  if negb (Qltb 0 total) then Raise UndefinedCast else
  let edgenum := map (fun l => np_round (l * inject_Z newpnum / total)) edgelen_p in
  let edgenum := map (fun e => if (e =? 0)%Z then 1%Z else e) edgenum in
  let edgenumsum := Zsum edgenum in
  edgenum ←
    (if negb (edgenumsum =? newpnum)%Z then
       if (newpnum <? edgenumsum)%Z then
         trim_excess (rev edgeidxsort_p) (edgenumsum - newpnum) edgenum
       else
         match last edgeidxsort_p with
         | None => Raise IndexError
         | Some edgeid =>
             match edgenum !! edgeid with
             | None => Raise IndexError
             | Some e => Ok (<[edgeid := (e + (newpnum - edgenumsum))%Z]> edgenum)
             end
         end
     else Ok edgenum);
  _ ← py_assert (Zsum edgenum =? newpnum)%Z;
  Ok edgenum.

(** [pb * (1 - w) + pe * w] *)
Definition lerp (pb pe : point) (w : Q) : point :=
  ((px pb * (1 - w) + px pe * w)%Q, (py pb * (1 - w) + py pe * w)%Q).

(** The [n] points of one edge: weights [np.arange(n) / n].  The source
    divides a float32 [arange]; the quotients are kept exact here, which
    leaves the number of points and the first point of the edge (weight 0)
    as they are. *)
Definition edge_points (pb pe : point) (n : Z) : list point :=
  map (fun k => lerp pb pe (inject_Z (Z.of_nat k) / inject_Z n)%Q) (seq 0 (Z.to_nat n)).

Definition uniformsample (pgtnp_px2 : polygon) (newpnum : Z) : result polygon :=
  let pnum := length pgtnp_px2 in
  let idxnext_p := idxnext pnum in
  pgtnext_px2 ← np_index pgtnp_px2 idxnext_p;
  let edgelen_p := edgelen pgtnext_px2 pgtnp_px2 in
  let edgeidxsort_p := np_argsort edgelen_p in
  if (newpnum <? Z.of_nat pnum)%Z then
    let edgeidxkeep_k := drop (Z.to_nat (Z.of_nat pnum - newpnum)) edgeidxsort_p in
    let edgeidxsort_k := np_sort edgeidxkeep_k in
    pgtnp_kx2 ← np_index pgtnp_px2 edgeidxsort_k;
    _ ← py_assert (Z.of_nat (length pgtnp_kx2) =? newpnum)%Z;
    Ok pgtnp_kx2
  else
    edgenum ← edge_counts edgelen_p edgeidxsort_p newpnum;
    let psample :=
      zip_with (fun be n => edge_points (fst be) (snd be) n)
               (zip pgtnp_px2 pgtnext_px2) edgenum in
    Ok (concat psample).

(** *** [unify_polygons] *)

(** [a[::step]] for any integer step. *)
Definition np_slice_step {A : Type} (step : Z) (a : list A) : result (list A) :=
  if (step =? 0)%Z then Raise ValueError
  else if (0 <? step)%Z then Ok (np_stride (Z.to_nat step) a)
  else Ok (np_stride (Z.to_nat (- step)) (rev a)).

(** [np.ones((n, 1))] *)
Definition np_ones (n : Z) : result (list Z) :=
  if (n <? 0)%Z then Raise ValueError else Ok (replicate (Z.to_nat n) 1%Z).

(** Lines 237-245: the reshaped polygons and the filtered ones, with the
    rectangle of the bounding box when the filter leaves nothing. *)
Definition unify_polygons_filtered (polygons : mask_ann) (gt_bbox : bbox)
    : result (list polygon * list polygon) :=
  polygons ← list_comp reshape2 polygons;
  filtered_polygons ← filter_tiny_polys polygons;
  let filtered_polygons :=
    if (length filtered_polygons =? 0)%nat then
      let '(xmin, ymin, xmax, ymax) := gt_bbox in
      let tl := (xmin, ymin) in
      let bl := (xmin, ymax) in
      let br := (xmax, ymax) in
      let tr := (xmax, ymin) in
      [[tl; bl; br; tr]]
    else filtered_polygons in
  Ok (polygons, filtered_polygons).

(** Lines 250-260: the body of the loop, for one polygon. *)
Definition unify_polygon (self : loader) (polygon : list point) : result (list point * list Z) :=
  sampled_polygon ← uniformsample polygon (spline_poly_num self);
  p0 ← match sampled_polygon !! 0%nat with Some p => Ok p | None => Raise IndexError end;
  tt_idx ← np_argmin (map (fun p => sqdist p p0) sampled_polygon);
  valid_polygon ← np_slice_step (spline_num self) (np_roll_left tt_idx sampled_polygon);
  cw_valid_polygon ← get_cw_poly valid_polygon;
  unify_origin_polygon ← unify_origin_polygon cw_valid_polygon;
  ones ← np_ones (num_points self);
  Ok (unify_origin_polygon, ones).

(** The loop runs over [polygons]; [filtered_polygons] is not read again. *)
Definition unify_polygons (self : loader) (polygons : mask_ann) (gt_bbox : bbox)
    : result (list polygon * list (list Z)) :=
  pf ← unify_polygons_filtered polygons gt_bbox;
  let polygons := fst pf in
  valid ← list_comp (unify_polygon self) polygons;
  Ok (map fst valid, map snd valid).

(** *** [process_polygons] *)

(** Lines 152-157: the polygons with an even number of coordinates, six
    or more. *)
Definition process_polygons (polygons : mask_ann) : mask_ann :=
  filter (fun polygon => (length polygon mod 2 =? 0)%nat && (6 <=? length polygon)%nat) polygons.

(** *** [process_polygons_m] *)

Definition point_eqb (a b : point) : bool :=
  Qeq_bool (px a) (px b) && Qeq_bool (py a) (py b).

(** [np.where(ys == v)[0]] *)
Definition np_where_eq (ys : list Q) (v : Q) : list nat :=
  map snd (filter (fun yi => Qeq_bool (fst yi) v = true) (zip ys (seq 0 (length ys)))).

Definition py_index {A : Type} (a : list A) (i : nat) : result A :=
  match a !! i with Some x => Ok x | None => Raise IndexError end.

(** The body of the loop for one raw polygon: [None] when the polygon is
    skipped, otherwise the padded key points and their 0/1 weights. *)
Definition process_polygon_m (self : loader) (polygon : list Q)
    : result (option (list point * list Z)) :=
  if (length polygon mod 2 =? 0)%nat && (6 <=? length polygon)%nat then
    pts ← reshape2 polygon;
    let poly := simplify pts in
    first ← py_index poly 0%nat;
    final ← py_index poly (length poly - 1)%nat;
    let poly := if point_eqb first final then take (length poly - 1) poly else poly in
    min_y ← np_min (map py poly);
    let min_idy := np_where_eq (map py poly) min_y in
    xs ← np_index (map px poly) min_idy;
    min_idx ← np_argmin xs;
    min_index ← py_index min_idy min_idx;
    let poly := np_roll_left min_index poly in
    let _thres := if (num_points self <=? 0)%Z then 64%Z else num_points self in
    poly ←
      (if (_thres <? Z.of_nat (length poly))%Z then
         let idxnext_p := idxnext (length poly) in
         poly_next ← np_index poly idxnext_p;
         let edgelen_p := edgelen poly_next poly in
         let edgeidxsort_p := np_argsort edgelen_p in
         let edgeidxkeep_k := drop (Z.to_nat (Z.of_nat (length poly) - _thres)) edgeidxsort_p in
         let edgeidxsort_k := np_sort edgeidxkeep_k in
         np_index poly edgeidxsort_k
       else Ok poly);
    let pad := (Z.to_nat _thres - length poly)%nat in
    let poly_64 := map (fun p => (np_int (px p), np_int (py p))) poly ++ replicate pad (0%Q, 0%Q) in
    let poly_weight := replicate (length poly) 1%Z ++ replicate pad 0%Z in
    Ok (Some (poly_64, poly_weight))
  else Ok None.

Definition process_polygons_m (self : loader) (polygons : mask_ann)
    : result (list (list point) * list (list Z)) :=
  valid ← list_comp (process_polygon_m self) polygons;
  let valid := omap id valid in
  Ok (map fst valid, map snd valid).

(** *** Correspondence matching in [_load_masks] *)

(** [cdist(XA, XB)] *)
Definition cdist (XA XB : polygon) : list (list Q) :=
  map (fun a => map (fun b => np_sqrt (sqdist a b)) XB) XA.

(** [a[rows] = vals], one value per index. *)
Fixpoint np_assign {A : Type} (a : list A) (rows : list nat) (vals : list A) : result (list A) :=
  match rows, vals with
  | [], [] => Ok a
  | r :: rows', v :: vals' =>
      if (r <? length a)%nat then np_assign (<[r := v]> a) rows' vals' else Raise IndexError
  | _, _ => Raise ValueError
  end.

(** [a[rows] = v] *)
Fixpoint np_assign_const {A : Type} (a : list A) (rows : list nat) (v : A) : result (list A) :=
  match rows with
  | [] => Ok a
  | r :: rows' =>
      if (r <? length a)%nat then np_assign_const (<[r := v]> a) rows' v else Raise IndexError
  end.

(** [_poly2[(_poly_weight2 > 0).reshape(-1)]]: the real (non-padded) key
    points. *)
Definition real_keypoints (_poly2 : list point) (_poly_weight2 : list Z) : list point :=
  map fst (filter (fun pw => (0 < snd pw)%Z) (zip _poly2 _poly_weight2)).

(** Lines 389-397, after [_poly], [_poly2] and [_poly_weight2] are read.
    [_label] has dtype [int]: storing [key_points_weight] into it keeps
    the integer part of the weight only. *)
Definition match_keypoints (self : loader) (_poly _poly2 : list point) (_poly_weight2 : list Z)
    : result (list point * list Z) :=
  let _poly2 := real_keypoints _poly2 _poly_weight2 in
  let dis := cdist _poly _poly2 in
  let matched_row_inds := fst (linear_sum_assignment dis) in
  let matched_col_inds := snd (linear_sum_assignment dis) in
  vals ← np_index _poly2 matched_col_inds;
  _poly ← np_assign _poly matched_row_inds vals;
  _label ← np_ones (num_points self);
  _label ← np_assign_const _label matched_row_inds (astype_int (key_points_weight self));
  Ok (_poly, _label).

(** Lines 380-399: the polygons and weights of instance [i]. *)
Definition load_instance (self : loader) (gt_bboxes : list bbox) (i : nat) (gt_mask : mask_ann)
    : result (list (list point) * list (list Z)) :=
  if (0 <? spline_num self)%Z then
    gt_bbox ← py_index gt_bboxes i;
    pw ← unify_polygons self gt_mask gt_bbox;
    pw2 ← process_polygons_m self gt_mask;
    matched ← list_comp (fun _idx =>
        _poly ← py_index (fst pw) _idx;
        _poly2 ← py_index (fst pw2) _idx;
        _poly_weight2 ← py_index (snd pw2) _idx;
        match_keypoints self _poly _poly2 _poly_weight2)
      (seq 0 (length (fst pw)));
    Ok (map fst matched, map snd matched)
  else process_polygons_m self gt_mask.

(** Lines 361-369: the summed raster. *)
Definition load_poly_masks (gt_masks : list mask_ann) (h w : nat) : result ndarray :=
  gt_poly_masks ← np_array_sum0 (map (fun mask => _poly2mask mask h w) gt_masks);
  if negb (shape_eqb (nd_shape gt_poly_masks) [h; w])
  then Ok (np_zeros [h; w])
  else Ok gt_poly_masks.

(** What [_load_masks] leaves in [results]: the raw masks when not
    training, otherwise the polygons and weights of every instance and,
    with [poly2mask], the raster. *)
Inductive loaded_masks : Type :=
| RawMasks (gt_masks : list mask_ann)
| PolygonMasks (polys : list (list (list point) * list (list Z))) (h w : nat)
    (gt_poly_masks : option ndarray).

Definition _load_masks (self : loader) (h w : nat) (gt_masks : list mask_ann)
    (gt_bboxes : list bbox) : result loaded_masks :=
  if negb (training self) then Ok (RawMasks gt_masks) else
  gt_poly_masks ←
    (if poly2mask self then m ← load_poly_masks gt_masks h w; Ok (Some m) else Ok None);
  polys ← list_comp (fun ig => load_instance self gt_bboxes (fst ig) (snd ig))
                    (zip (seq 0 (length gt_masks)) gt_masks);
  Ok (PolygonMasks polys h w gt_poly_masks).

End Loading.

(** ** Vocabulary of the statements *)

(** The order of a stable sort: by key, then by index. *)
Definition klt (a b : Q * nat) : Prop :=
  (fst a < fst b)%Q \/ (fst a == fst b /\ (snd a < snd b)%nat).

(** Index [i] may stand before index [j] in a sort of [keys]. *)
Definition key_le (keys : list Q) (i j : nat) : Prop :=
  exists ki kj, keys !! i = Some ki /\ keys !! j = Some kj /\ (ki <= kj)%Q.

(** The length of the edge that leaves vertex [i]: from vertex [i] to
    vertex [(i + 1) mod P]. *)
Definition outgoing_len (np_sqrt : Q -> Q) (poly : polygon) (i : nat) : option Q :=
  p ← poly !! i;
  q ← poly !! ((i + 1) mod length poly)%nat;
  Some (np_sqrt (sqdist q p)).

(** What the excess loop can still take away along [ids]. *)
Definition slack (ids : list nat) (edgenum : list Z) : Z :=
  Zsum (map (fun i => (default 0 (edgenum !! i) - 1)%Z) ids).

(** A polygon that the resampler accepts: its perimeter is positive. *)
Definition positive_perimeter (np_sqrt : Q -> Q) (poly : polygon) : Prop :=
  exists nxt, np_index poly (idxnext (length poly)) = Ok nxt /\
              (0 < Qsum (edgelen np_sqrt nxt poly))%Q.

(** A raw polygon that reshapes to a polygon of positive perimeter. *)
Definition resamplable (np_sqrt : Q -> Q) (p : list Q) : Prop :=
  exists poly, reshape2 p = Ok poly /\ positive_perimeter np_sqrt poly.

(** The threshold [_thres] of [process_polygons_m]. *)
Definition thres (self : loader) : Z :=
  if (num_points self <=? 0)%Z then 64%Z else num_points self.

(** The number of points that [unify_polygons] leaves on a polygon:
    [spline_poly_num] points read with the step [spline_num]. *)
Definition points_per_polygon (self : loader) : nat :=
  ((Z.to_nat (spline_poly_num self) + Z.to_nat (spline_num self) - 1)
   / Z.to_nat (spline_num self))%nat.

(** The squared distance that [unify_origin_polygon] minimises: from [p] to
    the middle of the top side of the bounding box. *)
Definition top_mid_dist (xmin xmax ymin : Q) (p : point) : Q :=
  ((px p - (xmin + xmax) / 2) * (px p - (xmin + xmax) / 2)
   + (py p - ymin) * (py p - ymin))%Q.

(** Least and greatest entry of an array, and the first index of a least
    entry (what [np.min], [np.max] and [np.argmin] return). *)
Definition least (l : list Q) (m : Q) : Prop := m ∈ l /\ Forall (fun x => (m <= x)%Q) l.
Definition greatest (l : list Q) (m : Q) : Prop := m ∈ l /\ Forall (fun x => (x <= m)%Q) l.
Definition first_least (l : list Q) (k : nat) : Prop :=
  exists m, l !! k = Some m /\ Forall (fun x => (m <= x)%Q) l /\
            forall j y, (j < k)%nat -> l !! j = Some y -> (m < y)%Q.

(** An integer array read as an array of numbers. *)
Definition of_ints (poly : list (Z * Z)) : polygon :=
  map (fun p => (inject_Z (fst p), inject_Z (snd p))) poly.

(** Integer annotations on which numpy's arithmetic is exact, in [int64]
    and in float64 alike: at most 2048 vertices, coordinates of at most
    2^20 in absolute value. *)
Definition small (z : Z) : Prop := (Z.abs z <= 2 ^ 20)%Z.
Definition exact_range (poly : list (Z * Z)) : Prop :=
  (length poly <= 2048)%nat /\
  Forall (fun p => small (fst p) /\ small (snd p)) poly.

(** What [filter_tiny_polys] asks of a polygon: a bounding box of width
    and height 1 or more, and an area (half the absolute value of the
    signed area of the ring) above 5. *)
Definition not_tiny (poly : polygon) : Prop :=
  exists x_min y_min x_max y_max,
    least (map px poly) x_min /\ least (map py poly) y_min /\
    greatest (map px poly) x_max /\ greatest (map py poly) y_max /\
    (1 <= x_max - x_min)%Q /\ (1 <= y_max - y_min)%Q /\
    (5 < (1 # 2) * Qabs (signed_area2 poly))%Q.

(** [kept_by P l k]: [k] is [l] without its entries that fail [P], each
    entry that passes kept once, in its place. *)
Inductive kept_by {A : Type} (P : A -> Prop) : list A -> list A -> Prop :=
| kept_nil : kept_by P [] []
| kept_take (x : A) (l k : list A) : P x -> kept_by P l k -> kept_by P (x :: l) (x :: k)
| kept_skip (x : A) (l k : list A) : ~ P x -> kept_by P l k -> kept_by P (x :: l) k.

(** Equality of polygons as arrays of numbers. *)
Definition polygon_eqb (a b : polygon) : bool :=
  (length a =? length b)%nat && forallb (fun ab => point_eqb (fst ab) (snd ab)) (zip a b).

(** ** Instances of the library functions, to run the loader on examples *)

(** A square root with 20 binary digits after the point. *)
Definition sqrt_fix (x : Q) : Q :=
  Z.sqrt (Qfloor (x * inject_Z (2 ^ 40))) # (2 ^ 20).

(** A stable argsort by insertion.  The array is sorted as (key, index)
    pairs; [ins] puts a pair in front of the first pair whose key is not
    smaller, and the pairs are inserted from the last index down to the
    first. *)
Fixpoint ins (x : Q * nat) (l : list (Q * nat)) : list (Q * nat) :=
  match l with
  | [] => [x]
  | y :: l' => if Qltb (fst y) (fst x) then y :: ins x l' else x :: l
  end.
Fixpoint isort (l : list (Q * nat)) : list (Q * nat) :=
  match l with
  | [] => []
  | x :: l' => ins x (isort l')
  end.
Definition keyed (keys : list Q) : list (Q * nat) := zip keys (seq 0 (length keys)).
Definition argsort_insertion (keys : list Q) : list nat := map snd (isort (keyed keys)).

(** numpy's argsort of a float array as numpy 1.x computes it
    ([aquicksort] in npysort/quicksort): ranges of more than 16 entries are
    partitioned around the median of their first, middle and last entry,
    shorter ranges are sorted by insertion.  [a] is the index array
    [tosort], [pl] and [pr] the ends of the range.  The limit on the depth
    of the partitioning, past which numpy turns to heapsort, is left out. *)
Definition key_at (v : list Q) (a : list nat) (p : nat) : Q :=
  nth (nth p a 0%nat) v 0%Q.

Definition swap (p q : nat) (a : list nat) : list nat :=
  <[p := nth q a 0%nat]> (<[q := nth p a 0%nat]> a).

(** [do ++pi; while (v[*pi] < vp)], from the incremented [pi]. *)
Fixpoint scan_up (fuel : nat) (v : list Q) (a : list nat) (vp : Q) (pi : nat) : nat :=
  match fuel with
  | O => pi
  | S f => if Qltb (key_at v a pi) vp then scan_up f v a vp (S pi) else pi
  end.

(** [do --pj; while (vp < v[*pj])], from the decremented [pj]. *)
Fixpoint scan_down (fuel : nat) (v : list Q) (a : list nat) (vp : Q) (pj : nat) : nat :=
  match fuel with
  | O => pj
  | S f => if Qltb vp (key_at v a pj) then scan_down f v a vp (pj - 1) else pj
  end.

Fixpoint partition_loop (fuel : nat) (v : list Q) (vp : Q) (pi pj : nat) (a : list nat)
    : nat * list nat :=
  match fuel with
  | O => (pi, a)
  | S f =>
      let pi := scan_up (length a) v a vp (S pi) in
      let pj := scan_down (length a) v a vp (pj - 1) in
      if (pj <=? pi)%nat then (pi, a) else partition_loop f v vp pi pj (swap pi pj a)
  end.

Definition partition (v : list Q) (pl pr : nat) (a : list nat) : nat * list nat :=
  let pm := (pl + (pr - pl) / 2)%nat in
  let a := if Qltb (key_at v a pm) (key_at v a pl) then swap pm pl a else a in
  let a := if Qltb (key_at v a pr) (key_at v a pm) then swap pr pm a else a in
  let a := if Qltb (key_at v a pm) (key_at v a pl) then swap pm pl a else a in
  let vp := key_at v a pm in
  let a := swap pm (pr - 1) a in
  let '(pi, a) := partition_loop (length a) v vp pl (pr - 1) a in
  (pi, swap pi (pr - 1) a).

Fixpoint shift_down (fuel : nat) (v : list Q) (vp : Q) (pl pj : nat) (a : list nat)
    : nat * list nat :=
  match fuel with
  | O => (pj, a)
  | S f =>
      if (pl <? pj)%nat && Qltb vp (key_at v a (pj - 1))
      then shift_down f v vp pl (pj - 1) (<[pj := nth (pj - 1) a 0%nat]> a)
      else (pj, a)
  end.

Definition insert_at (v : list Q) (pl : nat) (a : list nat) (pi : nat) : list nat :=
  let vi := nth pi a 0%nat in
  let '(pj, a) := shift_down (length a) v (nth vi v 0%Q) pl pi a in
  <[pj := vi]> a.

Definition insertion_range (v : list Q) (pl pr : nat) (a : list nat) : list nat :=
  foldl (insert_at v pl) a (seq (pl + 1) (pr - pl)).

Fixpoint aquicksort (fuel : nat) (v : list Q) (pl pr : nat) (a : list nat) : list nat :=
  match fuel with
  | O => a
  | S f =>
      if (16 <=? pr - pl)%nat then
        let '(pi, a) := partition v pl pr a in
        aquicksort f v (pi + 1) pr (aquicksort f v pl (pi - 1) a)
      else insertion_range v pl pr a
  end.

Definition argsort_numpy (keys : list Q) : list nat :=
  aquicksort (length keys) keys 0 (length keys - 1) (seq 0 (length keys)).

(** An assignment with the shape of scipy's result (it is not a cheapest
    one): column [c] goes to row [c]. *)
Definition assign_in_order (dis : list (list Q)) : list nat * list nat :=
  let m := length (hd [] dis) in (seq 0 m, seq 0 m).

(** A simplifier that keeps every vertex and closes the ring. *)
Definition simplify_id (pts : polygon) : polygon :=
  match pts with
  | [] => []
  | p :: _ => pts ++ [p]
  end.

(** A decoder that gives every instance an empty 0 x 0 bitmap. *)
Definition decode_empty (_ : mask_ann) (_ _ : nat) : ndarray := np_zeros [0%nat; 0%nat].

(** * Properties *)

(** ** The exception monad *)

Lemma bind_Ok {A B : Type} (m : result A) (k : A -> result B) (a : A) :
  m = Ok a -> m ≫= k = k a.
Proof. intros ->. reflexivity. Qed.

Lemma bind_Ok_inv {A B : Type} (m : result A) (k : A -> result B) (b : B) :
  m ≫= k = Ok b -> exists a, m = Ok a /\ k a = Ok b.
Proof. destruct m as [a|e]; simpl; [eauto | discriminate]. Qed.

Ltac inv_bind H :=
  let a := fresh "a" in
  let Ha := fresh "Ha" in
  apply bind_Ok_inv in H; destruct H as (a & Ha & H).

Lemma list_comp_Forall2 {A B : Type} (f : A -> result B) (l : list A) (ys : list B) :
  list_comp f l = Ok ys <-> Forall2 (fun x y => f x = Ok y) l ys.
Proof.
  revert ys. induction l as [|x l IH]; intros ys; simpl.
  - split.
    + intros [= <-]. constructor.
    + intros H. inversion H. reflexivity.
  - split.
    + intros H. inv_bind H. inv_bind H. injection H as <-.
      constructor; [assumption | apply IH; assumption].
    + intros H. inversion H as [|? y ? ys' Hy Hys]; subst.
      rewrite (bind_Ok _ _ _ Hy). apply IH in Hys.
      rewrite (bind_Ok _ _ _ Hys). reflexivity.
Qed.

Lemma list_comp_length {A B : Type} (f : A -> result B) (l : list A) (ys : list B) :
  list_comp f l = Ok ys -> length ys = length l.
Proof.
  intros H. apply list_comp_Forall2 in H.
  symmetry. eapply Forall2_length. exact H.
Qed.

Lemma list_comp_total {A B : Type} (f : A -> result B) (l : list A) :
  Forall (fun x => exists y, f x = Ok y) l -> exists ys, list_comp f l = Ok ys.
Proof.
  induction 1 as [|x l [y Hy] _ [ys Hys]]; simpl.
  - eauto.
  - rewrite (bind_Ok _ _ _ Hy), (bind_Ok _ _ _ Hys). eauto.
Qed.

(** ** numpy indexing *)

Lemma np_index_Forall2 {A : Type} (a : list A) (idx : list nat) (out : list A) :
  np_index a idx = Ok out <-> Forall2 (fun i x => a !! i = Some x) idx out.
Proof.
  unfold np_index. rewrite list_comp_Forall2.
  split; intros H; eapply Forall2_impl; try exact H; simpl; intros i x.
  - destruct (a !! i); [intros [= ->]; reflexivity | discriminate].
  - intros ->. reflexivity.
Qed.

Lemma np_index_length {A : Type} (a : list A) (idx : list nat) (out : list A) :
  np_index a idx = Ok out -> length out = length idx.
Proof. apply list_comp_length. Qed.

Lemma np_index_lookup {A : Type} (a : list A) (idx : list nat) (out : list A) (k i : nat) :
  np_index a idx = Ok out -> idx !! k = Some i -> out !! k = a !! i.
Proof.
  intros H Hk. apply np_index_Forall2 in H.
  destruct (Forall2_lookup_l _ _ _ _ _ H Hk) as (x & -> & ->). reflexivity.
Qed.

Lemma np_index_total {A : Type} (a : list A) (idx : list nat) :
  Forall (fun i => (i < length a)%nat) idx -> exists out, np_index a idx = Ok out.
Proof.
  intros H. apply list_comp_total. eapply Forall_impl; [exact H|].
  simpl. intros i Hi. destruct (lookup_lt_is_Some_2 a i Hi) as [x ->]. eauto.
Qed.

Lemma idxnext_length (pnum : nat) : length (idxnext pnum) = pnum.
Proof. unfold idxnext. rewrite length_map, length_seq. reflexivity. Qed.

Lemma idxnext_bound (pnum : nat) : Forall (fun i => (i < pnum)%nat) (idxnext pnum).
Proof.
  unfold idxnext. apply Forall_forall. intros i Hi.
  apply list_elem_of_In, in_map_iff in Hi. destruct Hi as (j & <- & Hj).
  apply in_seq in Hj. apply Nat.mod_upper_bound. lia.
Qed.

(** The successor array always exists and has one entry per vertex. *)
Lemma pgtnext_total (poly : polygon) :
  exists nxt, np_index poly (idxnext (length poly)) = Ok nxt /\ length nxt = length poly.
Proof.
  destruct (np_index_total poly (idxnext (length poly)) (idxnext_bound _)) as [nxt H].
  exists nxt. split; [assumption|].
  rewrite (np_index_length _ _ _ H). apply idxnext_length.
Qed.

(** ** Sorting *)

Lemma Qltb_lt (x y : Q) : Qltb x y = true <-> (x < y)%Q.
Proof.
  unfold Qltb. rewrite negb_true_iff. split.
  - intros H. apply Qnot_le_lt. intros Hle. apply Qle_bool_iff in Hle. congruence.
  - intros H. destruct (Qle_bool y x) eqn:E; [|reflexivity].
    apply Qle_bool_iff in E. exfalso. exact (Qlt_not_le _ _ H E).
Qed.

Lemma Qltb_ge (x y : Q) : Qltb x y = false <-> (y <= x)%Q.
Proof.
  unfold Qltb. rewrite negb_false_iff. apply Qle_bool_iff.
Qed.

Lemma klt_key_le (a b : Q * nat) : klt a b -> (fst a <= fst b)%Q.
Proof. intros [H|[H _]]; [apply Qlt_le_weak; exact H | rewrite H; apply Qle_refl]. Qed.

Lemma klt_of_le (a b : Q * nat) : (fst a <= fst b)%Q -> (snd a < snd b)%nat -> klt a b.
Proof.
  intros Hle Hlt. destruct (Qle_lt_or_eq _ _ Hle) as [H|H]; [left | right]; auto.
Qed.

Lemma ins_perm (x : Q * nat) (l : list (Q * nat)) : Permutation (ins x l) (x :: l).
Proof.
  induction l as [|y l IH]; simpl; [reflexivity|].
  destruct (Qltb (fst y) (fst x)); [|reflexivity].
  rewrite IH. apply perm_swap.
Qed.

Lemma isort_perm (l : list (Q * nat)) : Permutation (isort l) l.
Proof.
  induction l as [|x l IH]; simpl; [reflexivity|].
  rewrite ins_perm, IH. reflexivity.
Qed.

Lemma ins_sorted (x : Q * nat) (l : list (Q * nat)) :
  StronglySorted klt l ->
  Forall (fun y => (snd x < snd y)%nat) l ->
  StronglySorted klt (ins x l).
Proof.
  induction l as [|y l IH]; intros Hs Hx; simpl.
  - repeat constructor.
  - apply StronglySorted_inv in Hs. destruct Hs as [Hs Hy].
    apply Forall_cons in Hx. destruct Hx as [Hxy Hx].
    destruct (Qltb (fst y) (fst x)) eqn:E.
    + constructor; [apply IH; assumption|].
      rewrite (ins_perm x l). constructor; [|assumption].
      left. apply Qltb_lt. exact E.
    + apply Qltb_ge in E. constructor; [constructor; assumption|].
      constructor; [apply klt_of_le; assumption|].
      rewrite Forall_forall in Hy, Hx |- *. intros z Hz.
      apply klt_of_le; [|apply Hx; exact Hz].
      eapply Qle_trans; [exact E|]. apply klt_key_le, Hy, Hz.
Qed.

Lemma isort_sorted (keys : list Q) (s : nat) :
  StronglySorted klt (isort (zip keys (seq s (length keys)))).
Proof.
  revert s. induction keys as [|k keys IH]; intros s; simpl; [constructor|].
  apply ins_sorted; [apply IH|].
  rewrite (isort_perm _). apply Forall_forall. intros [k' i] Hi. simpl.
  apply list_elem_of_In, in_combine_r, in_seq in Hi. lia.
Qed.

Lemma argsort_insertion_perm (keys : list Q) :
  Permutation (argsort_insertion keys) (seq 0 (length keys)).
Proof.
  unfold argsort_insertion, keyed. rewrite isort_perm.
  rewrite snd_zip; [reflexivity|]. rewrite length_seq. reflexivity.
Qed.

Lemma keyed_elem (keys : list Q) (k : Q) (i : nat) :
  (k, i) ∈ keyed keys <-> keys !! i = Some k.
Proof.
  unfold keyed. rewrite elem_of_lookup_zip_with. split.
  - intros (j & k' & i' & [= -> ->] & Hk & Hi).
    apply lookup_seq in Hi. destruct Hi as [-> _]. exact Hk.
  - intros Hk. exists i, k, i. split; [reflexivity|]. split; [exact Hk|].
    apply lookup_seq. split; [reflexivity|]. eapply lookup_lt_Some. exact Hk.
Qed.

Lemma sorted_app_rel {A : Type} (R : A -> A -> Prop) (l1 l2 : list A) (a b : A) :
  StronglySorted R (l1 ++ l2) -> a ∈ l1 -> b ∈ l2 -> R a b.
Proof.
  induction l1 as [|x l1 IH]; simpl; intros Hs Ha Hb.
  - inversion Ha.
  - apply StronglySorted_inv in Hs. destruct Hs as [Hs Hx].
    apply elem_of_cons in Ha. destruct Ha as [->|Ha].
    + rewrite Forall_forall in Hx. apply Hx. apply elem_of_app. right. exact Hb.
    + apply IH; assumption.
Qed.

Lemma argsort_insertion_sorted (keys : list Q) :
  StronglySorted (key_le keys) (argsort_insertion keys).
Proof.
  unfold argsort_insertion.
  assert (Hin : Forall (fun x => keys !! snd x = Some (fst x)) (isort (keyed keys))).
  { rewrite isort_perm. apply Forall_forall. intros [k i] Hk. apply keyed_elem. exact Hk. }
  pose proof (isort_sorted keys 0) as Hs. fold (keyed keys) in Hs.
  revert Hin Hs. generalize (isort (keyed keys)). intros l.
  induction l as [|x l IH]; intros Hin Hs; simpl; [constructor|].
  apply Forall_cons in Hin. destruct Hin as [Hxk Hin].
  apply StronglySorted_inv in Hs. destruct Hs as [Hs Hx].
  constructor; [apply IH; assumption|].
  apply Forall_forall. intros j Hj.
  apply list_elem_of_In, in_map_iff in Hj. destruct Hj as (y & <- & Hy).
  apply list_elem_of_In in Hy.
  exists (fst x), (fst y). split; [exact Hxk|].
  split; [exact (proj1 (Forall_forall _ _) Hin y Hy)|].
  apply klt_key_le. exact (proj1 (Forall_forall _ _) Hx y Hy).
Qed.

(** Whatever the stable sort keeps after dropping its first [d] entries
    beats whatever it dropped, by key and then by index. *)
Lemma argsort_insertion_drop (keys : list Q) (d i j : nat) (ki kj : Q) :
  i ∈ drop d (argsort_insertion keys) ->
  j ∉ drop d (argsort_insertion keys) ->
  keys !! i = Some ki -> keys !! j = Some kj ->
  klt (kj, j) (ki, i).
Proof.
  unfold argsort_insertion. rewrite !skipn_map. intros Hi Hj Hki Hkj.
  pose proof (isort_sorted keys 0) as Hs. fold (keyed keys) in Hs.
  rewrite <- (take_drop d (isort (keyed keys))) in Hs.
  apply list_elem_of_In, in_map_iff in Hi. destruct Hi as ([ki' i'] & Hi' & Hi).
  simpl in Hi'. subst i'. apply list_elem_of_In in Hi.
  assert (Hin : (ki', i) ∈ keyed keys).
  { rewrite <- (isort_perm (keyed keys)). apply (subseteq_drop d). exact Hi. }
  apply keyed_elem in Hin. rewrite Hki in Hin. injection Hin as <-.
  assert (Hjin : (kj, j) ∈ isort (keyed keys)).
  { rewrite (isort_perm (keyed keys)). apply keyed_elem. exact Hkj. }
  rewrite <- (take_drop d (isort (keyed keys))) in Hjin.
  apply elem_of_app in Hjin. destruct Hjin as [Hjin|Hjin].
  - exact (sorted_app_rel klt _ _ _ _ Hs Hjin Hi).
  - exfalso. apply Hj. apply list_elem_of_In, in_map_iff. exists (kj, j).
    split; [reflexivity | apply list_elem_of_In; exact Hjin].
Qed.

Lemma ins_nat_perm (x : nat) (l : list nat) : Permutation (ins_nat x l) (x :: l).
Proof.
  induction l as [|y l IH]; simpl; [reflexivity|].
  destruct (y <? x)%nat; [|reflexivity].
  rewrite IH. apply perm_swap.
Qed.

Lemma np_sort_perm (l : list nat) : Permutation (np_sort l) l.
Proof.
  induction l as [|x l IH]; simpl; [reflexivity|].
  rewrite ins_nat_perm, IH. reflexivity.
Qed.

Lemma ins_nat_sorted (x : nat) (l : list nat) :
  StronglySorted le l -> StronglySorted le (ins_nat x l).
Proof.
  induction l as [|y l IH]; intros Hs; simpl.
  - repeat constructor.
  - apply StronglySorted_inv in Hs. destruct Hs as [Hs Hy].
    destruct (Nat.ltb_spec y x) as [E|E].
    + constructor; [apply IH; assumption|].
      rewrite (ins_nat_perm x l). constructor; [lia | assumption].
    + constructor; [constructor; assumption|].
      constructor; [assumption|].
      eapply Forall_impl; [exact Hy|]. simpl. intros z Hz. lia.
Qed.

Lemma np_sort_sorted (l : list nat) : StronglySorted le (np_sort l).
Proof.
  induction l as [|x l IH]; simpl; [constructor | apply ins_nat_sorted, IH].
Qed.

Lemma sorted_NoDup_lt (l : list nat) :
  StronglySorted le l -> NoDup l -> StronglySorted lt l.
Proof.
  induction l as [|x l IH]; intros Hs Hn; [constructor|].
  apply StronglySorted_inv in Hs. destruct Hs as [Hs Hx].
  apply NoDup_cons in Hn. destruct Hn as [Hnx Hn].
  constructor; [apply IH; assumption|].
  rewrite Forall_forall in Hx |- *. intros y Hy.
  specialize (Hx y Hy). assert (x <> y) by (intros ->; contradiction). lia.
Qed.

(** ** The resampler *)

Section Resampling.

Variable np_sqrt : Q -> Q.
Hypothesis np_sqrt_nonneg : forall x : Q, (0 <= np_sqrt x)%Q.

(** What is used of [np.argsort]: it returns the indices of the array, each
    once, and the keys do not decrease along them.  Nothing is assumed on
    the order of equal keys. *)
Variable np_argsort : list Q -> list nat.
Hypothesis np_argsort_perm :
  forall keys : list Q, Permutation (np_argsort keys) (seq 0 (length keys)).
Hypothesis np_argsort_sorted :
  forall keys : list Q, StronglySorted (key_le keys) (np_argsort keys).

Lemma np_argsort_length (keys : list Q) : length (np_argsort keys) = length keys.
Proof. rewrite (Permutation_length (np_argsort_perm keys)). apply length_seq. Qed.

Lemma np_argsort_NoDup (keys : list Q) : NoDup (np_argsort keys).
Proof. rewrite np_argsort_perm. apply NoDup_seq. Qed.

Lemma np_argsort_bound (keys : list Q) :
  Forall (fun i => (i < length keys)%nat) (np_argsort keys).
Proof.
  rewrite np_argsort_perm. apply Forall_forall. intros i Hi.
  apply list_elem_of_In, in_seq in Hi. lia.
Qed.

(** Whatever the sort keeps after dropping its first [d] entries is at
    least as large as whatever it dropped. *)
Lemma np_argsort_drop_le (keys : list Q) (d i j : nat) (ki kj : Q) :
  i ∈ drop d (np_argsort keys) ->
  j ∉ drop d (np_argsort keys) ->
  keys !! i = Some ki -> keys !! j = Some kj ->
  (kj <= ki)%Q.
Proof.
  intros Hi Hj Hki Hkj.
  assert (Hjin : j ∈ np_argsort keys).
  { rewrite np_argsort_perm. apply list_elem_of_In, in_seq.
    apply lookup_lt_Some in Hkj. lia. }
  rewrite <- (take_drop d (np_argsort keys)) in Hjin.
  apply elem_of_app in Hjin. destruct Hjin as [Hjin|Hjin]; [|contradiction].
  pose proof (np_argsort_sorted keys) as Hs.
  rewrite <- (take_drop d (np_argsort keys)) in Hs.
  destruct (sorted_app_rel _ _ _ _ _ Hs Hjin Hi) as (kj' & ki' & Hj' & Hi' & Hle).
  rewrite Hkj in Hj'. rewrite Hki in Hi'. injection Hj' as <-. injection Hi' as <-.
  exact Hle.
Qed.

Lemma idxnext_lookup (pnum i : nat) :
  (i < pnum)%nat -> idxnext pnum !! i = Some ((i + 1) mod pnum)%nat.
Proof.
  intros Hi. unfold idxnext.
  change (map ?f ?l) with (f <$> l). rewrite list_lookup_fmap.
  rewrite (lookup_seq_lt 0 pnum i Hi). reflexivity.
Qed.

Lemma edgelen_length (nxt poly : polygon) :
  length nxt = length poly -> length (edgelen np_sqrt nxt poly) = length poly.
Proof. intros H. unfold edgelen. rewrite length_zip_with. lia. Qed.

Lemma edgelen_lookup (poly nxt : polygon) (i : nat) :
  np_index poly (idxnext (length poly)) = Ok nxt ->
  edgelen np_sqrt nxt poly !! i = outgoing_len np_sqrt poly i.
Proof.
  intros Hn. unfold edgelen, outgoing_len, polygon in *. rewrite lookup_zip_with.
  destruct (poly !! i) as [p|] eqn:Hp.
  - assert (Hi : (i < length poly)%nat) by (eapply lookup_lt_Some; exact Hp).
    rewrite (np_index_lookup _ _ _ _ _ Hn (idxnext_lookup _ _ Hi)).
    destruct (poly !! ((i + 1) mod length poly)%nat); reflexivity.
  - destruct (nxt !! i); reflexivity.
Qed.

(** The index array of the contraction branch. *)
Lemma contraction_indices (keys : list Q) (N : Z) :
  (0 <= N <= Z.of_nat (length keys))%Z ->
  let idx := np_sort (drop (Z.to_nat (Z.of_nat (length keys) - N)) (np_argsort keys)) in
  length idx = Z.to_nat N /\
  StronglySorted lt idx /\
  Forall (fun i => (i < length keys)%nat) idx.
Proof.
  intros HN idx. subst idx.
  set (d := Z.to_nat (Z.of_nat (length keys) - N)).
  split; [|split].
  - rewrite (Permutation_length (np_sort_perm _)), length_drop, np_argsort_length. lia.
  - apply sorted_NoDup_lt; [apply np_sort_sorted|].
    rewrite np_sort_perm.
    pose proof (np_argsort_NoDup keys) as Hn.
    rewrite <- (take_drop d (np_argsort keys)) in Hn.
    apply NoDup_app in Hn. tauto.
  - rewrite np_sort_perm. eapply Forall_drop, np_argsort_bound.
Qed.

(** The contraction branch, run to its end: the output is the input read
    at the sorted kept indices. *)
Lemma contraction_run (poly : polygon) (N : Z) :
  (0 <= N < Z.of_nat (length poly))%Z ->
  exists (nxt out : polygon),
    np_index poly (idxnext (length poly)) = Ok nxt /\
    let kept := drop (Z.to_nat (Z.of_nat (length poly) - N))
                     (np_argsort (edgelen np_sqrt nxt poly)) in
    uniformsample np_sqrt np_argsort poly N = Ok out /\
    length out = Z.to_nat N /\
    length (np_sort kept) = Z.to_nat N /\
    StronglySorted lt (np_sort kept) /\
    Forall2 (fun i p => poly !! i = Some p) (np_sort kept) out.
Proof.
  intros HN. destruct (pgtnext_total poly) as (nxt & Hn & Hl).
  pose proof (edgelen_length nxt poly Hl) as Hk.
  exists nxt. set (keys := edgelen np_sqrt nxt poly) in *.
  set (d := Z.to_nat (Z.of_nat (length poly) - N)).
  destruct (contraction_indices keys N) as (Hlen & Hsorted & Hbound); [lia|].
  rewrite Hk in Hlen, Hsorted, Hbound. fold d in Hlen, Hsorted, Hbound.
  destruct (np_index_total poly _ Hbound) as [out Hout].
  pose proof (np_index_length _ _ _ Hout) as Hol.
  exists out. split; [exact Hn|]. cbv zeta.
  split; [|split; [|split; [|split]]].
  - unfold uniformsample. rewrite (bind_Ok _ _ _ Hn). fold keys.
    destruct (Z.ltb_spec N (Z.of_nat (length poly))) as [_|]; [|lia].
    fold d. rewrite (bind_Ok _ _ _ Hout).
    replace (Z.of_nat (length out) =? N)%Z with true; [reflexivity|].
    symmetry. apply Z.eqb_eq. lia.
  - lia.
  - exact Hlen.
  - exact Hsorted.
  - apply np_index_Forall2. exact Hout.
Qed.

(** *** The per-edge counts *)

Lemma np_round_nonneg (x : Q) : (0 <= x)%Q -> (0 <= np_round x)%Z.
Proof.
  intros Hx. assert (Hf : (0 <= Qfloor x)%Z).
  { change 0%Z with (Qfloor (inject_Z 0)). apply Qfloor_resp_le. exact Hx. }
  unfold np_round. destruct (Qcompare _ _); [destruct (Z.even _)| |]; lia.
Qed.

Lemma share_nonneg (l total : Q) (N : Z) :
  (0 <= l)%Q -> (0 < total)%Q -> (0 <= N)%Z -> (0 <= l * inject_Z N / total)%Q.
Proof.
  intros Hl Ht HN. unfold Qdiv. apply Qmult_le_0_compat.
  - apply Qmult_le_0_compat; [exact Hl|].
    change 0%Q with (inject_Z 0). rewrite <- Zle_Qle. exact HN.
  - apply Qlt_le_weak, Qinv_lt_0_compat. exact Ht.
Qed.

Lemma Zsum_insert (l : list Z) (i : nat) (x y : Z) :
  l !! i = Some x -> Zsum (<[i := y]> l) = (Zsum l - x + y)%Z.
Proof.
  revert i. induction l as [|a l IH]; intros [|i] H; simpl in *; try discriminate.
  - injection H as ->. lia.
  - rewrite (IH i H). lia.
Qed.

Lemma Zsum_perm (l1 l2 : list Z) : Permutation l1 l2 -> Zsum l1 = Zsum l2.
Proof. induction 1; simpl; lia. Qed.

Lemma slack_insert (ids : list nat) (edgenum : list Z) (i : nat) (y : Z) :
  i ∉ ids -> slack ids (<[i := y]> edgenum) = slack ids edgenum.
Proof.
  unfold slack. induction ids as [|j ids IH]; intros Hi; simpl; [reflexivity|].
  apply not_elem_of_cons in Hi. destruct Hi as [Hij Hi].
  rewrite (IH Hi), list_lookup_insert_ne by exact Hij. reflexivity.
Qed.

Lemma slack_all (edgenum : list Z) :
  slack (seq 0 (length edgenum)) edgenum = (Zsum edgenum - Z.of_nat (length edgenum))%Z.
Proof.
  unfold slack. induction edgenum as [|a l IH]; [reflexivity|].
  cbn [length seq map]. rewrite <- seq_shift, map_map.
  cbn [Zsum foldr].
  match goal with |- (_ + ?t)%Z = _ =>
    replace t with (Zsum l - Z.of_nat (length l))%Z by (rewrite <- IH; reflexivity)
  end.
  change (Zsum l) with (foldr Z.add 0%Z l). simpl. lia.
Qed.

Lemma trim_excess_done (ids : list nat) (passnum : Z) (edgenum : list Z) :
  (passnum <= 0)%Z -> trim_excess ids passnum edgenum = Ok edgenum.
Proof.
  intros H. destruct ids; simpl; destruct (Z.leb_spec passnum 0); (reflexivity || lia).
Qed.

(** The excess loop ends before it runs out of edges, takes exactly the
    excess away and leaves every count at 1 or more. *)
Lemma trim_excess_ok (ids : list nat) :
  forall (passnum : Z) (edgenum : list Z),
    Forall (fun e => (1 <= e)%Z) edgenum ->
    NoDup ids ->
    Forall (fun i => (i < length edgenum)%nat) ids ->
    (passnum <= slack ids edgenum)%Z ->
    exists edgenum',
      trim_excess ids passnum edgenum = Ok edgenum' /\
      Zsum edgenum' = (Zsum edgenum - Z.max 0 passnum)%Z /\
      Forall (fun e => (1 <= e)%Z) edgenum' /\
      length edgenum' = length edgenum.
Proof.
  induction ids as [|edgeid ids IH]; intros passnum edgenum Hge Hnd Hb Hs.
  - unfold slack in Hs. simpl in Hs. exists edgenum.
    rewrite trim_excess_done by lia. repeat split; [lia | assumption].
  - destruct (Z.leb_spec passnum 0) as [Hp|Hp].
    { exists edgenum. rewrite trim_excess_done by lia. repeat split; [lia | assumption]. }
    apply NoDup_cons in Hnd. destruct Hnd as [Hni Hnd].
    apply Forall_cons in Hb. destruct Hb as [Hi Hb].
    destruct (lookup_lt_is_Some_2 edgenum edgeid Hi) as [e He].
    assert (H1 : (1 <= e)%Z).
    { rewrite Forall_forall in Hge. apply Hge. eapply list_elem_of_lookup_2. exact He. }
    simpl. destruct (Z.leb_spec passnum 0) as [|_]; [lia|]. rewrite He.
    destruct (Z.ltb_spec passnum e) as [Hlt|Hlt].
    + exists (<[edgeid := (e - passnum)%Z]> edgenum).
      rewrite trim_excess_done by lia. split; [reflexivity|].
      rewrite (Zsum_insert _ _ _ _ He), length_insert. repeat split; [lia|].
      apply Forall_insert; [assumption | lia].
    + destruct (IH (passnum - (e - 1))%Z (<[edgeid := (e - (e - 1))%Z]> edgenum))
        as (edgenum' & Hrun & Hsum & Hge' & Hlen).
      * apply Forall_insert; [assumption | lia].
      * exact Hnd.
      * rewrite length_insert. exact Hb.
      * rewrite slack_insert by exact Hni.
        unfold slack in Hs |- *. simpl in Hs. rewrite He in Hs. simpl in Hs. lia.
      * exists edgenum'. split; [exact Hrun|].
        rewrite (Zsum_insert _ _ _ _ He) in Hsum. rewrite length_insert in Hlen.
        repeat split; [lia | assumption | assumption].
Qed.

Lemma slack_perm (ids ids' : list nat) (edgenum : list Z) :
  Permutation ids ids' -> slack ids edgenum = slack ids' edgenum.
Proof. intros H. unfold slack. apply Zsum_perm, Permutation_map, H. Qed.

Lemma Qsum_nil_not_pos (keys : list Q) : (0 < Qsum keys)%Q -> keys <> [].
Proof. intros H ->. exact (Qlt_irrefl _ H). Qed.

(** Rounding, the floor of 1, the correction and the assertion, for any
    non-negative edge lengths of positive sum, at most [N] of them. *)
Lemma edge_counts_ok (keys : list Q) (N : Z) :
  Forall (fun l => (0 <= l)%Q) keys ->
  (0 < Qsum keys)%Q ->
  (Z.of_nat (length keys) <= N)%Z ->
  exists edgenum,
    edge_counts keys (np_argsort keys) N = Ok edgenum /\
    Zsum edgenum = N /\
    Forall (fun e => (1 <= e)%Z) edgenum /\
    length edgenum = length keys.
Proof.
  intros Hnn Hpos HN. unfold edge_counts.
  replace (Qltb 0 (Qsum keys)) with true by (symmetry; apply Qltb_lt; exact Hpos).
  cbn [negb].
  set (e0 := map (fun l => np_round (l * inject_Z N / Qsum keys)) keys).
  set (e1 := map (fun e => if (e =? 0)%Z then 1%Z else e) e0).
  assert (Hlen : length e1 = length keys).
  { subst e1 e0. rewrite !length_map. reflexivity. }
  assert (Hge : Forall (fun e => (1 <= e)%Z) e1).
  { subst e1 e0. rewrite map_map. apply Forall_forall. intros e He.
    apply list_elem_of_In, in_map_iff in He. destruct He as (l & <- & Hl).
    rewrite Forall_forall in Hnn. apply list_elem_of_In, Hnn in Hl.
    pose proof (np_round_nonneg _ (share_nonneg l (Qsum keys) N Hl Hpos ltac:(lia))) as Hr.
    destruct (Z.eqb_spec (np_round (l * inject_Z N / Qsum keys)) 0); lia. }
  assert (Hfinish : forall edgenum : list Z,
             Zsum edgenum = N -> Forall (fun e => (1 <= e)%Z) edgenum ->
             length edgenum = length keys ->
             exists edgenum',
               (_ ← py_assert (Zsum edgenum =? N)%Z; Ok edgenum) = Ok edgenum' /\
               Zsum edgenum' = N /\ Forall (fun e => (1 <= e)%Z) edgenum' /\
               length edgenum' = length keys).
  { intros edgenum Hs Hf Hl. exists edgenum.
    rewrite (proj2 (Z.eqb_eq _ _) Hs). simpl. auto. }
  destruct (Z.eqb_spec (Zsum e1) N) as [Heq|Hne]; cbn [negb].
  - apply Hfinish; assumption.
  - destruct (Z.ltb_spec N (Zsum e1)) as [Hgt|Hle].
    + destruct (trim_excess_ok (rev (np_argsort keys)) (Zsum e1 - N) e1)
        as (edgenum & Hrun & Hsum & Hge' & Hlen'); try assumption.
      * rewrite <- Permutation_rev. apply np_argsort_NoDup.
      * rewrite <- Permutation_rev, Hlen. apply np_argsort_bound.
      * rewrite <- (slack_perm _ _ _ (Permutation_rev _)).
        rewrite (slack_perm _ _ _ (np_argsort_perm keys)), <- Hlen, slack_all. lia.
      * rewrite (bind_Ok _ _ _ Hrun). apply Hfinish; [lia | assumption | lia].
    + destruct (last (np_argsort keys)) as [edgeid|] eqn:Hlast.
      2:{ apply last_None in Hlast. exfalso. apply (Qsum_nil_not_pos keys Hpos).
          apply length_zero_iff_nil. rewrite <- np_argsort_length, Hlast. reflexivity. }
      assert (Hid : (edgeid < length e1)%nat).
      { apply last_Some_elem_of in Hlast. rewrite Hlen.
        pose proof (np_argsort_bound keys) as Hb. rewrite Forall_forall in Hb. auto. }
      destruct (lookup_lt_is_Some_2 e1 edgeid Hid) as [e He]. rewrite He.
      cbn [mbind result_bind].
      apply Hfinish.
      * rewrite (Zsum_insert _ _ _ _ He). lia.
      * apply Forall_insert; [assumption|].
        rewrite Forall_forall in Hge.
        pose proof (Hge e (list_elem_of_lookup_2 _ _ _ He)). lia.
      * rewrite length_insert. exact Hlen.
Qed.

(** C3. In the subdivision branch (P <= N, positive perimeter) the
    per-edge counts exist, that is the excess loop stays within the edge
    list and the assertion on the sum holds; they sum to exactly N and every
    edge has at least 1. *)
Theorem subdivision_counts (poly nxt : polygon) (N : Z) :
  np_index poly (idxnext (length poly)) = Ok nxt ->
  (Z.of_nat (length poly) <= N)%Z ->
  (0 < Qsum (edgelen np_sqrt nxt poly))%Q ->
  exists edgenum,
    edge_counts (edgelen np_sqrt nxt poly) (np_argsort (edgelen np_sqrt nxt poly)) N
      = Ok edgenum /\
    Zsum edgenum = N /\
    Forall (fun e => (1 <= e)%Z) edgenum /\
    length edgenum = length poly.
Proof.
  intros Hn HN Hpos.
  assert (Hl : length nxt = length poly).
  { rewrite (np_index_length _ _ _ Hn). apply idxnext_length. }
  pose proof (edgelen_length nxt poly Hl) as Hk.
  destruct (edge_counts_ok (edgelen np_sqrt nxt poly) N) as (edgenum & H1 & H2 & H3 & H4).
  - unfold edgelen. apply Forall_forall. intros l Hin.
    apply elem_of_lookup_zip_with in Hin. destruct Hin as (i & a & b & -> & _).
    apply np_sqrt_nonneg.
  - exact Hpos.
  - lia.
  - exists edgenum. rewrite <- Hk. auto.
Qed.

(** C6, as amended. In the contraction branch (P > N) the output consists
    of N vertices of the input, read at strictly increasing indices (a
    subsequence of the input in traversal order, no new point), and the
    outgoing edge of every kept vertex is at least as long as the outgoing
    edge of every dropped vertex.  Which of several equally long edges stay
    is left to the order [np.argsort] gives them. *)
Theorem uniformsample_contraction (poly : polygon) (N : Z) :
  (0 <= N < Z.of_nat (length poly))%Z ->
  exists (out : polygon) (idx : list nat),
    uniformsample np_sqrt np_argsort poly N = Ok out /\
    length out = Z.to_nat N /\
    length idx = Z.to_nat N /\
    StronglySorted lt idx /\
    Forall2 (fun i p => poly !! i = Some p) idx out /\
    (forall i j li lj,
        i ∈ idx -> j ∉ idx ->
        outgoing_len np_sqrt poly i = Some li ->
        outgoing_len np_sqrt poly j = Some lj ->
        (lj <= li)%Q).
Proof.
  intros HN.
  destruct (contraction_run poly N HN) as (nxt & out & Hn & Hrun & Hlo & Hli & Hs & Hf).
  eexists out, _. split; [exact Hrun|]. split; [exact Hlo|]. split; [exact Hli|].
  split; [exact Hs|]. split; [exact Hf|].
  intros i j li lj Hi Hj Hleni Hlenj.
  rewrite <- (edgelen_lookup _ _ i Hn) in Hleni.
  rewrite <- (edgelen_lookup _ _ j Hn) in Hlenj.
  rewrite np_sort_perm in Hi, Hj.
  exact (np_argsort_drop_le _ _ i j li lj Hi Hj Hleni Hlenj).
Qed.

Lemma edge_points_length (pb pe : point) (n : Z) :
  length (edge_points pb pe n) = Z.to_nat n.
Proof. unfold edge_points. rewrite length_map, length_seq. reflexivity. Qed.

Lemma psample_length (bes : list (point * point)) (edgenum : list Z) :
  Forall (fun e => (1 <= e)%Z) edgenum ->
  length edgenum = length bes ->
  Z.of_nat (length (concat (zip_with (fun be n => edge_points (fst be) (snd be) n) bes edgenum)))
  = Zsum edgenum.
Proof.
  intros Hge. revert bes. induction Hge as [|e edgenum He _ IH]; intros [|be bes] Hl;
    simpl in Hl; try discriminate; [reflexivity|].
  simpl. rewrite length_app, edge_points_length, Nat2Z.inj_add, IH by lia. lia.
Qed.

(** The subdivision branch, run to its end. *)
Lemma subdivision_run (poly nxt : polygon) (N : Z) :
  np_index poly (idxnext (length poly)) = Ok nxt ->
  (Z.of_nat (length poly) <= N)%Z ->
  (0 < Qsum (edgelen np_sqrt nxt poly))%Q ->
  exists out, uniformsample np_sqrt np_argsort poly N = Ok out /\ Z.of_nat (length out) = N.
Proof.
  intros Hn HN Hpos.
  assert (Hl : length nxt = length poly).
  { rewrite (np_index_length _ _ _ Hn). apply idxnext_length. }
  pose proof (edgelen_length nxt poly Hl) as Hk.
  destruct (edge_counts_ok (edgelen np_sqrt nxt poly) N) as (edgenum & H1 & H2 & H3 & H4).
  - unfold edgelen. apply Forall_forall. intros l Hin.
    apply elem_of_lookup_zip_with in Hin. destruct Hin as (i & a & b & -> & _).
    apply np_sqrt_nonneg.
  - exact Hpos.
  - lia.
  - unfold uniformsample. rewrite (bind_Ok _ _ _ Hn).
    destruct (Z.ltb_spec N (Z.of_nat (length poly))) as [|_]; [lia|].
    rewrite (bind_Ok _ _ _ H1). eexists. split; [reflexivity|].
    rewrite psample_length; [exact H2 | exact H3 |].
    rewrite length_zip. lia.
Qed.

(** The resampler returns exactly [N] points whenever the perimeter is
    positive and [N] is. *)
Lemma uniformsample_run (poly nxt : polygon) (N : Z) :
  np_index poly (idxnext (length poly)) = Ok nxt ->
  (0 < N)%Z ->
  (0 < Qsum (edgelen np_sqrt nxt poly))%Q ->
  exists out, uniformsample np_sqrt np_argsort poly N = Ok out /\ Z.of_nat (length out) = N.
Proof.
  intros Hn HN Hpos.
  destruct (Z.lt_ge_cases N (Z.of_nat (length poly))) as [Hlt|Hge].
  - destruct (contraction_run poly N) as (nxt' & out & _ & Hrun & Hlen & _); [lia|].
    exists out. split; [exact Hrun | lia].
  - exact (subdivision_run poly nxt N Hn Hge Hpos).
Qed.

(** C2. A polygon with at least 3 vertices and a positive perimeter is
    resampled to exactly N points, for every N > 0: by contraction when
    P > N, by subdivision when P <= N. *)
Theorem uniformsample_cardinality (poly nxt : polygon) (N : Z) :
  np_index poly (idxnext (length poly)) = Ok nxt ->
  (3 <= length poly)%nat ->
  (0 < N)%Z ->
  (0 < Qsum (edgelen np_sqrt nxt poly))%Q ->
  exists out, uniformsample np_sqrt np_argsort poly N = Ok out /\ Z.of_nat (length out) = N.
Proof.
  intros Hn _ HN Hpos. exact (uniformsample_run poly nxt N Hn HN Hpos).
Qed.

End Resampling.

(** ** Winding *)

Lemma cross_antisym (a b : point) : (cross b a == - cross a b)%Q.
Proof. unfold cross. ring. Qed.

Lemma path_area2_snoc (l : polygon) (a b : point) :
  (path_area2 (l ++ [a; b]) == path_area2 (l ++ [a]) + cross a b)%Q.
Proof.
  induction l as [|x [|y l] IH].
  - simpl. ring.
  - simpl. ring.
  - change (path_area2 ((x :: y :: l) ++ [a; b]))
      with (cross x y + path_area2 ((y :: l) ++ [a; b]))%Q.
    change (path_area2 ((x :: y :: l) ++ [a]))
      with (cross x y + path_area2 ((y :: l) ++ [a]))%Q.
    rewrite IH. ring.
Qed.

Lemma path_area2_rev (l : polygon) : (path_area2 (rev l) == - path_area2 l)%Q.
Proof.
  induction l as [|a [|b l] IH].
  - simpl. ring.
  - simpl. ring.
  - change (rev (a :: b :: l)) with ((rev l ++ [b]) ++ [a]).
    rewrite <- app_assoc. change ([b] ++ [a]) with [b; a].
    rewrite path_area2_snoc.
    change (rev l ++ [b]) with (rev (b :: l)). rewrite IH.
    change (path_area2 (a :: b :: l)) with (cross a b + path_area2 (b :: l))%Q.
    rewrite (cross_antisym a b). ring.
Qed.

Lemma signed_area2_closed_rev (a : point) (t : polygon) :
  (signed_area2 (rev (a :: t)) == path_area2 (rev ((a :: t) ++ [a])))%Q.
Proof.
  rewrite rev_app_distr. change (rev [a] ++ rev (a :: t)) with (a :: rev (a :: t)).
  change (rev (a :: t)) with (rev t ++ [a]).
  destruct (rev t) as [|z r] eqn:E.
  - simpl. ring.
  - change (signed_area2 ((z :: r) ++ [a])) with (path_area2 (((z :: r) ++ [a]) ++ [z])).
    rewrite <- app_assoc. change ([a] ++ [z]) with [a; z]. rewrite path_area2_snoc.
    change (path_area2 (a :: (z :: r) ++ [a]))
      with (cross a z + path_area2 ((z :: r) ++ [a]))%Q.
    ring.
Qed.

(** Reversing a ring negates its signed area. *)
Lemma signed_area2_rev (poly : polygon) :
  (signed_area2 (rev poly) == - signed_area2 poly)%Q.
Proof.
  destruct poly as [|a t]; [simpl; ring|].
  rewrite signed_area2_closed_rev, path_area2_rev. reflexivity.
Qed.


(** ** Correspondence matching *)

(** [a[rows] = vals] with every index in range and one value per index:
    the rows not named keep their value, and with distinct indices each
    named row holds its value. *)
Lemma np_assign_ok {A : Type} (rows : list nat) :
  forall (a vals : list A),
    Forall (fun r => (r < length a)%nat) rows ->
    length vals = length rows ->
    exists a',
      np_assign a rows vals = Ok a' /\
      length a' = length a /\
      (forall i, i ∉ rows -> a' !! i = a !! i) /\
      (NoDup rows -> forall k r v, rows !! k = Some r -> vals !! k = Some v -> a' !! r = Some v).
Proof.
  induction rows as [|r rows IH]; intros a vals Hb Hl.
  - destruct vals; [|discriminate]. exists a. simpl. repeat split; auto.
    intros _ k r v Hk. rewrite lookup_nil in Hk. discriminate.
  - destruct vals as [|v vals]; [discriminate|]. simpl in Hl.
    apply Forall_cons in Hb. destruct Hb as [Hr Hb].
    destruct (IH (<[r := v]> a) vals) as (a' & Hrun & Hlen & Hkeep & Hset).
    + rewrite length_insert. exact Hb.
    + lia.
    + exists a'. simpl. destruct (Nat.ltb_spec r (length a)) as [_|]; [|lia].
      rewrite length_insert in Hlen. split; [exact Hrun|]. split; [exact Hlen|]. split.
      * intros i Hi. apply not_elem_of_cons in Hi. destruct Hi as [Hir Hi].
        rewrite (Hkeep i Hi). apply list_lookup_insert_ne. congruence.
      * intros Hnd k r' v' Hk Hv. apply NoDup_cons in Hnd. destruct Hnd as [Hnr Hnd].
        destruct k as [|k]; simpl in Hk, Hv.
        -- injection Hk as <-. injection Hv as <-.
           rewrite (Hkeep r Hnr). apply list_lookup_insert_eq. exact Hr.
        -- exact (Hset Hnd k r' v' Hk Hv).
Qed.

Lemma np_assign_const_as_assign {A : Type} (rows : list nat) (v : A) :
  forall a : list A, np_assign_const a rows v = np_assign a rows (replicate (length rows) v).
Proof.
  induction rows as [|r rows IH]; intros a; simpl; [reflexivity|].
  destruct (r <? length a)%nat; [apply IH | reflexivity].
Qed.

Lemma cdist_shape (np_sqrt : Q -> Q) (XA XB : polygon) :
  length (cdist np_sqrt XA XB) = length XA /\
  Forall (fun row => length row = length XB) (cdist np_sqrt XA XB).
Proof.
  unfold cdist. split; [apply length_map|].
  apply Forall_forall. intros row Hrow.
  apply list_elem_of_In, in_map_iff in Hrow. destruct Hrow as (a & <- & _).
  apply length_map.
Qed.

Lemma astype_int_integer (x : Q) (z : Z) : (x == inject_Z z)%Q -> astype_int x = z.
Proof.
  unfold astype_int, Qeq. cbn [Qnum Qden inject_Z]. intros H.
  rewrite Z.mul_1_r in H. rewrite H. apply Z.quot_mul. discriminate.
Qed.

Section Matching.

Variable np_sqrt : Q -> Q.
Variable linear_sum_assignment : list (list Q) -> list nat * list nat.

(** What is used of scipy's contract: for a cost matrix with at least as
    many rows as columns every column is assigned, to distinct rows listed
    in increasing order. *)
Hypothesis linear_sum_assignment_shape :
  forall (dis : list (list Q)) (m : nat),
    Forall (fun row => length row = m) dis ->
    (m <= length dis)%nat ->
    length (fst (linear_sum_assignment dis)) = m /\
    length (snd (linear_sum_assignment dis)) = m /\
    StronglySorted lt (fst (linear_sum_assignment dis)) /\
    Forall (fun r => (r < length dis)%nat) (fst (linear_sum_assignment dis)) /\
    Forall (fun c => (c < m)%nat) (snd (linear_sum_assignment dis)).

Lemma sorted_lt_NoDup (l : list nat) : StronglySorted lt l -> NoDup l.
Proof.
  induction 1 as [|x l _ IH Hx]; constructor; [|exact IH].
  intros Hin. rewrite Forall_forall in Hx. specialize (Hx x Hin). lia.
Qed.

(** C5, as amended. Matching an N-point polygon (N = [num_points]) against
    its M real key points, M <= N: there are exactly M matched rows, all
    different; each matched row of the polygon holds the coordinates of its
    matched key point, and its weight is [key_points_weight] truncated
    toward zero to an integer, which is [key_points_weight] itself when
    that is an integer; every other row keeps its point and has the
    weight 1. *)
Theorem match_keypoints_weights (self : loader) (_poly _poly2 : list point)
    (_poly_weight2 : list Z) :
  let kp := real_keypoints _poly2 _poly_weight2 in
  let rows := fst (linear_sum_assignment (cdist np_sqrt _poly kp)) in
  let cols := snd (linear_sum_assignment (cdist np_sqrt _poly kp)) in
  Z.of_nat (length _poly) = num_points self ->
  (length kp <= length _poly)%nat ->
  (- 2 ^ 63 <= astype_int (key_points_weight self) < 2 ^ 63)%Z ->
  exists (poly' : list point) (label : list Z),
    match_keypoints np_sqrt linear_sum_assignment self _poly _poly2 _poly_weight2
      = Ok (poly', label) /\
    length rows = length kp /\
    NoDup rows /\
    length poly' = length _poly /\
    length label = length _poly /\
    (forall k r c, rows !! k = Some r -> cols !! k = Some c ->
                   is_Some (kp !! c) /\ poly' !! r = kp !! c) /\
    (forall r, r ∈ rows -> label !! r = Some (astype_int (key_points_weight self))) /\
    (forall z : Z, (key_points_weight self == inject_Z z)%Q ->
                   astype_int (key_points_weight self) = z) /\
    (forall i, (i < length _poly)%nat -> i ∉ rows ->
               label !! i = Some 1%Z /\ poly' !! i = _poly !! i).
Proof.
  intros kp rows cols HN HM _.
  destruct (cdist_shape np_sqrt _poly kp) as [Hrows Hcolsn].
  destruct (linear_sum_assignment_shape (cdist np_sqrt _poly kp) (length kp) Hcolsn)
    as (Hlr & Hlc & Hsorted & Hrb & Hcb); [lia|].
  fold rows in Hlr, Hsorted, Hrb. fold cols in Hlc, Hcb. rewrite Hrows in Hrb.
  pose proof (sorted_lt_NoDup rows Hsorted) as Hnd.
  destruct (np_index_total kp cols Hcb) as [vals Hvals].
  pose proof (np_index_length _ _ _ Hvals) as Hvl.
  destruct (np_assign_ok rows _poly vals Hrb) as (poly' & Hp & Hpl & Hpkeep & Hpset); [lia|].
  set (ones := replicate (Z.to_nat (num_points self)) 1%Z).
  assert (Hol : length ones = length _poly).
  { subst ones. rewrite length_replicate. lia. }
  destruct (np_assign_ok rows ones
              (replicate (length rows) (astype_int (key_points_weight self))))
    as (label & Hl & Hll & Hlkeep & Hlset).
  { rewrite Hol. exact Hrb. }
  { apply length_replicate. }
  exists poly', label. split; [|split; [|split; [|split; [|split; [|split; [|split; [|split]]]]]]].
  - unfold match_keypoints. fold (real_keypoints _poly2 _poly_weight2). fold kp. fold rows cols.
    rewrite (bind_Ok _ _ _ Hvals), (bind_Ok _ _ _ Hp).
    unfold np_ones. destruct (Z.ltb_spec (num_points self) 0) as [|_]; [lia|].
    cbn [mbind result_bind]. fold ones.
    rewrite np_assign_const_as_assign, Hl. reflexivity.
  - exact Hlr.
  - exact Hnd.
  - exact Hpl.
  - lia.
  - intros k r c Hk Hc.
    pose proof (np_index_lookup _ _ _ _ _ Hvals Hc) as Hv.
    assert (Hsome : is_Some (kp !! c)).
    { apply lookup_lt_is_Some_2. rewrite Forall_forall in Hcb.
      apply Hcb. eapply list_elem_of_lookup_2. exact Hc. }
    split; [exact Hsome|]. destruct Hsome as [v Hkv]. rewrite Hkv in Hv |- *.
    exact (Hpset Hnd k r v Hk Hv).
  - intros r Hr. apply list_elem_of_lookup in Hr. destruct Hr as [k Hk].
    apply (Hlset Hnd k r _ Hk). apply lookup_replicate. split; [reflexivity|].
    eapply lookup_lt_Some. exact Hk.
  - intros z Hz. apply astype_int_integer. exact Hz.
  - intros i Hi Hni. split.
    + rewrite (Hlkeep i Hni). subst ones. apply lookup_replicate. split; [reflexivity|]. lia.
    + exact (Hpkeep i Hni).
Qed.

End Matching.

(** ** Strides, rotations and the canonical start *)

Lemma stride_from_drop {A : Type} (step skip : nat) (a : list A) :
  stride_from step skip a = stride_from step 0 (drop skip a).
Proof.
  revert skip. induction a as [|x a IH]; intros [|k]; try reflexivity.
  simpl. apply IH.
Qed.

(** [a[::step]] has ceil(len(a) / step) entries. *)
Lemma np_stride_length {A : Type} (step : nat) (a : list A) :
  (0 < step)%nat -> length (np_stride step a) = ((length a + step - 1) / step)%nat.
Proof.
  intros Hs. unfold np_stride.
  remember (length a) as n eqn:Hn. revert a Hn.
  induction n as [n IH] using lt_wf_ind. intros [|x a] Hn; simpl in Hn; subst n.
  - simpl. symmetry. apply Nat.div_small. lia.
  - simpl. rewrite stride_from_drop.
    rewrite (IH (length (drop (step - 1) a))) by (rewrite ?length_drop; lia || reflexivity).
    rewrite length_drop.
    destruct (Nat.le_gt_cases (step - 1) (length a)) as [Hle|Hgt].
    + replace (length a - (step - 1) + step - 1)%nat with (length a) by lia.
      replace (length a + step - 0)%nat with (length a + 1 * step)%nat by lia.
      rewrite Nat.div_add by lia. lia.
    + replace (length a - (step - 1) + step - 1)%nat with (step - 1)%nat by lia.
      rewrite (Nat.div_small (step - 1) step) by lia.
      replace (length a + step - 0)%nat with (length a + 1 * step)%nat by lia.
      rewrite Nat.div_add by lia. rewrite (Nat.div_small (length a) step) by lia. reflexivity.
Qed.

Lemma np_roll_left_length {A : Type} (k : nat) (a : list A) :
  length (np_roll_left k a) = length a.
Proof.
  unfold np_roll_left. destruct a as [|x a]; [reflexivity|].
  rewrite length_app, length_drop, length_take. lia.
Qed.

Lemma np_argmin_total (l : list Q) : l <> [] -> exists i, np_argmin l = Ok i.
Proof. destruct l; [congruence|]. simpl. eauto. Qed.

Lemma np_min_total (l : list Q) : l <> [] -> exists m, np_min l = Ok m.
Proof. destruct l; [congruence|]. simpl. eauto. Qed.

Lemma np_max_total (l : list Q) : l <> [] -> exists m, np_max l = Ok m.
Proof. destruct l; [congruence|]. simpl. eauto. Qed.

Lemma map_not_nil {A B : Type} (f : A -> B) (l : list A) : l <> [] -> map f l <> [].
Proof. destruct l; [congruence | discriminate]. Qed.

Lemma get_cw_poly_total (poly : polygon) :
  (3 <= length poly)%nat ->
  exists cw, get_cw_poly poly = Ok cw /\ length cw = length poly.
Proof.
  intros H. unfold get_cw_poly, is_ccw.
  destruct (Nat.ltb_spec (length poly) 3) as [|_]; [lia|]. cbn [mbind result_bind].
  destruct (Qltb 0 (signed_area2 poly)); eexists; split; try reflexivity.
  apply length_rev.
Qed.

Lemma unify_origin_polygon_total (poly : polygon) :
  poly <> [] ->
  exists out, unify_origin_polygon poly = Ok out /\ length out = length poly.
Proof.
  intros H. unfold unify_origin_polygon.
  destruct (np_min_total (map px poly) (map_not_nil _ _ H)) as [xmin ->].
  destruct (np_max_total (map px poly) (map_not_nil _ _ H)) as [xmax ->].
  destruct (np_min_total (map py poly) (map_not_nil _ _ H)) as [ymin ->].
  destruct (np_max_total (map py poly) (map_not_nil _ _ H)) as [ymax ->].
  cbn [mbind result_bind].
  match goal with |- context [np_argmin ?d] =>
    destruct (np_argmin_total d) as [i ->]; [apply map_not_nil; exact H|] end.
  cbn [mbind result_bind]. eexists. split; [reflexivity|].
  rewrite length_app, length_drop, length_take. lia.
Qed.

Lemma filter_tiny_polys_total (polys : list polygon) :
  Forall (fun poly => poly <> []) polys -> exists out, filter_tiny_polys polys = Ok out.
Proof.
  intros H. unfold filter_tiny_polys.
  match goal with |- context [list_comp ?f polys] =>
    destruct (list_comp_total f polys) as [ys ->] end.
  - eapply Forall_impl; [exact H|]. simpl. intros poly Hp.
    destruct (np_min_total (map px poly) (map_not_nil _ _ Hp)) as [xmin ->].
    destruct (np_min_total (map py poly) (map_not_nil _ _ Hp)) as [ymin ->].
    destruct (np_max_total (map px poly) (map_not_nil _ _ Hp)) as [xmax ->].
    destruct (np_max_total (map py poly) (map_not_nil _ _ Hp)) as [ymax ->].
    cbn [mbind result_bind]. eauto.
  - cbn [mbind result_bind]. eauto.
Qed.

(** ** [unify_polygons] *)

Section Unify.

Variable np_sqrt : Q -> Q.
Hypothesis np_sqrt_nonneg : forall x : Q, (0 <= np_sqrt x)%Q.

Variable np_argsort : list Q -> list nat.
Hypothesis np_argsort_perm :
  forall keys : list Q, Permutation (np_argsort keys) (seq 0 (length keys)).

Lemma positive_perimeter_not_nil (poly : polygon) : positive_perimeter np_sqrt poly -> poly <> [].
Proof.
  intros (nxt & Hn & Hpos) ->. simpl in Hn. injection Hn as <-.
  exact (Qlt_irrefl _ Hpos).
Qed.

(** The body of the loop: the resampled polygon has
    ceil(spline_poly_num / spline_num) points, its weights are
    [num_points] ones. *)
Lemma unify_polygon_lengths (self : loader) (poly : polygon) :
  positive_perimeter np_sqrt poly ->
  (0 < spline_num self)%Z ->
  (0 <= num_points self)%Z ->
  (2 * spline_num self < spline_poly_num self)%Z ->
  exists out ws,
    unify_polygon np_sqrt np_argsort self poly = Ok (out, ws) /\
    length out = ((Z.to_nat (spline_poly_num self) + Z.to_nat (spline_num self) - 1)
                  / Z.to_nat (spline_num self))%nat /\
    length ws = Z.to_nat (num_points self).
Proof.
  intros (nxt & Hn & Hpos) Hs Hnum Hres.
  destruct (uniformsample_run np_sqrt np_sqrt_nonneg np_argsort np_argsort_perm poly nxt (spline_poly_num self) Hn)
    as (sampled & Hrun & Hlen); [lia | exact Hpos |].
  unfold unify_polygon. rewrite (bind_Ok _ _ _ Hrun).
  destruct sampled as [|p0 sampled'] eqn:Es; [simpl in Hlen; lia|]. rewrite <- Es in *.
  replace (sampled !! 0%nat) with (Some p0) by (rewrite Es; reflexivity).
  cbn [mbind result_bind].
  match goal with |- context [np_argmin ?d] =>
    destruct (np_argmin_total d) as [tt_idx ->];
      [apply map_not_nil; rewrite Es; discriminate|] end.
  cbn [mbind result_bind]. unfold np_slice_step.
  destruct (Z.eqb_spec (spline_num self) 0) as [|_]; [lia|].
  destruct (Z.ltb_spec 0 (spline_num self)) as [_|]; [|lia].
  cbn [mbind result_bind].
  set (valid := np_stride (Z.to_nat (spline_num self)) (np_roll_left tt_idx sampled)).
  assert (Hvl : length valid
                = ((Z.to_nat (spline_poly_num self) + Z.to_nat (spline_num self) - 1)
                   / Z.to_nat (spline_num self))%nat).
  { subst valid. rewrite np_stride_length by lia. rewrite np_roll_left_length.
    replace (length sampled) with (Z.to_nat (spline_poly_num self)) by lia. reflexivity. }
  assert (Hv3 : (3 <= length valid)%nat).
  { rewrite Hvl. apply Nat.div_le_lower_bound; lia. }
  destruct (get_cw_poly_total valid Hv3) as (cw & -> & Hcw).
  cbn [mbind result_bind].
  destruct (unify_origin_polygon_total cw) as (out & -> & Hout).
  { intros ->. simpl in Hcw. lia. }
  cbn [mbind result_bind]. unfold np_ones.
  destruct (Z.ltb_spec (num_points self) 0) as [|_]; [lia|].
  cbn [mbind result_bind]. exists out, (replicate (Z.to_nat (num_points self)) 1%Z).
  split; [reflexivity|]. split; [lia | apply length_replicate].
Qed.

(** Whenever [unify_polygons] returns, it returns one polygon and one
    weight array per raw polygon. *)
Lemma unify_polygons_returns (self : loader) (polygons : mask_ann) (gt_bbox : bbox)
    (polys : list polygon) (ws : list (list Z)) :
  unify_polygons np_sqrt np_argsort self polygons gt_bbox = Ok (polys, ws) ->
  length polys = length polygons /\ length ws = length polygons.
Proof.
  unfold unify_polygons, unify_polygons_filtered. intros H.
  apply bind_Ok_inv in H as (pf & Hpf & H).
  apply bind_Ok_inv in Hpf as (pts & Hpts & Hpf).
  apply bind_Ok_inv in Hpf as (filtered & _ & Hpf). injection Hpf as <-.
  apply bind_Ok_inv in H as (valid & Hvalid & H). injection H as <- <-.
  simpl in Hvalid. apply list_comp_length in Hvalid, Hpts.
  rewrite !length_map. split; (etransitivity; [exact Hvalid | exact Hpts]).
Qed.

(** C10. [unify_polygons] returns one polygon and one weight array per
    raw polygon, whatever the filter of tiny polygons keeps: the loop runs
    over the raw list.  It does return when every raw polygon reshapes to a
    polygon of positive perimeter and the subsampled polygon has at least
    three points. *)
Theorem unify_polygons_count (self : loader) (polygons : mask_ann) (gt_bbox : bbox) :
  Forall (resamplable np_sqrt) polygons ->
  (0 < spline_num self)%Z ->
  (0 <= num_points self)%Z ->
  (2 * spline_num self < spline_poly_num self)%Z ->
  exists polys ws,
    unify_polygons np_sqrt np_argsort self polygons gt_bbox = Ok (polys, ws) /\
    length polys = length polygons /\
    length ws = length polygons.
Proof.
  intros Hall Hs Hnum Hres.
  assert (Hex : exists polys ws, unify_polygons np_sqrt np_argsort self polygons gt_bbox = Ok (polys, ws)).
  { unfold unify_polygons, unify_polygons_filtered.
    destruct (list_comp_total reshape2 polygons) as [pts Hpts].
    { eapply Forall_impl; [exact Hall|]. simpl. intros p (poly & Hp & _). eauto. }
    rewrite (bind_Ok _ _ _ Hpts).
    assert (Hpp : Forall (positive_perimeter np_sqrt) pts).
    { apply list_comp_Forall2 in Hpts. clear -Hall Hpts.
      induction Hpts as [|p poly raw pts Hp _ IH]; [constructor|].
      apply Forall_cons in Hall. destruct Hall as [(poly' & Hp' & Hperi) Hall].
      constructor; [|apply IH; exact Hall].
      rewrite Hp in Hp'. injection Hp' as <-. exact Hperi. }
    destruct (filter_tiny_polys_total pts) as [filtered ->].
    { eapply Forall_impl; [exact Hpp|]. intros poly; apply positive_perimeter_not_nil. }
    cbn [mbind result_bind fst].
    destruct (list_comp_total (unify_polygon np_sqrt np_argsort self) pts) as [valid ->].
    { eapply Forall_impl; [exact Hpp|]. simpl. intros poly Hperi.
      destruct (unify_polygon_lengths self poly Hperi Hs Hnum Hres) as (out & ws & H & _).
      eauto. }
    cbn [mbind result_bind]. eauto. }
  destruct Hex as (polys & ws & Hrun). exists polys, ws.
  split; [exact Hrun|]. exact (unify_polygons_returns _ _ _ _ _ Hrun).
Qed.

(** With the default [spline_num = 10] and [spline_poly_num] as [__init__]
    sets it, the points are as many as the weights. *)
Lemma unify_polygon_lengths_default (kpw : Q) (n : Z) (poly : polygon) :
  positive_perimeter np_sqrt poly ->
  (3 <= n)%Z ->
  exists out ws,
    unify_polygon np_sqrt np_argsort (init true kpw n 10 true) poly = Ok (out, ws) /\
    length out = Z.to_nat n /\
    length ws = Z.to_nat n.
Proof.
  intros Hperi Hn.
  destruct (unify_polygon_lengths (init true kpw n 10 true) poly Hperi)
    as (out & ws & Hrun & Hlo & Hlw); cbn [spline_num num_points spline_poly_num init]; try lia.
  exists out, ws. split; [exact Hrun|]. split; [|exact Hlw].
  rewrite Hlo. cbn [spline_num num_points spline_poly_num init].
  replace (Z.to_nat (n * 10) + Z.to_nat 10 - 1)%nat
    with (9 + Z.to_nat n * 10)%nat by lia.
  rewrite Nat.div_add by lia. reflexivity.
Qed.

(** X14. The bounding box has no part in the result of [unify_polygons]:
    the rectangle built from it when the filter leaves nothing is never
    read, so two calls that differ only in the box agree, in what they
    return and in what they raise. *)
Lemma unify_polygons_ignores_bbox (self : loader) (polygons : mask_ann) (b1 b2 : bbox) :
  unify_polygons np_sqrt np_argsort self polygons b1
  = unify_polygons np_sqrt np_argsort self polygons b2.
Proof.
  unfold unify_polygons, unify_polygons_filtered.
  destruct (list_comp reshape2 polygons) as [pts|e]; [|reflexivity].
  cbn [mbind result_bind].
  destruct (filter_tiny_polys pts) as [filtered|e]; [|reflexivity].
  cbn [mbind result_bind fst]. reflexivity.
Qed.

(** *** Malformed polygons *)

Lemma reshape2_parity (p : list Q) :
  (Nat.even (length p) = true -> exists pts, reshape2 p = Ok pts) /\
  (Nat.even (length p) = false -> reshape2 p = Raise ValueError).
Proof.
  assert (H : forall p : list Q,
             ((Nat.even (length p) = true -> exists pts, reshape2 p = Ok pts) /\
              (Nat.even (length p) = false -> reshape2 p = Raise ValueError)) /\
             forall x : Q,
               (Nat.even (length (x :: p)) = true -> exists pts, reshape2 (x :: p) = Ok pts) /\
               (Nat.even (length (x :: p)) = false -> reshape2 (x :: p) = Raise ValueError)).
  { clear p. induction p as [|y p [IH0 IH1]].
    - split; [split; [eauto | discriminate]|].
      intros x. split; [discriminate | reflexivity].
    - split; [apply IH1|]. intros x. destruct IH0 as [He Ho].
      change (Nat.even (length (x :: y :: p))) with (Nat.even (length p)).
      split.
      + intros E. destruct (He E) as [pts Hpts]. cbn [reshape2].
        rewrite (bind_Ok _ _ _ Hpts). eauto.
      + intros E. cbn [reshape2]. rewrite (Ho E). reflexivity. }
  apply H.
Qed.

(** One polygon with an odd number of coordinates makes [unify_polygons]
    raise [ValueError]. *)
Lemma unify_polygons_odd (self : loader) (polygons : mask_ann) (gt_bbox : bbox) :
  Exists (fun p => Nat.even (length p) = false) polygons ->
  unify_polygons np_sqrt np_argsort self polygons gt_bbox = Raise ValueError.
Proof.
  intros Hex. unfold unify_polygons, unify_polygons_filtered.
  assert (H : list_comp reshape2 polygons = Raise ValueError).
  { induction Hex as [p l Hp | p l _ IH]; cbn [list_comp].
    - rewrite (proj2 (reshape2_parity p) Hp). reflexivity.
    - destruct (Nat.even (length p)) eqn:E.
      + destruct (proj1 (reshape2_parity p) E) as [pts ->].
        cbn [mbind result_bind]. rewrite IH. reflexivity.
      + rewrite (proj2 (reshape2_parity p) E). reflexivity. }
  rewrite H. reflexivity.
Qed.

End Unify.

(** ** The raster *)

Section Raster.

Variable _poly2mask : mask_ann -> nat -> nat -> ndarray.

(** C9. When the sum of the decoded masks does not have the shape
    (h, w), the raster is the array of h x w zeros, and nothing is
    raised. *)
Theorem load_poly_masks_mismatch (gt_masks : list mask_ann) (h w : nat) (s : ndarray) :
  np_array_sum0 (map (fun mask => _poly2mask mask h w) gt_masks) = Ok s ->
  nd_shape s <> [h; w] ->
  load_poly_masks _poly2mask gt_masks h w = Ok (np_zeros [h; w]) /\
  nd_shape (np_zeros [h; w]) = [h; w] /\
  length (nd_data (np_zeros [h; w])) = (h * w)%nat /\
  Forall (fun v => v = 0%Q) (nd_data (np_zeros [h; w])).
Proof.
  intros Hsum Hshape. split; [|split; [|split]].
  - unfold load_poly_masks. rewrite (bind_Ok _ _ _ Hsum).
    unfold shape_eqb. rewrite bool_decide_eq_false_2 by exact Hshape. reflexivity.
  - reflexivity.
  - unfold np_zeros. cbn [nd_data foldr]. rewrite length_replicate. lia.
  - unfold np_zeros. cbn [nd_data]. apply Forall_forall. intros v Hv.
    apply elem_of_replicate in Hv. tauto.
Qed.

End Raster.

(** ** The loader on examples *)

Lemma sqrt_fix_nonneg (x : Q) : (0 <= sqrt_fix x)%Q.
Proof.
  unfold sqrt_fix, Qle. cbn [Qnum Qden]. rewrite Z.mul_1_r, Z.mul_0_l.
  apply Z.sqrt_nonneg.
Qed.

Lemma seq_sorted (s m : nat) : StronglySorted lt (seq s m).
Proof.
  revert s. induction m as [|m IH]; intros s; simpl; constructor; [apply IH|].
  apply Forall_forall. intros i Hi. apply list_elem_of_In, in_seq in Hi. lia.
Qed.

Lemma assign_in_order_shape (dis : list (list Q)) (m : nat) :
  Forall (fun row => length row = m) dis ->
  (m <= length dis)%nat ->
  length (fst (assign_in_order dis)) = m /\
  length (snd (assign_in_order dis)) = m /\
  StronglySorted lt (fst (assign_in_order dis)) /\
  Forall (fun r => (r < length dis)%nat) (fst (assign_in_order dis)) /\
  Forall (fun c => (c < m)%nat) (snd (assign_in_order dis)).
Proof.
  intros Hrows Hm. unfold assign_in_order. cbn [fst snd].
  assert (Hhd : length (hd [] dis) = m).
  { destruct dis as [|row dis]; [simpl in *; lia|].
    apply Forall_cons in Hrows. tauto. }
  rewrite Hhd, length_seq. repeat split; try apply seq_sorted.
  - apply Forall_forall. intros i Hi. apply list_elem_of_In, in_seq in Hi. lia.
  - apply Forall_forall. intros i Hi. apply list_elem_of_In, in_seq in Hi. lia.
Qed.

(** C1, on the code. An instance whose only polygon is the triangle
    (0,0), (4,0), (0,2) of area 4, with the bounding box (0, 0, 4, 2): the
    filter leaves nothing and the rectangle of the bounding box is built,
    but the loop resamples the raw triangle, and its result is not the
    resampled rectangle. *)
Theorem tiny_polygon_is_resampled :
  let self := init true 1 4 10 true in
  let raw := [[0; 0; 4; 0; 0; 2]]%Q in
  let tri := [(0, 0); (4, 0); (0, 2)]%Q in
  let rect := [(0, 0); (0, 2); (4, 2); (4, 0)]%Q in
  unify_polygons_filtered raw (0, 0, 4, 2)%Q = Ok ([tri], [rect]) /\
  (forall (np_sqrt : Q -> Q) (np_argsort : list Q -> list nat),
      unify_polygons np_sqrt np_argsort self raw (0, 0, 4, 2)%Q
      = (v ← unify_polygon np_sqrt np_argsort self tri; Ok ([fst v], [snd v]))) /\
  exists out_tri out_rect ws ws',
    unify_polygons sqrt_fix argsort_numpy self raw (0, 0, 4, 2)%Q = Ok ([out_tri], [ws]) /\
    unify_polygon sqrt_fix argsort_numpy self rect = Ok (out_rect, ws') /\
    polygon_eqb out_tri out_rect = false.
Proof.
  cbv zeta. split; [reflexivity|]. split.
  - intros np_sqrt np_argsort. unfold unify_polygons.
    change (unify_polygons_filtered [[0; 0; 4; 0; 0; 2]]%Q (0, 0, 4, 2)%Q)
      with (Ok ([[(0, 0); (4, 0); (0, 2)]]%Q, [[(0, 0); (0, 2); (4, 2); (4, 0)]]%Q)).
    cbn [mbind result_bind fst list_comp].
    destruct (unify_polygon _ _ _); reflexivity.
  - eexists _, _, _, _. split; [vm_compute; reflexivity|].
    split; [vm_compute; reflexivity|]. vm_compute. reflexivity.
Qed.

(** C4, on the code. With [num_points = 4] and [spline_num = 5] the
    working resolution is 40, not 5 x 4 = 20, and the square
    (0,0), (0,10), (10,10), (10,0) comes out with 8 points and 4 weights. *)
Theorem spline_num_5_lengths :
  let self := init true 1 4 5 true in
  spline_poly_num self = 40%Z /\
  (spline_num self * num_points self)%Z = 20%Z /\
  exists polys ws,
    unify_polygons sqrt_fix argsort_numpy self [[0; 0; 0; 10; 10; 10; 10; 0]]%Q (0, 0, 10, 10)%Q
      = Ok (polys, ws) /\
    map length polys = [8%nat] /\
    map length ws = [4%nat].
Proof.
  cbv zeta. split; [reflexivity|]. split; [reflexivity|].
  eexists _, _. split; [vm_compute; reflexivity|]. split; reflexivity.
Qed.

(** C8, on the code. The polygon [0, 0, 10, 0, 10, 10, 0, 10, 5] has an
    odd number of coordinates: [process_polygons_m] leaves it out, and with
    the default [spline_num = 10] loading the instance raises
    [ValueError], whatever the library functions are. *)
Theorem malformed_polygon_raises (np_sqrt : Q -> Q) (np_argsort : list Q -> list nat)
    (simplify : polygon -> polygon)
    (linear_sum_assignment : list (list Q) -> list nat * list nat)
    (_poly2mask : mask_ann -> nat -> nat -> ndarray) :
  let self := init true 1 4 10 true in
  let gt_mask := [[0; 0; 10; 0; 10; 10; 0; 10; 5]]%Q in
  process_polygons_m np_sqrt np_argsort simplify self gt_mask = Ok ([], []) /\
  load_instance np_sqrt np_argsort simplify linear_sum_assignment self [(0, 0, 10, 10)%Q] 0 gt_mask
    = Raise ValueError /\
  _load_masks np_sqrt np_argsort simplify linear_sum_assignment _poly2mask self 10 10
    [gt_mask] [(0, 0, 10, 10)%Q] = Raise ValueError.
Proof.
  cbv zeta. split; [reflexivity|]. split; [reflexivity|].
  unfold _load_masks, load_poly_masks. cbn [training poly2mask init negb map np_array_sum0 forallb].
  cbn [mbind result_bind].
  destruct (negb (shape_eqb _ _)); reflexivity.
Qed.

(** X15. In general: with [spline_num > 0], an instance that has a polygon
    with an odd number of coordinates cannot be loaded; the call ends in a
    [ValueError]. *)
Lemma load_instance_odd (np_sqrt : Q -> Q) (np_argsort : list Q -> list nat)
    (simplify : polygon -> polygon)
    (linear_sum_assignment : list (list Q) -> list nat * list nat)
    (self : loader) (gt_bboxes : list bbox) (i : nat) (gt_mask : mask_ann) :
  (0 < spline_num self)%Z ->
  is_Some (gt_bboxes !! i) ->
  Exists (fun p => Nat.even (length p) = false) gt_mask ->
  load_instance np_sqrt np_argsort simplify linear_sum_assignment self gt_bboxes i gt_mask
  = Raise ValueError.
Proof.
  intros Hs [b Hb] Hodd. unfold load_instance, py_index.
  destruct (Z.ltb_spec 0 (spline_num self)) as [_|]; [|lia].
  rewrite Hb. cbn [mbind result_bind].
  rewrite (unify_polygons_odd np_sqrt np_argsort self gt_mask b Hodd). reflexivity.
Qed.

(** The other malformed kind, fewer than 3 points: [0, 0, 10, 10] is
    resampled by [unify_polygons] and left out by [process_polygons_m], so
    that reading its key points raises [IndexError]. *)
Lemma short_polygon_raises (simplify : polygon -> polygon)
    (linear_sum_assignment : list (list Q) -> list nat * list nat) :
  let self := init true 1 4 10 true in
  process_polygons_m sqrt_fix argsort_numpy simplify self [[0; 0; 10; 10]]%Q = Ok ([], []) /\
  load_instance sqrt_fix argsort_numpy simplify linear_sum_assignment self [(0, 0, 10, 10)%Q] 0
    [[0; 0; 10; 10]]%Q = Raise IndexError.
Proof.
  cbv zeta. split; [reflexivity|]. vm_compute. reflexivity.
Qed.

(** A polygon with an odd number of coordinates, or fewer than 6, is
    skipped by [process_polygons_m]. *)
Lemma process_polygon_m_malformed (np_sqrt : Q -> Q) (np_argsort : list Q -> list nat)
    (simplify : polygon -> polygon)
    (self : loader) (p : list Q) :
  (length p mod 2 <> 0 \/ length p < 6)%nat ->
  process_polygon_m np_sqrt np_argsort simplify self p = Ok None.
Proof.
  intros H. unfold process_polygon_m.
  destruct (Nat.eqb_spec (length p mod 2) 0); destruct (Nat.leb_spec 6 (length p));
    try reflexivity; lia.
Qed.

(** X16. A polygon with an odd number of coordinates, or fewer than six,
    leaves no trace in the result of [process_polygons_m], wherever it
    stands in the instance: the result is that of the instance without
    it. *)
Lemma process_polygons_m_skips (np_sqrt : Q -> Q) (np_argsort : list Q -> list nat)
    (simplify : polygon -> polygon) (self : loader) (l1 l2 : mask_ann) (p : list Q) :
  (length p mod 2 <> 0 \/ length p < 6)%nat ->
  process_polygons_m np_sqrt np_argsort simplify self (l1 ++ p :: l2)
  = process_polygons_m np_sqrt np_argsort simplify self (l1 ++ l2).
Proof.
  intros Hp. unfold process_polygons_m.
  set (f := process_polygon_m np_sqrt np_argsort simplify self).
  set (g := fun v : list (option (list point * list Z)) => Ok (omap id v)).
  assert (Hfp : f p = Ok None) by exact (process_polygon_m_malformed _ _ _ _ _ Hp).
  assert (H : list_comp f (l1 ++ p :: l2) ≫= g = list_comp f (l1 ++ l2) ≫= g).
  { induction l1 as [|x l1 IH]; cbn [app list_comp].
    - rewrite Hfp. cbn [mbind result_bind]. destruct (list_comp f l2); reflexivity.
    - destruct (f x) as [y|e]; [|reflexivity]. cbn [mbind result_bind].
      destruct (list_comp f (l1 ++ p :: l2)) as [v|e], (list_comp f (l1 ++ l2)) as [v'|e'];
        cbn [mbind result_bind] in IH |- *; try discriminate.
      + unfold g in IH |- *. injection IH as IH.
        destruct y as [a|]; cbn [omap list_omap id]; rewrite IH; reflexivity.
      + exact IH. }
  destruct (list_comp f (l1 ++ p :: l2)) as [v|e], (list_comp f (l1 ++ l2)) as [v'|e'];
    cbn [mbind result_bind] in H |- *; try discriminate.
  - unfold g in H. injection H as H. rewrite H. reflexivity.
  - injection H as ->. reflexivity.
Qed.

(** *** The theorems at concrete inputs *)

Lemma uniformsample_cardinality_square :
  exists out,
    uniformsample sqrt_fix argsort_insertion [(0, 0); (0, 10); (10, 10); (10, 0)]%Q 8 = Ok out /\
    Z.of_nat (length out) = 8%Z.
Proof.
  apply (uniformsample_cardinality sqrt_fix sqrt_fix_nonneg argsort_insertion argsort_insertion_perm
           [(0, 0); (0, 10); (10, 10); (10, 0)]%Q
           [(0, 10); (10, 10); (10, 0); (0, 0)]%Q 8).
  - reflexivity.
  - simpl. lia.
  - lia.
  - vm_compute. reflexivity.
Defined.

Lemma subdivision_counts_triangle :
  exists edgenum,
    edge_counts (edgelen sqrt_fix [(4, 0); (0, 2); (0, 0)]%Q [(0, 0); (4, 0); (0, 2)]%Q)
      (argsort_insertion (edgelen sqrt_fix [(4, 0); (0, 2); (0, 0)]%Q [(0, 0); (4, 0); (0, 2)]%Q)) 40
      = Ok edgenum /\
    Zsum edgenum = 40%Z /\
    Forall (fun e => (1 <= e)%Z) edgenum /\
    length edgenum = 3%nat.
Proof.
  apply (subdivision_counts sqrt_fix sqrt_fix_nonneg argsort_insertion argsort_insertion_perm
           [(0, 0); (4, 0); (0, 2)]%Q [(4, 0); (0, 2); (0, 0)]%Q 40).
  - reflexivity.
  - simpl. lia.
  - vm_compute. reflexivity.
Defined.

Lemma uniformsample_contraction_hexagon :
  exists (out : polygon) (idx : list nat),
    uniformsample sqrt_fix argsort_insertion [(0, 0); (1, 0); (5, 0); (5, 1); (5, 5); (0, 5)]%Q 4 = Ok out /\
    length out = 4%nat /\
    length idx = 4%nat /\
    StronglySorted lt idx /\
    Forall2 (fun i p => [(0, 0); (1, 0); (5, 0); (5, 1); (5, 5); (0, 5)]%Q !! i = Some p)
            idx out /\
    (forall i j li lj,
        i ∈ idx -> j ∉ idx ->
        outgoing_len sqrt_fix [(0, 0); (1, 0); (5, 0); (5, 1); (5, 5); (0, 5)]%Q i = Some li ->
        outgoing_len sqrt_fix [(0, 0); (1, 0); (5, 0); (5, 1); (5, 5); (0, 5)]%Q j = Some lj ->
        (lj <= li)%Q).
Proof.
  apply (uniformsample_contraction sqrt_fix argsort_insertion argsort_insertion_perm
           argsort_insertion_sorted
           [(0, 0); (1, 0); (5, 0); (5, 1); (5, 5); (0, 5)]%Q 4).
  simpl. lia.
Defined.


Lemma match_keypoints_weights_square :
  exists (poly' : list point) (label : list Z),
    match_keypoints sqrt_fix assign_in_order (init true 5 4 10 true)
      [(0, 0); (0, 10); (10, 10); (10, 0)]%Q
      [(0, 1); (1, 10); (0, 0); (0, 0)]%Q [1; 1; 0; 0]%Z = Ok (poly', label) /\
    poly' = [(0, 1); (1, 10); (10, 10); (10, 0)]%Q /\
    label = [5; 5; 1; 1]%Z.
Proof.
  destruct (match_keypoints_weights sqrt_fix assign_in_order assign_in_order_shape
              (init true 5 4 10 true)
              [(0, 0); (0, 10); (10, 10); (10, 0)]%Q
              [(0, 1); (1, 10); (0, 0); (0, 0)]%Q [1; 1; 0; 0]%Z)
    as (poly' & label & Hrun & _).
  - reflexivity.
  - vm_compute. lia.
  - vm_compute. split; [discriminate | reflexivity].
  - exists poly', label. split; [exact Hrun|].
    vm_compute in Hrun. injection Hrun as <- <-. split; reflexivity.
Defined.

(** C5, as stated, fails for a weight that is not an integer: with
    [key_points_weight = 1/2] the matched rows carry the weight 0. *)
Lemma match_keypoints_fractional_weight :
  match_keypoints sqrt_fix assign_in_order (init true (1 # 2) 4 10 true)
    [(0, 0); (0, 10); (10, 10); (10, 0)]%Q
    [(0, 1); (1, 10); (0, 0); (0, 0)]%Q [1; 1; 0; 0]%Z
  = Ok ([(0, 1); (1, 10); (10, 10); (10, 0)]%Q, [0; 0; 1; 1]%Z) /\
  fst (assign_in_order
         (cdist sqrt_fix [(0, 0); (0, 10); (10, 10); (10, 0)]%Q [(0, 1); (1, 10)]%Q))
  = [0; 1]%nat /\
  ~ (inject_Z 0 == key_points_weight (init true (1 # 2) 4 10 true))%Q.
Proof.
  split; [vm_compute; reflexivity|]. split; [reflexivity|].
  vm_compute. discriminate.
Qed.

Lemma load_poly_masks_mismatch_empty_bitmap :
  load_poly_masks decode_empty [[[0; 0; 0; 10; 10; 10; 10; 0]%Q]] 2 3 = Ok (np_zeros [2; 3]%nat) /\
  nd_shape (np_zeros [2; 3]%nat) = [2; 3]%nat /\
  length (nd_data (np_zeros [2; 3]%nat)) = (2 * 3)%nat /\
  Forall (fun v => v = 0%Q) (nd_data (np_zeros [2; 3]%nat)).
Proof.
  apply (load_poly_masks_mismatch decode_empty [[[0; 0; 0; 10; 10; 10; 10; 0]%Q]] 2 3
           (np_zeros [0; 0]%nat)).
  - reflexivity.
  - discriminate.
Defined.

Lemma unify_polygons_count_square :
  exists polys ws,
    unify_polygons sqrt_fix argsort_insertion (init true 1 4 10 true)
      [[0; 0; 0; 10; 10; 10; 10; 0]; [0; 0; 4; 0; 0; 2]]%Q (0, 0, 10, 10)%Q = Ok (polys, ws) /\
    length polys = 2%nat /\
    length ws = 2%nat.
Proof.
  apply (unify_polygons_count sqrt_fix sqrt_fix_nonneg argsort_insertion argsort_insertion_perm
           (init true 1 4 10 true)
           [[0; 0; 0; 10; 10; 10; 10; 0]; [0; 0; 4; 0; 0; 2]]%Q (0, 0, 10, 10)%Q).
  - repeat constructor.
    + exists [(0, 0); (0, 10); (10, 10); (10, 0)]%Q. split; [reflexivity|].
      exists [(0, 10); (10, 10); (10, 0); (0, 0)]%Q. split; [reflexivity|].
      vm_compute. reflexivity.
    + exists [(0, 0); (4, 0); (0, 2)]%Q. split; [reflexivity|].
      exists [(4, 0); (0, 2); (0, 0)]%Q. split; [reflexivity|].
      vm_compute. reflexivity.
  - simpl. lia.
  - simpl. lia.
  - simpl. lia.
Defined.

(** *** Ties in the contraction branch *)

(** With a stable sort the kept vertices are the N last in the order
    (length of the outgoing edge, index). *)
Lemma stable_contraction (np_sqrt : Q -> Q) (poly : polygon) (N : Z) :
  (0 <= N < Z.of_nat (length poly))%Z ->
  exists (out : polygon) (idx : list nat),
    uniformsample np_sqrt argsort_insertion poly N = Ok out /\
    StronglySorted lt idx /\
    Forall2 (fun i p => poly !! i = Some p) idx out /\
    (forall i j li lj,
        i ∈ idx -> j ∉ idx ->
        outgoing_len np_sqrt poly i = Some li ->
        outgoing_len np_sqrt poly j = Some lj ->
        (lj < li)%Q \/ (lj == li /\ (j < i)%nat)).
Proof.
  intros HN.
  destruct (contraction_run np_sqrt argsort_insertion argsort_insertion_perm poly N HN)
    as (nxt & out & Hn & Hrun & _ & _ & Hs & Hf).
  eexists out, _. split; [exact Hrun|]. split; [exact Hs|]. split; [exact Hf|].
  intros i j li lj Hi Hj Hleni Hlenj.
  rewrite <- (edgelen_lookup np_sqrt _ _ i Hn) in Hleni.
  rewrite <- (edgelen_lookup np_sqrt _ _ j Hn) in Hlenj.
  rewrite np_sort_perm in Hi, Hj.
  exact (argsort_insertion_drop _ _ i j li lj Hi Hj Hleni Hlenj).
Qed.

(** C6, as stated, fails on ties among more than 16 edges.  The 18
    vertices at the integer points of the boundary of an 8 x 1 rectangle
    have outgoing edges of length 1 each; numpy's quicksort orders the 18
    equal keys as 0, 15, 14, ..., 1, 16, 17, so that for N = 16 the vertices
    0 and 15 are dropped: vertex 1 is kept and vertex 15 is not, although
    their edges are equally long and 15 is the larger index. *)
Lemma contraction_ties_not_by_index :
  let poly := [(0, 0); (1, 0); (2, 0); (3, 0); (4, 0); (5, 0); (6, 0); (7, 0); (8, 0);
               (8, 1); (7, 1); (6, 1); (5, 1); (4, 1); (3, 1); (2, 1); (1, 1); (0, 1)]%Q in
  let idx := [1; 2; 3; 4; 5; 6; 7; 8; 9; 10; 11; 12; 13; 14; 16; 17]%nat in
  exists (nxt out : polygon) (l1 l15 : Q),
    np_index poly (idxnext (length poly)) = Ok nxt /\
    argsort_numpy (edgelen sqrt_fix nxt poly)
    = [0; 15; 14; 13; 12; 11; 10; 9; 8; 7; 6; 5; 4; 3; 2; 1; 16; 17]%nat /\
    uniformsample sqrt_fix argsort_numpy poly 16 = Ok out /\
    Forall2 (fun i p => poly !! i = Some p) idx out /\
    (1%nat ∈ idx /\ 15%nat ∉ idx) /\
    outgoing_len sqrt_fix poly 1 = Some l1 /\
    outgoing_len sqrt_fix poly 15 = Some l15 /\
    (l15 == l1)%Q /\
    ~ ((l15 < l1)%Q \/ ((l15 == l1)%Q /\ (15 < 1)%nat)).
Proof.
  cbv zeta. eexists _, _, _, _.
  split; [reflexivity|]. split; [vm_compute; reflexivity|].
  split; [vm_compute; reflexivity|].
  split; [repeat constructor|].
  split; [split; [apply list_elem_of_In; simpl; tauto|]|].
  { intros H. apply list_elem_of_In in H. simpl in H.
    repeat (destruct H as [H|H]; [discriminate|]). exact H. }
  split; [vm_compute; reflexivity|]. split; [vm_compute; reflexivity|].
  split; [reflexivity|].
  intros [H|[_ H]]; [vm_compute in H; discriminate | lia].
Qed.

(** *** A whole call *)

(** One square instance, [num_points = 4], [key_points_weight = 5]: the
    four resampled points are matched to the four corners, and the decoded
    bitmaps of the wrong shape give a raster of zeros. *)
Lemma load_masks_square :
  _load_masks sqrt_fix argsort_numpy simplify_id assign_in_order decode_empty
    (init true 5 4 10 true) 2 3 [[[0; 0; 0; 10; 10; 10; 10; 0]%Q]] [(0, 0, 10, 10)%Q]
  = Ok (PolygonMasks
          [([[(0, 0); (0, 10); (10, 10); (10, 0)]%Q], [[5; 5; 5; 5]%Z])]
          2 3 (Some (np_zeros [2; 3]%nat))).
Proof. vm_compute. reflexivity. Qed.

(** * Further properties of the loader *)

(** ** Least and greatest entries *)

Lemma Qmin_list_least (x : Q) (l : list Q) : least (x :: l) (Qmin_list x l).
Proof.
  revert x. induction l as [|y l IH]; intros x; cbn [Qmin_list].
  - split; [left | repeat constructor; apply Qle_refl].
  - destruct (IH (if Qltb y x then y else x)) as [Hin Hall].
    apply Forall_cons in Hall. destruct Hall as [Hm Hall].
    destruct (Qltb y x) eqn:E.
    + apply Qltb_lt in E. split.
      * apply elem_of_cons in Hin. destruct Hin as [->|Hin]; [right; left | right; right; exact Hin].
      * constructor; [eapply Qle_trans; [exact Hm | apply Qlt_le_weak; exact E]|].
        constructor; assumption.
    + apply Qltb_ge in E. split.
      * apply elem_of_cons in Hin. destruct Hin as [->|Hin]; [left | right; right; exact Hin].
      * constructor; [exact Hm|]. constructor; [eapply Qle_trans; eassumption | exact Hall].
Qed.

Lemma Qmax_list_greatest (x : Q) (l : list Q) : greatest (x :: l) (Qmax_list x l).
Proof.
  revert x. induction l as [|y l IH]; intros x; cbn [Qmax_list].
  - split; [left | repeat constructor; apply Qle_refl].
  - destruct (IH (if Qltb x y then y else x)) as [Hin Hall].
    apply Forall_cons in Hall. destruct Hall as [Hm Hall].
    destruct (Qltb x y) eqn:E.
    + apply Qltb_lt in E. split.
      * apply elem_of_cons in Hin. destruct Hin as [->|Hin]; [right; left | right; right; exact Hin].
      * constructor; [eapply Qle_trans; [apply Qlt_le_weak; exact E | exact Hm]|].
        constructor; assumption.
    + apply Qltb_ge in E. split.
      * apply elem_of_cons in Hin. destruct Hin as [->|Hin]; [left | right; right; exact Hin].
      * constructor; [exact Hm|]. constructor; [eapply Qle_trans; eassumption | exact Hall].
Qed.

Lemma np_min_least (l : list Q) (m : Q) : np_min l = Ok m -> least l m.
Proof. destruct l as [|x l]; [discriminate|]. intros H. injection H as <-. apply Qmin_list_least. Qed.

Lemma np_max_greatest (l : list Q) (m : Q) : np_max l = Ok m -> greatest l m.
Proof. destruct l as [|x l]; [discriminate|]. intros H. injection H as <-. apply Qmax_list_greatest. Qed.

Lemma least_unique (l l' : list Q) (m m' : Q) :
  l ≡ₚ l' -> least l m -> least l' m' -> (m == m')%Q.
Proof.
  intros Hp [Hin Hall] [Hin' Hall']. rewrite Forall_forall in Hall, Hall'.
  apply Qle_antisym.
  - apply Hall. rewrite Hp. exact Hin'.
  - apply Hall'. rewrite <- Hp. exact Hin.
Qed.

Lemma greatest_unique (l l' : list Q) (m m' : Q) :
  l ≡ₚ l' -> greatest l m -> greatest l' m' -> (m == m')%Q.
Proof.
  intros Hp [Hin Hall] [Hin' Hall']. rewrite Forall_forall in Hall, Hall'.
  apply Qle_antisym.
  - apply Hall'. rewrite <- Hp. exact Hin.
  - apply Hall. rewrite Hp. exact Hin'.
Qed.

(** ** The shoelace area *)

Lemma zip_with_take_long {A B C : Type} (f : A -> B -> C) (l : list A) (r : list B) (k : nat) :
  (length l <= k)%nat -> zip_with f l (take k r) = zip_with f l r.
Proof.
  revert r k. induction l as [|a l IH]; intros [|b r] [|k] H; simpl in *;
    try reflexivity; try lia.
  f_equal. apply IH. lia.
Qed.

(** The two dot products of [_polygon_area], with the predecessor [a] of
    the first vertex given, are the shoelace sum along the path. *)
Lemma shoelace_path (a : point) (l : polygon) :
  (np_dot (map px l) (py a :: map py l) - np_dot (map py l) (px a :: map px l)
   == - path_area2 (a :: l))%Q.
Proof.
  revert a. induction l as [|b l IH]; intros a.
  - unfold np_dot. simpl. ring.
  - change (path_area2 (a :: b :: l)) with (cross a b + path_area2 (b :: l))%Q.
    transitivity ((px b * py a - py b * px a)
                  + (np_dot (map px l) (py b :: map py l)
                     - np_dot (map py l) (px b :: map px l)))%Q.
    + unfold np_dot, Qsum. cbn [map zip_with foldr]. ring.
    + rewrite (IH b). unfold cross. ring.
Qed.

Lemma signed_area2_from_last (poly : polygon) (z : point) :
  last poly = Some z -> (signed_area2 poly == path_area2 (z :: poly))%Q.
Proof.
  intros Hz. apply last_Some in Hz. destruct Hz as [l ->].
  destruct l as [|p0 t]; [reflexivity|].
  change (signed_area2 ((p0 :: t) ++ [z])) with (path_area2 (((p0 :: t) ++ [z]) ++ [p0])).
  rewrite <- app_assoc. change ([z] ++ [p0]) with [z; p0]. rewrite path_area2_snoc.
  change (path_area2 (z :: (p0 :: t) ++ [z]))
    with (cross z p0 + path_area2 ((p0 :: t) ++ [z]))%Q.
  ring.
Qed.

Lemma polygon_area_signed (poly : polygon) :
  (_polygon_area poly == (1 # 2) * Qabs (signed_area2 poly))%Q.
Proof.
  unfold _polygon_area. destruct (last poly) as [z|] eqn:Hz.
  - assert (Hroll : forall (f : point -> Q) (g : Q -> Q -> Q) (xs : list Q),
               length xs = length poly ->
               zip_with g xs (np_roll1 (map f poly)) = zip_with g xs (f z :: map f poly)).
    { intros f g xs Hl. unfold np_roll1.
      assert (Hlast : last (map f poly) = Some (f z)).
      { apply last_Some in Hz. destruct Hz as [l ->]. rewrite map_app. apply last_snoc. }
      rewrite Hlast, length_map. destruct xs as [|x xs]; [reflexivity|].
      cbn [zip_with]. f_equal. apply zip_with_take_long. simpl in Hl. lia. }
    unfold np_dot. rewrite !Hroll by apply length_map.
    fold (np_dot (map px poly) (py z :: map py poly)).
    fold (np_dot (map py poly) (px z :: map px poly)).
    rewrite shoelace_path, Qabs_opp, (signed_area2_from_last poly z Hz). reflexivity.
  - apply last_None in Hz. subst poly. reflexivity.
Qed.

(** *** Integer arrays *)

Lemma wrap64_small (z : Z) : (- 2 ^ 63 <= z < 2 ^ 63)%Z -> wrap64 z = z.
Proof. intros H. unfold wrap64. rewrite Z.mod_small by lia. lia. Qed.

Lemma float64_of_int_small (d : Z) : (Z.abs d < 2 ^ 53)%Z -> float64_of_int d = inject_Z d.
Proof.
  intros H. unfold float64_of_int.
  destruct (Z.leb_spec (Z.log2 (Z.abs d) - 52) 0) as [_|He]; [reflexivity|].
  exfalso. destruct (Z.eq_dec (Z.abs d) 0%Z) as [E0|Hne].
  - rewrite E0 in He. simpl in He. lia.
  - assert (Hlog : (Z.log2 (Z.abs d) < 53)%Z) by (apply Z.log2_lt_pow2; lia). lia.
Qed.

Lemma np_dot_int64_acc (a b : list Z) (acc : Z) (k : nat) :
  Forall small a -> Forall small b ->
  (Z.abs acc <= Z.of_nat k * 2 ^ 40)%Z ->
  (k + length a <= 2048)%nat ->
  foldl (fun acc xy => wrap64 (acc + wrap64 (fst xy * snd xy))) acc (zip a b)
  = (acc + Zsum (zip_with Z.mul a b))%Z /\
  (Z.abs (acc + Zsum (zip_with Z.mul a b)) <= Z.of_nat (k + length a) * 2 ^ 40)%Z.
Proof.
  intros Ha. revert b acc k. induction Ha as [|x a Hx Ha IH]; intros b acc k Hb Hacc Hk.
  - cbn. rewrite Z.add_0_r, Nat.add_0_r. split; [reflexivity | exact Hacc].
  - destruct Hb as [|y b Hy Hb].
    + cbn. rewrite Z.add_0_r. split; [reflexivity|]. cbn [length] in Hk |- *. nia.
    + cbn [zip_with foldl fst snd length] in Hk |- *.
      change (Zsum (x * y :: zip_with Z.mul a b))%Z
        with (x * y + Zsum (zip_with Z.mul a b))%Z.
      unfold small in Hx, Hy.
      assert (Hxy : (Z.abs (x * y) <= 2 ^ 40)%Z).
      { rewrite Z.abs_mul. change (2 ^ 40)%Z with (2 ^ 20 * 2 ^ 20)%Z.
        apply Z.mul_le_mono_nonneg; lia. }
      rewrite (wrap64_small (x * y)) by lia.
      rewrite (wrap64_small (acc + x * y)) by lia.
      destruct (IH b (acc + x * y)%Z (S k) Hb) as [E Hbound]; [lia | lia |].
      replace (acc + (x * y + Zsum (zip_with Z.mul a b)))%Z
        with (acc + x * y + Zsum (zip_with Z.mul a b))%Z by ring.
      split; [exact E|]. replace (k + S (length a))%nat with (S k + length a)%nat by lia.
      exact Hbound.
Qed.

Lemma np_dot_int64_exact (a b : list Z) :
  Forall small a -> Forall small b -> (length a <= 2048)%nat ->
  np_dot_int64 a b = Zsum (zip_with Z.mul a b) /\
  (Z.abs (Zsum (zip_with Z.mul a b)) <= 2 ^ 51)%Z.
Proof.
  intros Ha Hb Hl. destruct (np_dot_int64_acc a b 0 0 Ha Hb) as [E Hbound]; [simpl; lia | lia |].
  unfold np_dot_int64. rewrite E. cbn [Z.add] in *. split; [reflexivity|].
  cbn [Nat.add] in Hbound. lia.
Qed.

Lemma np_dot_inject (a b : list Z) :
  (np_dot (map inject_Z a) (map inject_Z b) == inject_Z (Zsum (zip_with Z.mul a b)))%Q.
Proof.
  unfold np_dot, Qsum. revert b. induction a as [|x a IH]; intros [|y b]; try reflexivity.
  cbn [map zip_with foldr Zsum]. rewrite IH, inject_Z_plus, inject_Z_mult. reflexivity.
Qed.

Lemma np_roll1_map {A B : Type} (f : A -> B) (l : list A) :
  np_roll1 (map f l) = map f (np_roll1 l).
Proof.
  unfold np_roll1. destruct (last l) as [x|] eqn:E.
  - apply last_Some in E. destruct E as [l' ->].
    assert (Hlast : last (map f (l' ++ [x])) = Some (f x))
      by (rewrite map_app; apply last_snoc).
    rewrite Hlast, length_map. cbn [map]. f_equal. apply firstn_map.
  - apply last_None in E. subst l. reflexivity.
Qed.

Lemma np_roll1_Forall {A : Type} (P : A -> Prop) (l : list A) :
  Forall P l -> Forall P (np_roll1 l).
Proof.
  intros H. unfold np_roll1. destruct (last l) as [x|] eqn:E; [|constructor].
  constructor; [|apply Forall_take; exact H].
  rewrite Forall_forall in H. apply H. apply last_Some in E. destruct E as [l' ->].
  apply elem_of_app. right. left.
Qed.

Lemma of_ints_px (ipoly : list (Z * Z)) : map px (of_ints ipoly) = map inject_Z (map fst ipoly).
Proof. unfold of_ints. rewrite !map_map. reflexivity. Qed.

Lemma of_ints_py (ipoly : list (Z * Z)) : map py (of_ints ipoly) = map inject_Z (map snd ipoly).
Proof. unfold of_ints. rewrite !map_map. reflexivity. Qed.

Lemma exact_range_coords (ipoly : list (Z * Z)) :
  exact_range ipoly ->
  Forall small (map fst ipoly) /\ Forall small (map snd ipoly) /\ (length ipoly <= 2048)%nat.
Proof.
  intros [Hl Hall]. split; [|split; [|exact Hl]];
    apply List.Forall_map; (eapply Forall_impl; [exact Hall|]); cbv beta; tauto.
Qed.

(** In the exact range the [int64] computation does not wrap around and
    gives the number that the embedding over the rationals gives. *)
Lemma polygon_area_int64_exact (ipoly : list (Z * Z)) :
  exact_range ipoly -> (_polygon_area_int64 ipoly == _polygon_area (of_ints ipoly))%Q.
Proof.
  intros Hr. destruct (exact_range_coords ipoly Hr) as (Hx & Hy & Hl).
  unfold _polygon_area_int64, _polygon_area. cbv zeta.
  rewrite of_ints_px, of_ints_py, !(np_roll1_map inject_Z).
  destruct (np_dot_int64_exact (map fst ipoly) (np_roll1 (map snd ipoly)))
    as [E1 B1]; [exact Hx | apply np_roll1_Forall; exact Hy | rewrite length_map; exact Hl|].
  destruct (np_dot_int64_exact (map snd ipoly) (np_roll1 (map fst ipoly)))
    as [E2 B2]; [exact Hy | apply np_roll1_Forall; exact Hx | rewrite length_map; exact Hl|].
  rewrite E1, E2, !np_dot_inject.
  set (S1 := Zsum (zip_with Z.mul (map fst ipoly) (np_roll1 (map snd ipoly)))) in *.
  set (S2 := Zsum (zip_with Z.mul (map snd ipoly) (np_roll1 (map fst ipoly)))) in *.
  rewrite (wrap64_small (S1 - S2)) by lia.
  rewrite (wrap64_small (Z.abs (S1 - S2))) by lia.
  rewrite float64_of_int_small by lia.
  assert (E : (inject_Z S1 - inject_Z S2 == inject_Z (S1 - S2))%Q).
  { unfold Qminus. rewrite <- inject_Z_opp, <- inject_Z_plus. reflexivity. }
  rewrite E. reflexivity.
Qed.

Lemma exact_range_rev (ipoly : list (Z * Z)) : exact_range ipoly -> exact_range (rev ipoly).
Proof.
  intros [Hl Hall]. split; [rewrite length_rev; exact Hl | apply Forall_rev; exact Hall].
Qed.

(** X1. On an integer annotation in the exact range, [_polygon_area]
    computes, in [int64] as over the rationals, half the absolute value of
    the signed area of the closed ring; it is never negative, and it does
    not depend on the direction in which the vertices are listed. *)
Theorem polygon_area_orientation (ipoly : list (Z * Z)) :
  exact_range ipoly ->
  (_polygon_area_int64 ipoly == _polygon_area (of_ints ipoly))%Q /\
  (_polygon_area_int64 ipoly == (1 # 2) * Qabs (signed_area2 (of_ints ipoly)))%Q /\
  (0 <= _polygon_area_int64 ipoly)%Q /\
  (_polygon_area_int64 (rev ipoly) == _polygon_area_int64 ipoly)%Q.
Proof.
  intros Hr. pose proof (polygon_area_int64_exact ipoly Hr) as E.
  pose proof (polygon_area_int64_exact (rev ipoly) (exact_range_rev ipoly Hr)) as Er.
  split; [exact E|]. split; [rewrite E; apply polygon_area_signed|]. split.
  - rewrite E, polygon_area_signed. apply Qmult_le_0_compat; [discriminate | apply Qabs_nonneg].
  - rewrite E, Er. unfold of_ints. rewrite map_rev.
    rewrite !polygon_area_signed, signed_area2_rev, Qabs_opp. reflexivity.
Qed.

(** X1 on a triangle with the vertices (0, 0), (4, 0), (0, 3). *)
Lemma polygon_area_orientation_triangle :
  (_polygon_area_int64 [(0, 0); (4, 0); (0, 3)]%Z
   == _polygon_area (of_ints [(0, 0); (4, 0); (0, 3)]%Z))%Q /\
  (_polygon_area_int64 [(0, 0); (4, 0); (0, 3)]%Z
   == (1 # 2) * Qabs (signed_area2 (of_ints [(0, 0); (4, 0); (0, 3)]%Z)))%Q /\
  (0 <= _polygon_area_int64 [(0, 0); (4, 0); (0, 3)]%Z)%Q /\
  (_polygon_area_int64 (rev [(0, 0); (4, 0); (0, 3)]%Z)
   == _polygon_area_int64 [(0, 0); (4, 0); (0, 3)]%Z)%Q.
Proof.
  apply (polygon_area_orientation [(0, 0); (4, 0); (0, 3)]%Z).
  split; [simpl; lia|]. repeat constructor; vm_compute; discriminate.
Defined.

(** ** [filter_tiny_polys] *)

Lemma Qltb_compat (a x y : Q) : (x == y)%Q -> Qltb a x = Qltb a y.
Proof.
  intros E. apply eq_true_iff_eq. rewrite !Qltb_lt. rewrite E. reflexivity.
Qed.

(** The two tests of [filter_tiny_polys], read on the polygon. *)
Lemma not_tiny_flags (poly : polygon) (x_min y_min x_max y_max : Q) :
  np_min (map px poly) = Ok x_min -> np_min (map py poly) = Ok y_min ->
  np_max (map px poly) = Ok x_max -> np_max (map py poly) = Ok y_max ->
  not_tiny poly <->
  Qle_bool 1 (x_max - x_min) && Qle_bool 1 (y_max - y_min) = true /\
  Qltb 5 (_polygon_area poly) = true.
Proof.
  intros H1 H2 H3 H4.
  apply np_min_least in H1, H2. apply np_max_greatest in H3, H4.
  rewrite andb_true_iff, !Qle_bool_iff, Qltb_lt, polygon_area_signed. split.
  - intros (xm & ym & xM & yM & L1 & L2 & G1 & G2 & Hw & Hh & Ha).
    rewrite (least_unique _ _ _ _ (Permutation_refl _) L1 H1) in Hw.
    rewrite (greatest_unique _ _ _ _ (Permutation_refl _) G1 H3) in Hw.
    rewrite (least_unique _ _ _ _ (Permutation_refl _) L2 H2) in Hh.
    rewrite (greatest_unique _ _ _ _ (Permutation_refl _) G2 H4) in Hh.
    auto.
  - intros [[Hw Hh] Ha]. exists x_min, y_min, x_max, y_max. auto 10.
Qed.

(** The polygons that [filter_tiny_polys] returns are those of its
    argument that are not tiny, each once, in their order. *)
Lemma filter_tiny_polys_selects (polys out : list polygon) :
  filter_tiny_polys polys = Ok out -> kept_by not_tiny polys out.
Proof.
  unfold filter_tiny_polys. intros H.
  apply bind_Ok_inv in H as (ys & Hys & H). injection H as <-.
  apply list_comp_Forall2 in Hys.
  induction Hys as [|poly y polys ys Hy _ IH]; [constructor|].
  apply bind_Ok_inv in Hy as (x_min & H1 & Hy).
  apply bind_Ok_inv in Hy as (y_min & H2 & Hy).
  apply bind_Ok_inv in Hy as (x_max & H3 & Hy).
  apply bind_Ok_inv in Hy as (y_max & H4 & Hy).
  injection Hy as <-.
  pose proof (not_tiny_flags poly x_min y_min x_max y_max H1 H2 H3 H4) as Hnt.
  rewrite filter_cons. cbn [snd].
  destruct (decide (Qle_bool 1 (x_max - x_min) && Qle_bool 1 (y_max - y_min) = true))
    as [Hflag|Hflag].
  - cbn [map fst]. rewrite filter_cons.
    destruct (decide (Is_true (Qltb 5 (_polygon_area poly)))) as [Harea|Harea].
    + apply kept_take; [|exact IH]. apply Hnt. split; [exact Hflag|].
      apply Is_true_true. exact Harea.
    + apply kept_skip; [|exact IH]. intros Hn. apply Hnt in Hn. destruct Hn as [_ Hn].
      apply Harea. apply Is_true_true. exact Hn.
  - apply kept_skip; [|exact IH]. intros Hn. apply Hnt in Hn. tauto.
Qed.

Lemma Qltb_inject (a b : Z) : Qltb (inject_Z a) (inject_Z b) = (a <? b)%Z.
Proof.
  apply eq_true_iff_eq. rewrite Qltb_lt, Z.ltb_lt, <- Zlt_Qlt. reflexivity.
Qed.

Lemma Qmin_list_inject (x : Z) (l : list Z) :
  Qmin_list (inject_Z x) (map inject_Z l) = inject_Z (Zmin_list x l).
Proof.
  revert x. induction l as [|y l IH]; intros x; [reflexivity|].
  cbn [map Qmin_list Zmin_list]. rewrite Qltb_inject.
  destruct (y <? x)%Z; apply IH.
Qed.

Lemma Qmax_list_inject (x : Z) (l : list Z) :
  Qmax_list (inject_Z x) (map inject_Z l) = inject_Z (Zmax_list x l).
Proof.
  revert x. induction l as [|y l IH]; intros x; [reflexivity|].
  cbn [map Qmax_list Zmax_list]. rewrite Qltb_inject.
  destruct (x <? y)%Z; apply IH.
Qed.

Lemma Zmin_list_keeps (P : Z -> Prop) (x : Z) (l : list Z) :
  P x -> Forall P l -> P (Zmin_list x l).
Proof.
  intros Hx Hl. revert x Hx. induction Hl as [|y l Hy _ IH]; intros x Hx; [exact Hx|].
  cbn [Zmin_list]. apply IH. destruct (y <? x)%Z; assumption.
Qed.

Lemma Zmax_list_keeps (P : Z -> Prop) (x : Z) (l : list Z) :
  P x -> Forall P l -> P (Zmax_list x l).
Proof.
  intros Hx Hl. revert x Hx. induction Hl as [|y l Hy _ IH]; intros x Hx; [exact Hx|].
  cbn [Zmax_list]. apply IH. destruct (x <? y)%Z; assumption.
Qed.

Lemma extent_flag_inject (hi lo : Z) :
  small hi -> small lo ->
  Qle_bool 1 (inject_Z hi - inject_Z lo) = (1 <=? wrap64 (hi - lo))%Z.
Proof.
  unfold small. intros Hhi Hlo. rewrite wrap64_small by lia.
  apply eq_true_iff_eq. rewrite Qle_bool_iff, Z.leb_le.
  assert (E : (inject_Z hi - inject_Z lo == inject_Z (hi - lo))%Q).
  { unfold Qminus. rewrite <- inject_Z_opp, <- inject_Z_plus. reflexivity. }
  rewrite E. change 1%Q with (inject_Z 1). rewrite <- Zle_Qle. reflexivity.
Qed.

Lemma list_comp_map {A A' B B' : Type} (g : A -> A') (h : B -> B')
    (f : A -> result B) (f' : A' -> result B') (l : list A) :
  Forall (fun x => f' (g x) = match f x with Ok y => Ok (h y) | Raise e => Raise e end) l ->
  list_comp f' (map g l)
  = match list_comp f l with Ok ys => Ok (map h ys) | Raise e => Raise e end.
Proof.
  induction 1 as [|x l Hx _ IH]; [reflexivity|].
  cbn [map list_comp]. rewrite Hx, IH.
  destruct (f x) as [y|e]; cbn [mbind result_bind]; [|reflexivity].
  destruct (list_comp f l) as [ys|e]; reflexivity.
Qed.

Lemma filter_map_commute {A B : Type} (g : A -> B) (P : B -> Prop) (P' : A -> Prop)
    `{forall y, Decision (P y)} `{forall x, Decision (P' x)} (l : list A) :
  Forall (fun x => P (g x) <-> P' x) l -> filter P (map g l) = map g (filter P' l).
Proof.
  induction 1 as [|x l Hx _ IH]; [reflexivity|].
  cbn [map]. rewrite !filter_cons.
  destruct (decide (P (g x))) as [Hp|Hp]; destruct (decide (P' x)) as [Hp'|Hp'];
    try tauto; cbn [map]; rewrite IH; reflexivity.
Qed.

(** In the exact range [filter_tiny_polys] returns the same polygons, and
    raises the same exception, on the [int64] arrays as in the embedding
    over the rationals. *)
Lemma filter_tiny_polys_int64_exact (ipolys : list (list (Z * Z))) :
  Forall exact_range ipolys ->
  filter_tiny_polys (map of_ints ipolys)
  = match filter_tiny_polys_int64 ipolys with
    | Ok iout => Ok (map of_ints iout)
    | Raise e => Raise e
    end.
Proof.
  intros Hr. unfold filter_tiny_polys, filter_tiny_polys_int64.
  rewrite (list_comp_map of_ints (fun y : list (Z * Z) * bool => (of_ints (fst y), snd y))
             (fun poly : list (Z * Z) =>
                x_min ← np_min_int64 (map fst poly); y_min ← np_min_int64 (map snd poly);
                x_max ← np_max_int64 (map fst poly); y_max ← np_max_int64 (map snd poly);
                Ok (poly, (1 <=? wrap64 (x_max - x_min))%Z && (1 <=? wrap64 (y_max - y_min))%Z))).
  - match goal with |- context [list_comp ?f ipolys] =>
      destruct (list_comp f ipolys) as [ys|e] eqn:Eys end; [|reflexivity].
    cbn [mbind result_bind]. f_equal.
    assert (Hfst : Forall (fun y : list (Z * Z) * bool => exact_range (fst y)) ys).
    { apply list_comp_Forall2 in Eys. clear -Hr Eys.
      induction Eys as [|ip y ipolys ys Hy _ IH]; [constructor|].
      apply Forall_cons in Hr. destruct Hr as [Hip Hr].
      constructor; [|apply IH; exact Hr].
      apply bind_Ok_inv in Hy as (x_min & _ & Hy).
      apply bind_Ok_inv in Hy as (y_min & _ & Hy).
      apply bind_Ok_inv in Hy as (x_max & _ & Hy).
      apply bind_Ok_inv in Hy as (y_max & _ & Hy).
      injection Hy as <-. exact Hip. }
    rewrite (filter_map_commute _ _ (fun pb : list (Z * Z) * bool => snd pb = true))
      by (apply Forall_forall; intros y _; reflexivity).
    rewrite map_map. cbn [fst].
    rewrite <- (map_map fst of_ints).
    apply filter_map_commute.
    apply List.Forall_map. apply Forall_forall. intros y Hy.
    apply list_elem_of_filter in Hy. destruct Hy as [_ Hy].
    rewrite Forall_forall in Hfst. specialize (Hfst y Hy).
    rewrite (Qltb_compat 5 _ _ (polygon_area_int64_exact (fst y) Hfst)). reflexivity.
  - eapply Forall_impl; [exact Hr|]. cbv beta. intros ip Hip.
    destruct (exact_range_coords ip Hip) as (Hx & Hy & _).
    rewrite of_ints_px, of_ints_py.
    destruct ip as [|[x y] ip]; [reflexivity|].
    cbn [map fst snd np_min np_max np_min_int64 np_max_int64] in Hx, Hy |- *.
    rewrite !Qmin_list_inject, !Qmax_list_inject. cbn [mbind result_bind].
    apply Forall_cons in Hx, Hy. destruct Hx as [Hx Hxs]. destruct Hy as [Hy Hys].
    rewrite !extent_flag_inject;
      first [reflexivity | apply Zmin_list_keeps; assumption | apply Zmax_list_keeps; assumption].
Qed.

(** X2. On integer annotations in the exact range, what
    [filter_tiny_polys] returns, on the [int64] arrays as over the
    rationals, are the polygons of its argument whose bounding box is at
    least 1 wide and 1 high and whose area is above 5: each of them once,
    in the order of the argument, and nothing else. *)
Theorem filter_tiny_polys_keeps (ipolys iout : list (list (Z * Z))) :
  Forall exact_range ipolys ->
  filter_tiny_polys_int64 ipolys = Ok iout ->
  filter_tiny_polys (map of_ints ipolys) = Ok (map of_ints iout) /\
  kept_by not_tiny (map of_ints ipolys) (map of_ints iout).
Proof.
  intros Hr Hrun. pose proof (filter_tiny_polys_int64_exact ipolys Hr) as E.
  rewrite Hrun in E. split; [exact E|].
  apply filter_tiny_polys_selects. exact E.
Qed.

Lemma filter_tiny_polys_cases (polys : list polygon) :
  (Forall (fun poly => poly <> []) polys /\ exists out, filter_tiny_polys polys = Ok out) \/
  ([] ∈ polys /\ filter_tiny_polys polys = Raise ValueError).
Proof.
  induction polys as [|poly polys IH].
  - left. split; [constructor | exists []; reflexivity].
  - destruct poly as [|p poly].
    + right. split; [left | reflexivity].
    + destruct IH as [[Hall _]|[Hin Hr]].
      * left. assert (Hall' : Forall (fun poly : polygon => poly <> []) ((p :: poly) :: polys))
          by (constructor; [discriminate | exact Hall]).
        split; [exact Hall' | apply filter_tiny_polys_total; exact Hall'].
      * right. split; [right; exact Hin|]. unfold filter_tiny_polys in Hr |- *.
        cbn [list_comp map np_min np_max mbind result_bind].
        match type of Hr with
        | (?m ≫= _) = _ => destruct m as [ys|e] eqn:E
        end; cbn [mbind result_bind] in Hr |- *; [discriminate | exact Hr].
Qed.

(** X3. [filter_tiny_polys] raises exactly when one of the polygons has no
    point at all ([np.min] of an empty column), and then it is a
    [ValueError]: a polygon is never dropped silently for being empty. *)
Theorem filter_tiny_polys_raises (polys : list polygon) :
  (filter_tiny_polys polys = Raise ValueError <-> [] ∈ polys) /\
  (forall e, filter_tiny_polys polys = Raise e -> e = ValueError).
Proof.
  destruct (filter_tiny_polys_cases polys) as [[Hall [out Hout]]|[Hin Hr]].
  - split.
    + rewrite Hout. split; [discriminate|]. intros Hin.
      rewrite Forall_forall in Hall. exfalso. exact (Hall [] Hin eq_refl).
    + intros e He. rewrite Hout in He. discriminate.
  - split.
    + split; [intros _; exact Hin | intros _; exact Hr].
    + intros e He. rewrite Hr in He. injection He as <-. reflexivity.
Qed.

(** X2 on a square of side 3, a triangle of area 1/2 and the square
    again. *)
Lemma filter_tiny_polys_keeps_pair :
  filter_tiny_polys
    (map of_ints [[(0, 0); (3, 0); (3, 3); (0, 3)]; [(0, 0); (1, 0); (0, 1)];
                  [(0, 0); (3, 0); (3, 3); (0, 3)]]%Z)
  = Ok (map of_ints [[(0, 0); (3, 0); (3, 3); (0, 3)]; [(0, 0); (3, 0); (3, 3); (0, 3)]]%Z) /\
  kept_by not_tiny
    (map of_ints [[(0, 0); (3, 0); (3, 3); (0, 3)]; [(0, 0); (1, 0); (0, 1)];
                  [(0, 0); (3, 0); (3, 3); (0, 3)]]%Z)
    (map of_ints [[(0, 0); (3, 0); (3, 3); (0, 3)]; [(0, 0); (3, 0); (3, 3); (0, 3)]]%Z).
Proof.
  apply (filter_tiny_polys_keeps
           [[(0, 0); (3, 0); (3, 3); (0, 3)]; [(0, 0); (1, 0); (0, 1)];
            [(0, 0); (3, 0); (3, 3); (0, 3)]]%Z
           [[(0, 0); (3, 0); (3, 3); (0, 3)]; [(0, 0); (3, 0); (3, 3); (0, 3)]]%Z).
  - repeat constructor; try (simpl; lia); vm_compute; discriminate.
  - vm_compute. reflexivity.
Defined.

(** ** [get_cw_poly] *)



(** ** [unify_origin_polygon] *)

Lemma argmin_from_first_least (l pre : list Q) (best : Q) (bi i : nat) :
  length pre = i ->
  pre !! bi = Some best ->
  Forall (fun x => (best <= x)%Q) pre ->
  (forall j y, (j < bi)%nat -> pre !! j = Some y -> (best < y)%Q) ->
  first_least (pre ++ l) (argmin_from best bi i l).
Proof.
  revert pre best bi i. induction l as [|x l IH]; intros pre best bi i Hlen Hbi Hall Hfirst.
  - rewrite app_nil_r. exists best. auto.
  - cbn [argmin_from].
    replace (pre ++ x :: l) with ((pre ++ [x]) ++ l) by (rewrite <- app_assoc; reflexivity).
    assert (Hbound : (bi < length pre)%nat) by (eapply lookup_lt_Some; exact Hbi).
    destruct (Qltb x best) eqn:E.
    + apply Qltb_lt in E. apply IH.
      * rewrite length_app. simpl. lia.
      * rewrite lookup_app_r by lia. replace (i - length pre)%nat with 0%nat by lia. reflexivity.
      * apply Forall_app. split; [|repeat constructor; apply Qle_refl].
        eapply Forall_impl; [exact Hall|]. intros y Hy. cbv beta in *.
        apply Qlt_le_weak. eapply Qlt_le_trans; eassumption.
      * intros j y Hj Hy. rewrite lookup_app_l in Hy by lia.
        rewrite Forall_lookup in Hall. eapply Qlt_le_trans; [exact E | exact (Hall j y Hy)].
    + apply Qltb_ge in E. apply IH.
      * rewrite length_app. simpl. lia.
      * rewrite lookup_app_l by lia. exact Hbi.
      * apply Forall_app. split; [exact Hall | repeat constructor; exact E].
      * intros j y Hj Hy. rewrite lookup_app_l in Hy by lia. exact (Hfirst j y Hj Hy).
Qed.

Lemma np_argmin_first_least (l : list Q) (k : nat) : np_argmin l = Ok k -> first_least l k.
Proof.
  destruct l as [|x l]; [discriminate|]. intros H. injection H as <-.
  apply (argmin_from_first_least l [x] x 0 1); [reflexivity | reflexivity | |].
  - repeat constructor. apply Qle_refl.
  - intros j y Hj. lia.
Qed.

Lemma argmin_from_keeps (l : list Q) (best : Q) (bi i : nat) :
  Forall (fun x => (best <= x)%Q) l -> argmin_from best bi i l = bi.
Proof.
  revert i. induction l as [|x l IH]; intros i Hall; [reflexivity|].
  apply Forall_cons in Hall. destruct Hall as [Hx Hall]. cbn [argmin_from].
  apply Qltb_ge in Hx. rewrite Hx. apply IH. exact Hall.
Qed.

Lemma top_mid_dist_compat (a b c a' b' c' : Q) (p : point) :
  (a == a')%Q -> (b == b')%Q -> (c == c')%Q ->
  (top_mid_dist a b c p == top_mid_dist a' b' c' p)%Q.
Proof. intros Ha Hb Hc. unfold top_mid_dist. rewrite Ha, Hb, Hc. reflexivity. Qed.

Lemma unify_origin_polygon_inv (poly out : polygon) :
  unify_origin_polygon poly = Ok out ->
  exists xmin xmax ymin k,
    np_min (map px poly) = Ok xmin /\ np_max (map px poly) = Ok xmax /\
    np_min (map py poly) = Ok ymin /\
    np_argmin (map (top_mid_dist xmin xmax ymin) poly) = Ok k /\
    out = drop k poly ++ take k poly.
Proof.
  unfold unify_origin_polygon. intros H.
  apply bind_Ok_inv in H as (xmin & Hxmin & H).
  apply bind_Ok_inv in H as (xmax & Hxmax & H).
  apply bind_Ok_inv in H as (ymin & Hymin & H).
  apply bind_Ok_inv in H as (ymax & Hymax & H).
  cbv zeta in H.
  apply bind_Ok_inv in H as (k & Hk & H). injection H as <-.
  exists xmin, xmax, ymin, k. auto.
Qed.

(** X5. [unify_origin_polygon] returns the polygon rotated (same cyclic
    order, nothing added or lost) so that it starts at the first vertex
    closest to the middle of the top side of its bounding box. *)
Theorem unify_origin_polygon_start (poly out : polygon) :
  unify_origin_polygon poly = Ok out ->
  exists xmin xmax ymin k,
    least (map px poly) xmin /\ greatest (map px poly) xmax /\ least (map py poly) ymin /\
    first_least (map (top_mid_dist xmin xmax ymin) poly) k /\
    out = drop k poly ++ take k poly /\
    head out = poly !! k /\
    out ≡ₚ poly.
Proof.
  intros H. apply unify_origin_polygon_inv in H
    as (xmin & xmax & ymin & k & Hxmin & Hxmax & Hymin & Hk & ->).
  exists xmin, xmax, ymin, k.
  split; [apply np_min_least; exact Hxmin|].
  split; [apply np_max_greatest; exact Hxmax|].
  split; [apply np_min_least; exact Hymin|].
  pose proof (np_argmin_first_least _ _ Hk) as Hfl.
  split; [exact Hfl|]. split; [reflexivity|]. split.
  - destruct Hfl as (m & Hm & _). apply lookup_lt_Some in Hm. rewrite length_map in Hm.
    replace (poly !! k) with (drop k poly !! 0%nat)
      by (rewrite lookup_drop; f_equal; lia).
    destruct (drop k poly) as [|q r] eqn:E; [|reflexivity].
    apply (f_equal length) in E. rewrite length_drop in E. simpl in E. lia.
  - rewrite Permutation_app_comm. rewrite take_drop. reflexivity.
Qed.

Lemma unify_origin_polygon_fixed (p : point) (rest : polygon) :
  (forall xmin xmax ymin,
      least (map px (p :: rest)) xmin -> greatest (map px (p :: rest)) xmax ->
      least (map py (p :: rest)) ymin ->
      Forall (fun q => (top_mid_dist xmin xmax ymin p <= top_mid_dist xmin xmax ymin q)%Q) rest) ->
  unify_origin_polygon (p :: rest) = Ok (p :: rest).
Proof.
  intros Hfirst. unfold unify_origin_polygon.
  destruct (np_min_total (map px (p :: rest))) as [xmin Hxmin]; [discriminate|].
  destruct (np_max_total (map px (p :: rest))) as [xmax Hxmax]; [discriminate|].
  destruct (np_min_total (map py (p :: rest))) as [ymin Hymin]; [discriminate|].
  destruct (np_max_total (map py (p :: rest))) as [ymax Hymax]; [discriminate|].
  rewrite Hxmin, Hxmax, Hymin, Hymax. cbn [mbind result_bind]. cbv zeta.
  match goal with
  | |- context [np_argmin (map ?f (p :: rest))] =>
      change (map f (p :: rest)) with (map (top_mid_dist xmin xmax ymin) (p :: rest))
  end.
  cbn [map np_argmin]. rewrite argmin_from_keeps.
  - cbn [mbind result_bind drop take]. rewrite app_nil_r. reflexivity.
  - apply List.Forall_map.
    apply Hfirst; [apply np_min_least | apply np_max_greatest | apply np_min_least]; assumption.
Qed.

(** What [unify_origin_polygon] returns starts at a vertex that is
    closest to the middle of the top side of its own bounding box. *)
Lemma unify_origin_polygon_canonical (poly out : polygon) :
  unify_origin_polygon poly = Ok out ->
  exists p rest,
    out = p :: rest /\
    forall xmin xmax ymin,
      least (map px (p :: rest)) xmin -> greatest (map px (p :: rest)) xmax ->
      least (map py (p :: rest)) ymin ->
      Forall (fun q => (top_mid_dist xmin xmax ymin p <= top_mid_dist xmin xmax ymin q)%Q) rest.
Proof.
  intros H. destruct (unify_origin_polygon_inv _ _ H)
    as (xmin & xmax & ymin & k & Hxmin & Hxmax & Hymin & Hk & Hout).
  destruct (np_argmin_first_least _ _ Hk) as (m & Hm & Hall & _).
  assert (Hperm : out ≡ₚ poly)
    by (rewrite Hout, Permutation_app_comm, take_drop; reflexivity).
  change (map ?f ?l) with (f <$> l) in Hm. rewrite list_lookup_fmap in Hm.
  apply fmap_Some in Hm. destruct Hm as (p & Hp & ->).
  rewrite (drop_S _ _ _ Hp) in Hout. cbn [app] in Hout.
  rewrite Hout in Hperm. exists p, (drop (S k) poly ++ take k poly).
  split; [exact Hout|]. intros xmin' xmax' ymin' Hxmin' Hxmax' Hymin'.
  assert (Ex : (xmin' == xmin)%Q).
  { eapply least_unique; [|exact Hxmin' | apply np_min_least; exact Hxmin].
    apply Permutation_map. exact Hperm. }
  assert (EX : (xmax' == xmax)%Q).
  { eapply greatest_unique; [|exact Hxmax' | apply np_max_greatest; exact Hxmax].
    apply Permutation_map. exact Hperm. }
  assert (Ey : (ymin' == ymin)%Q).
  { eapply least_unique; [|exact Hymin' | apply np_min_least; exact Hymin].
    apply Permutation_map. exact Hperm. }
  apply Forall_forall. intros q Hq.
  rewrite (top_mid_dist_compat _ _ _ _ _ _ p Ex EX Ey).
  rewrite (top_mid_dist_compat _ _ _ _ _ _ q Ex EX Ey).
  rewrite Forall_forall in Hall. apply Hall.
  apply list_elem_of_In, in_map, list_elem_of_In.
  rewrite <- Hperm. right. exact Hq.
Qed.

(** X6. [unify_origin_polygon] is idempotent: a polygon it has returned
    already starts at its canonical vertex, and is returned unchanged. *)
Theorem unify_origin_polygon_idempotent (poly out : polygon) :
  unify_origin_polygon poly = Ok out -> unify_origin_polygon out = Ok out.
Proof.
  intros H. destruct (unify_origin_polygon_canonical poly out H) as (p & rest & -> & Hfirst).
  apply unify_origin_polygon_fixed. exact Hfirst.
Qed.

(** X5 and X6 on a square listed from its bottom-left corner: it is
    rotated to start at [(0, 0)], the vertex nearest to the middle of the
    side [y = 0]. *)
Lemma unify_origin_polygon_start_square :
  exists xmin xmax ymin k,
    least (map px [(10, 10); (0, 10); (0, 0); (10, 0)]%Q) xmin /\
    greatest (map px [(10, 10); (0, 10); (0, 0); (10, 0)]%Q) xmax /\
    least (map py [(10, 10); (0, 10); (0, 0); (10, 0)]%Q) ymin /\
    first_least (map (top_mid_dist xmin xmax ymin) [(10, 10); (0, 10); (0, 0); (10, 0)]%Q) k /\
    [(0, 0); (10, 0); (10, 10); (0, 10)]%Q
    = drop k [(10, 10); (0, 10); (0, 0); (10, 0)]%Q ++ take k [(10, 10); (0, 10); (0, 0); (10, 0)]%Q /\
    head [(0, 0); (10, 0); (10, 10); (0, 10)]%Q = [(10, 10); (0, 10); (0, 0); (10, 0)]%Q !! k /\
    [(0, 0); (10, 0); (10, 10); (0, 10)]%Q ≡ₚ [(10, 10); (0, 10); (0, 0); (10, 0)]%Q.
Proof.
  apply (unify_origin_polygon_start [(10, 10); (0, 10); (0, 0); (10, 0)]%Q
           [(0, 0); (10, 0); (10, 10); (0, 10)]%Q).
  vm_compute. reflexivity.
Defined.

Lemma unify_origin_polygon_idempotent_square :
  unify_origin_polygon [(0, 0); (10, 0); (10, 10); (0, 10)]%Q
  = Ok [(0, 0); (10, 0); (10, 10); (0, 10)]%Q.
Proof.
  apply (unify_origin_polygon_idempotent [(10, 10); (0, 10); (0, 0); (10, 0)]%Q
           [(0, 0); (10, 0); (10, 10); (0, 10)]%Q).
  vm_compute. reflexivity.
Defined.

(** ** The geometry of the subdivision *)

(** In a concatenation of blocks that are not empty, block [i] starts
    where the blocks before it end. *)
Lemma concat_block_head {A : Type} (blocks : list (list A)) (i : nat) (b : list A) :
  blocks !! i = Some b -> b <> [] ->
  concat blocks !! length (concat (take i blocks)) = head b.
Proof.
  revert i. induction blocks as [|b0 blocks IH]; intros i Hb Hne.
  - rewrite lookup_nil in Hb. discriminate.
  - destruct i as [|i].
    + cbn in Hb. injection Hb as ->. destruct b as [|x b]; [congruence|]. reflexivity.
    + cbn [take concat]. rewrite length_app, lookup_app_r by lia.
      replace (length b0 + length (concat (take i blocks)) - length b0)%nat
        with (length (concat (take i blocks))) by lia.
      apply IH; assumption.
Qed.

Section Subdivision.

Variable np_sqrt : Q -> Q.
Variable np_argsort : list Q -> list nat.
Hypothesis np_sqrt_nonneg : forall x, (0 <= np_sqrt x)%Q.
Hypothesis np_argsort_perm : forall keys, np_argsort keys ≡ₚ seq 0 (length keys).

Lemma edgelen_nonneg (nxt poly : polygon) :
  Forall (fun l => (0 <= l)%Q) (edgelen np_sqrt nxt poly).
Proof.
  unfold edgelen. apply Forall_forall. intros l Hin.
  apply elem_of_lookup_zip_with in Hin. destruct Hin as (i & a & b & -> & _).
  apply np_sqrt_nonneg.
Qed.

(** What a successful run of the subdivision branch has computed. *)
Lemma uniformsample_subdivision_inv (poly out : polygon) (N : Z) :
  (Z.of_nat (length poly) <= N)%Z ->
  uniformsample np_sqrt np_argsort poly N = Ok out ->
  exists nxt edgenum,
    np_index poly (idxnext (length poly)) = Ok nxt /\
    length nxt = length poly /\
    Forall (fun e => (1 <= e)%Z) edgenum /\
    length edgenum = length poly /\
    Zsum edgenum = N /\
    out = concat (zip_with (fun be n => edge_points (fst be) (snd be) n) (zip poly nxt) edgenum).
Proof.
  intros HN H. unfold uniformsample in H.
  apply bind_Ok_inv in H as (nxt & Hn & H). cbv zeta in H.
  destruct (Z.ltb_spec N (Z.of_nat (length poly))) as [|_]; [lia|].
  apply bind_Ok_inv in H as (edgenum & Hec & H). injection H as <-.
  assert (Hl : length nxt = length poly).
  { rewrite (np_index_length _ _ _ Hn). apply idxnext_length. }
  pose proof (edgelen_length np_sqrt nxt poly Hl) as Hk.
  assert (Hpos : (0 < Qsum (edgelen np_sqrt nxt poly))%Q).
  { unfold edge_counts in Hec. cbv zeta in Hec.
    destruct (Qltb 0 (Qsum (edgelen np_sqrt nxt poly))) eqn:E; [|discriminate Hec].
    apply Qltb_lt. exact E. }
  destruct (edge_counts_ok np_argsort np_argsort_perm (edgelen np_sqrt nxt poly) N)
    as (edgenum' & H1 & H2 & H3 & H4); [apply edgelen_nonneg | exact Hpos | lia |].
  rewrite Hec in H1. injection H1 as <-.
  exists nxt, edgenum. repeat (split; [first [assumption | lia]|]). reflexivity.
Qed.

(** The resampler never returns a number of points other than the one asked for. *)
Lemma uniformsample_length (poly out : polygon) (N : Z) :
  uniformsample np_sqrt np_argsort poly N = Ok out -> Z.of_nat (length out) = N.
Proof.
  intros H. destruct (Z.lt_ge_cases N (Z.of_nat (length poly))) as [Hlt|Hge].
  - unfold uniformsample in H. apply bind_Ok_inv in H as (nxt & Hn & H). cbv zeta in H.
    destruct (Z.ltb_spec N (Z.of_nat (length poly))) as [_|]; [|lia].
    apply bind_Ok_inv in H as (kept & Hkept & H).
    destruct (Z.eqb_spec (Z.of_nat (length kept)) N) as [E|E]; [|discriminate H].
    cbn in H. injection H as <-. exact E.
  - destruct (uniformsample_subdivision_inv poly out N Hge H)
      as (nxt & edgenum & Hn & Hl & Hge1 & Hlen & Hsum & ->).
    rewrite psample_length; [exact Hsum | exact Hge1 |].
    rewrite length_zip. lia.
Qed.

Lemma edge_points_head (pb pe : point) (n : Z) :
  (1 <= n)%Z -> exists q, head (edge_points pb pe n) = Some q /\ point_eqb q pb = true.
Proof.
  intros Hn. unfold edge_points.
  destruct (Z.to_nat n) as [|m] eqn:E; [lia|]. cbn [seq map head].
  eexists. split; [reflexivity|].
  unfold point_eqb, lerp, px, py. cbn [fst snd].
  assert (E0 : (inject_Z (Z.of_nat 0) / inject_Z n == 0)%Q).
  { unfold Qdiv. apply Qmult_0_l. }
  apply andb_true_iff. split; apply Qeq_bool_iff; rewrite E0; ring.
Qed.

(** X7. When at least as many points are asked for as the polygon has
    (and the perimeter is positive), [uniformsample] keeps every input
    vertex, in the input order: with [e_i >= 1] the number of points given
    to edge [i] (they add up to N), input vertex [i] is the output point
    number [e_0 + ... + e_(i-1)]; the output starts at input vertex 0. *)
Theorem uniformsample_keeps_vertices (poly : polygon) (N : Z) :
  positive_perimeter np_sqrt poly ->
  (Z.of_nat (length poly) <= N)%Z ->
  exists (out : polygon) (edgenum : list Z),
    uniformsample np_sqrt np_argsort poly N = Ok out /\
    Z.of_nat (length out) = N /\
    length edgenum = length poly /\
    Forall (fun e => (1 <= e)%Z) edgenum /\
    Zsum edgenum = N /\
    (forall i p, poly !! i = Some p ->
       exists q, out !! Z.to_nat (Zsum (take i edgenum)) = Some q /\ point_eqb q p = true).
Proof.
  intros (nxt0 & Hn0 & Hpos) HN.
  destruct (subdivision_run np_sqrt np_sqrt_nonneg np_argsort np_argsort_perm poly nxt0 N Hn0 HN Hpos)
    as (out & Hrun & Hout).
  destruct (uniformsample_subdivision_inv poly out N HN Hrun)
    as (nxt & edgenum & Hn & Hl & Hge1 & Hlen & Hsum & ->).
  eexists _, edgenum. split; [exact Hrun|]. split; [exact Hout|].
  split; [exact Hlen|]. split; [exact Hge1|]. split; [exact Hsum|].
  intros i p Hp.
  assert (Hi : (i < length poly)%nat) by (eapply lookup_lt_Some; exact Hp).
  destruct (lookup_lt_is_Some_2 nxt i) as [pe Hpe]; [lia|].
  destruct (lookup_lt_is_Some_2 edgenum i) as [n Hni]; [lia|].
  assert (Hn1 : (1 <= n)%Z) by (rewrite Forall_lookup in Hge1; exact (Hge1 i n Hni)).
  set (f := fun (be : point * point) (n : Z) => edge_points (fst be) (snd be) n).
  assert (Hblock : zip_with f (zip poly nxt) edgenum !! i = Some (edge_points p pe n)).
  { rewrite !lookup_zip_with. unfold polygon in *. rewrite Hp, Hpe, Hni. reflexivity. }
  destruct (edge_points_head p pe n Hn1) as (q & Hq & Hqp).
  exists q. split; [|exact Hqp]. rewrite <- Hq.
  rewrite <- (concat_block_head _ i _ Hblock)
    by (intros E; rewrite E in Hq; discriminate).
  f_equal. rewrite zip_with_take. subst f. apply Nat2Z.inj.
  rewrite (psample_length (take i (zip poly nxt)) (take i edgenum)).
  - rewrite Z2Nat.id; [reflexivity|].
    assert (Hnn : Forall (fun e => (1 <= e)%Z) (take i edgenum)) by (apply Forall_take; exact Hge1).
    clear -Hnn. induction Hnn as [|e l He _ IH]; [reflexivity|]. cbn [Zsum foldr] in *.
    unfold Zsum in IH. lia.
  - apply Forall_take. exact Hge1.
  - rewrite !length_take, length_zip. lia.
Qed.

End Subdivision.

(** ** The constructor's default [num_points = 0] *)

Lemma list_comp_raises {A B : Type} (P : exn -> Prop) (f : A -> result B) (l : list A) (e : exn) :
  (forall x e', f x = Raise e' -> P e') -> list_comp f l = Raise e -> P e.
Proof.
  intros Hf. induction l as [|x l IH]; cbn [list_comp]; [discriminate|].
  destruct (f x) as [y|e'] eqn:E; cbn [mbind result_bind].
  - destruct (list_comp f l) as [ys|e'']; cbn [mbind result_bind]; [discriminate|].
    intros H. injection H as <-. apply IH. reflexivity.
  - intros H. injection H as <-. exact (Hf x e' E).
Qed.

Lemma reshape2_raises (p : list Q) (e : exn) : reshape2 p = Raise e -> e = ValueError.
Proof.
  destruct (reshape2_parity p) as [He Ho]. destruct (Nat.even (length p)).
  - destruct (He eq_refl) as [pts ->]. discriminate.
  - rewrite (Ho eq_refl). intros H. injection H as <-. reflexivity.
Qed.

Section Defaults.

Variable np_sqrt : Q -> Q.
Variable np_argsort : list Q -> list nat.
Hypothesis np_argsort_perm : forall keys, np_argsort keys ≡ₚ seq 0 (length keys).

(** Asked for no point at all, the resampler returns the empty polygon. *)
Lemma uniformsample_zero (poly : polygon) :
  poly <> [] -> uniformsample np_sqrt np_argsort poly 0 = Ok [].
Proof.
  intros Hne.
  destruct (contraction_run np_sqrt np_argsort np_argsort_perm poly 0)
    as (nxt & out & _ & Hrun & Hlen & _).
  { destruct poly; [congruence | simpl; lia]. }
  destruct out; [exact Hrun | discriminate Hlen].
Qed.

Lemma unify_polygon_zero (self : loader) (poly : polygon) :
  spline_poly_num self = 0%Z -> poly <> [] ->
  unify_polygon np_sqrt np_argsort self poly = Raise IndexError.
Proof.
  intros H0 Hne. unfold unify_polygon. rewrite H0, (uniformsample_zero poly Hne). reflexivity.
Qed.

Lemma unify_polygons_zero_raises (self : loader) (polygons : mask_ann) (gt_bbox : bbox) :
  spline_poly_num self = 0%Z -> polygons <> [] ->
  unify_polygons np_sqrt np_argsort self polygons gt_bbox = Raise ValueError \/
  unify_polygons np_sqrt np_argsort self polygons gt_bbox = Raise IndexError.
Proof.
  intros H0 Hne. unfold unify_polygons, unify_polygons_filtered.
  destruct (list_comp reshape2 polygons) as [pts|e] eqn:E; cbn [mbind result_bind].
  - destruct (filter_tiny_polys_cases pts) as [[Hall [out ->]]|[_ ->]];
      cbn [mbind result_bind fst]; [|left; reflexivity].
    apply list_comp_length in E.
    destruct pts as [|p pts]; [destruct polygons; [congruence | discriminate E]|].
    apply Forall_cons in Hall. destruct Hall as [Hp _].
    cbn [list_comp]. rewrite (unify_polygon_zero self p H0 Hp). right. reflexivity.
  - left. f_equal.
    exact (list_comp_raises (fun e => e = ValueError) reshape2 polygons e reshape2_raises E).
Qed.

Variable simplify : polygon -> polygon.
Variable linear_sum_assignment : list (list Q) -> list nat * list nat.

(** X8. A loader built with the default [num_points = 0] (so that
    [spline_poly_num = 0]) and a positive [spline_num] loads no instance
    that has a polygon: every such call ends in a [ValueError] or an
    [IndexError]. *)
Theorem load_instance_default_raises (p2m : bool) (kpw : Q) (sn : Z) (tr : bool)
    (gt_bboxes : list bbox) (i : nat) (gt_mask : mask_ann) :
  (0 < sn)%Z ->
  gt_mask <> [] ->
  load_instance np_sqrt np_argsort simplify linear_sum_assignment (init p2m kpw 0 sn tr)
    gt_bboxes i gt_mask = Raise ValueError \/
  load_instance np_sqrt np_argsort simplify linear_sum_assignment (init p2m kpw 0 sn tr)
    gt_bboxes i gt_mask = Raise IndexError.
Proof.
  intros Hsn Hne. unfold load_instance. cbn [spline_num init].
  destruct (Z.ltb_spec 0 sn) as [_|]; [|lia].
  destruct (py_index gt_bboxes i) as [b|e] eqn:Eb; cbn [mbind result_bind].
  2: { unfold py_index in Eb. destruct (gt_bboxes !! i); [discriminate Eb|].
       injection Eb as <-. right. reflexivity. }
  destruct (unify_polygons_zero_raises (init p2m kpw 0 sn tr) gt_mask b eq_refl Hne) as [-> | ->];
    [left | right]; reflexivity.
Qed.

End Defaults.

(** ** The shapes of what the loader returns *)

Lemma Forall2_right {A B : Type} (R : A -> B -> Prop) (P : B -> Prop) (l : list A) (k : list B) :
  (forall x y, R x y -> P y) -> Forall2 R l k -> Forall P k.
Proof. intros HR. induction 1; constructor; eauto. Qed.

Lemma get_cw_poly_length (poly cw : polygon) :
  get_cw_poly poly = Ok cw -> (3 <= length poly)%nat /\ length cw = length poly.
Proof.
  unfold get_cw_poly, is_ccw.
  destruct (Nat.ltb_spec (length poly) 3) as [|Hge]; [discriminate|]. cbn [mbind result_bind].
  intros H. injection H as <-. split; [exact Hge|].
  destruct (Qltb 0 (signed_area2 poly)); [apply length_rev | reflexivity].
Qed.

Lemma unify_origin_polygon_length (poly out : polygon) :
  unify_origin_polygon poly = Ok out -> length out = length poly.
Proof.
  intros H. apply unify_origin_polygon_inv in H as (xmin & xmax & ymin & k & _ & _ & _ & _ & ->).
  rewrite length_app, length_drop, length_take. lia.
Qed.

Lemma filter_all {A : Type} (P : A -> Prop) `{forall x, Decision (P x)} (l : list A) :
  Forall P l -> filter P l = l.
Proof.
  induction 1 as [|x l Hx _ IH]; [reflexivity|].
  rewrite filter_cons_True by exact Hx. rewrite IH. reflexivity.
Qed.

Lemma filter_none {A : Type} (P : A -> Prop) `{forall x, Decision (P x)} (l : list A) :
  Forall (fun x => ~ P x) l -> filter P l = [].
Proof.
  induction 1 as [|x l Hx _ IH]; [reflexivity|].
  rewrite filter_cons_False by exact Hx. exact IH.
Qed.

Lemma zip_replicate_snd {A B : Type} (l : list A) (n : nat) (x : B) :
  Forall (fun ab => snd ab = x) (zip l (replicate n x)).
Proof.
  apply Forall_forall. intros ab Hab.
  apply elem_of_lookup_zip_with in Hab. destruct Hab as (i & a & b & -> & _ & Hb).
  apply lookup_replicate in Hb. destruct Hb as [-> _]. reflexivity.
Qed.

(** Reading the key points back with the weights drops the padding. *)
Lemma real_keypoints_padded (real padding : list point) (k pad : nat) :
  length real = k ->
  real_keypoints (real ++ padding) (replicate k 1%Z ++ replicate pad 0%Z) = real.
Proof.
  intros Hk. unfold real_keypoints.
  rewrite zip_with_app by (rewrite length_replicate; exact Hk).
  rewrite filter_app.
  rewrite (filter_all _ (zip_with pair real (replicate k 1%Z))).
  - rewrite (filter_none _ (zip_with pair padding (replicate pad 0%Z))).
    + rewrite app_nil_r. change (map fst ?l) with (l.*1).
      apply fst_zip. rewrite length_replicate. lia.
    + eapply Forall_impl; [apply zip_replicate_snd|]. cbv beta. intros ab ->. lia.
  - eapply Forall_impl; [apply zip_replicate_snd|]. cbv beta. intros ab ->. lia.
Qed.

Lemma thres_pos (self : loader) : (1 <= thres self)%Z.
Proof. unfold thres. destruct (Z.leb_spec (num_points self) 0); lia. Qed.

Lemma np_assign_length {A : Type} (a : list A) (rows : list nat) (vals a' : list A) :
  np_assign a rows vals = Ok a' -> length a' = length a.
Proof.
  revert a vals. induction rows as [|r rows IH]; intros a [|v vals]; cbn [np_assign];
    try discriminate.
  - intros H. injection H as <-. reflexivity.
  - destruct (r <? length a)%nat; [|discriminate]. intros H.
    rewrite (IH _ _ H). apply length_insert.
Qed.

Lemma np_assign_const_Forall {A : Type} (P : A -> Prop) (a : list A) (rows : list nat)
    (v : A) (a' : list A) :
  Forall P a -> P v -> np_assign_const a rows v = Ok a' ->
  Forall P a' /\ length a' = length a.
Proof.
  intros Ha Hv. revert a Ha. induction rows as [|r rows IH]; intros a Ha; cbn [np_assign_const].
  - intros H. injection H as <-. split; [exact Ha | reflexivity].
  - destruct (r <? length a)%nat; [|discriminate]. intros H.
    destruct (IH (<[r := v]> a)) as [H1 H2]; [apply Forall_insert; assumption | exact H|].
    split; [exact H1|]. rewrite H2. apply length_insert.
Qed.

Lemma filter_length_eq {A : Type} (P : A -> Prop) `{forall x, Decision (P x)} (l : list A) :
  (length l <= length (filter P l))%nat -> filter P l = l.
Proof.
  induction l as [|x l IH]; [reflexivity|]. rewrite filter_cons.
  pose proof (length_filter P l) as Hle.
  destruct (decide (P x)); cbn [length]; intros Hl; [|lia].
  f_equal. apply IH. lia.
Qed.

Section Shapes.

Variable np_sqrt : Q -> Q.
Variable np_argsort : list Q -> list nat.
Hypothesis np_sqrt_nonneg : forall x, (0 <= np_sqrt x)%Q.
Hypothesis np_argsort_perm : forall keys, np_argsort keys ≡ₚ seq 0 (length keys).

Lemma unify_polygon_inv (self : loader) (poly out : polygon) (w : list Z) :
  (0 < spline_num self)%Z ->
  unify_polygon np_sqrt np_argsort self poly = Ok (out, w) ->
  length out = points_per_polygon self /\ (3 <= length out)%nat /\
  w = replicate (Z.to_nat (num_points self)) 1%Z.
Proof.
  intros Hsn H. unfold unify_polygon in H.
  apply bind_Ok_inv in H as (sampled & Hs & H).
  apply bind_Ok_inv in H as (p0 & Hp0 & H).
  apply bind_Ok_inv in H as (tt_idx & Htt & H).
  apply bind_Ok_inv in H as (valid & Hvalid & H).
  apply bind_Ok_inv in H as (cw & Hcw & H).
  apply bind_Ok_inv in H as (uo & Huo & H).
  apply bind_Ok_inv in H as (ones & Hones & H). injection H as <- <-.
  apply (uniformsample_length np_sqrt np_argsort np_sqrt_nonneg np_argsort_perm) in Hs.
  unfold np_slice_step in Hvalid.
  destruct (Z.eqb_spec (spline_num self) 0) as [|_]; [lia|].
  destruct (Z.ltb_spec 0 (spline_num self)) as [_|]; [|lia].
  injection Hvalid as <-.
  apply get_cw_poly_length in Hcw. destruct Hcw as [H3 Hcw].
  apply unify_origin_polygon_length in Huo.
  rewrite np_stride_length, np_roll_left_length in H3, Hcw by lia.
  unfold np_ones in Hones. destruct (Z.ltb_spec (num_points self) 0) as [|_]; [discriminate|].
  injection Hones as <-. unfold points_per_polygon.
  replace (Z.to_nat (spline_poly_num self)) with (length sampled) by lia.
  split; [lia|]. split; [lia | reflexivity].
Qed.

Lemma unify_polygons_inv (self : loader) (polygons : mask_ann) (gt_bbox : bbox)
    (polys : list polygon) (ws : list (list Z)) :
  (0 < spline_num self)%Z ->
  unify_polygons np_sqrt np_argsort self polygons gt_bbox = Ok (polys, ws) ->
  Forall (fun p => length p = points_per_polygon self /\ (3 <= length p)%nat) polys /\
  Forall (fun w => w = replicate (Z.to_nat (num_points self)) 1%Z) ws.
Proof.
  intros Hsn H. unfold unify_polygons in H.
  apply bind_Ok_inv in H as (pf & _ & H). cbv zeta in H.
  apply bind_Ok_inv in H as (valid & Hvalid & H). injection H as <- <-.
  apply list_comp_Forall2 in Hvalid.
  assert (Hall : Forall (fun y : list point * list Z =>
                           (length (fst y) = points_per_polygon self /\ (3 <= length (fst y))%nat) /\
                           snd y = replicate (Z.to_nat (num_points self)) 1%Z) valid).
  { eapply Forall2_right; [|exact Hvalid]. cbv beta. intros poly [out w] Hy.
    destruct (unify_polygon_inv self poly out w Hsn Hy) as (H1 & H2 & H3). cbn [fst snd]. auto. }
  split; apply List.Forall_map; (eapply Forall_impl; [exact Hall|]); cbv beta; tauto.
Qed.

(** X9. Whenever [unify_polygons] returns (with a positive [spline_num]),
    every polygon it returns has the same number of points,
    ceil([spline_poly_num] / [spline_num]), which is 3 or more, and every
    weight array is [num_points] ones. *)
Theorem unify_polygons_points (self : loader) (polygons : mask_ann) (gt_bbox : bbox)
    (polys : list polygon) (ws : list (list Z)) :
  (0 < spline_num self)%Z ->
  unify_polygons np_sqrt np_argsort self polygons gt_bbox = Ok (polys, ws) ->
  length polys = length polygons /\
  Forall (fun p => Z.of_nat (length p)
                   = ((spline_poly_num self + spline_num self - 1) / spline_num self)%Z /\
                   (3 <= length p)%nat) polys /\
  Forall (fun w => w = replicate (Z.to_nat (num_points self)) 1%Z) ws.
Proof.
  intros Hsn H.
  destruct (unify_polygons_inv self polygons gt_bbox polys ws Hsn H) as [Hp Hw].
  split; [exact (proj1 (unify_polygons_returns _ _ _ _ _ _ _ H))|]. split; [|exact Hw].
  eapply Forall_impl; [exact Hp|]. cbv beta. intros p [Hl H3]. split; [|exact H3].
  rewrite Hl. unfold points_per_polygon.
  assert (Hpos : (0 <= spline_poly_num self)%Z).
  { destruct (Z.le_gt_cases 0 (spline_poly_num self)) as [|Hneg]; [assumption|].
    exfalso. rewrite Hl in H3. unfold points_per_polygon in H3.
    replace (Z.to_nat (spline_poly_num self)) with 0%nat in H3 by lia.
    rewrite Nat.div_small in H3 by lia. lia. }
  rewrite Nat2Z.inj_div, Nat2Z.inj_sub, Nat2Z.inj_add by lia.
  rewrite !Z2Nat.id by lia. reflexivity.
Qed.

Variable simplify : polygon -> polygon.

(** A polygon that [process_polygons_m] keeps: between 1 and [_thres]
    points with truncated coordinates, then the padding. *)
Lemma process_polygon_m_inv (self : loader) (raw : list Q) (pts : list point) (ws : list Z) :
  process_polygon_m np_sqrt np_argsort simplify self raw = Ok (Some (pts, ws)) ->
  exists poly : polygon,
    (1 <= length poly <= Z.to_nat (thres self))%nat /\
    pts = map (fun p => (np_int (px p), np_int (py p))) poly
          ++ replicate (Z.to_nat (thres self) - length poly) (0%Q, 0%Q) /\
    ws = replicate (length poly) 1%Z ++ replicate (Z.to_nat (thres self) - length poly) 0%Z.
Proof.
  intros H. unfold process_polygon_m in H.
  destruct ((length raw mod 2 =? 0)%nat && (6 <=? length raw)%nat); [|discriminate H].
  apply bind_Ok_inv in H as (pts0 & Hpts0 & H). cbv zeta in H.
  apply bind_Ok_inv in H as (first & Hfirst & H).
  apply bind_Ok_inv in H as (final & Hfinal & H).
  remember (if point_eqb first final
            then take (length (simplify pts0) - 1) (simplify pts0)
            else simplify pts0) as poly0 eqn:Epoly0.
  apply bind_Ok_inv in H as (min_y & Hmin_y & H).
  apply bind_Ok_inv in H as (xs & Hxs & H).
  apply bind_Ok_inv in H as (min_idx & Hmin_idx & H).
  apply bind_Ok_inv in H as (min_index & Hmin_index & H).
  remember (np_roll_left min_index poly0) as P eqn:EP.
  change (if (num_points self <=? 0)%Z then 64%Z else num_points self) with (thres self) in H.
  apply bind_Ok_inv in H as (poly' & Hpoly' & H).
  injection H as <- <-.
  pose proof (thres_pos self) as Hth.
  assert (HP : (1 <= length P)%nat).
  { rewrite EP, np_roll_left_length.
    destruct poly0; [discriminate Hmin_y | simpl; lia]. }
  exists poly'. split; [|split; reflexivity].
  destruct (Z.ltb_spec (thres self) (Z.of_nat (length P))) as [Hlt|Hge].
  - apply bind_Ok_inv in Hpoly' as (poly_next & Hnext & Hpoly').
    assert (Hl : length poly_next = length P).
    { rewrite (np_index_length _ _ _ Hnext). apply idxnext_length. }
    destruct (contraction_indices np_argsort np_argsort_perm (edgelen np_sqrt poly_next P)
                (thres self)) as (Hlen & _ & _).
    { rewrite (edgelen_length np_sqrt poly_next P Hl). lia. }
    rewrite (edgelen_length np_sqrt poly_next P Hl) in Hlen.
    rewrite (np_index_length _ _ _ Hpoly'), Hlen. lia.
  - injection Hpoly' as <-. lia.
Qed.

(** X10. What [process_polygons_m] makes of one polygon it keeps: arrays of
    exactly [_thres] entries, with integer coordinates; the first [k]
    (1 <= k <= [_thres]) are key points of weight 1, the rest is padding,
    [(0, 0)] of weight 0; selecting the entries of positive weight, as
    [_load_masks] does, gives the [k] key points back. *)
Theorem process_polygon_m_padding (self : loader) (raw : list Q) (pts : list point) (ws : list Z) :
  process_polygon_m np_sqrt np_argsort simplify self raw = Ok (Some (pts, ws)) ->
  exists k,
    (1 <= k <= Z.to_nat (thres self))%nat /\
    length pts = Z.to_nat (thres self) /\
    ws = replicate k 1%Z ++ replicate (Z.to_nat (thres self) - k) 0%Z /\
    drop k pts = replicate (Z.to_nat (thres self) - k) (0%Q, 0%Q) /\
    real_keypoints pts ws = take k pts /\
    Forall (fun p => exists a b : Z, p = (inject_Z a, inject_Z b)) pts.
Proof.
  intros H. apply process_polygon_m_inv in H. destruct H as (poly & Hk & -> & ->).
  exists (length poly).
  split; [exact Hk|]. split; [|split; [reflexivity|split; [|split]]].
  - rewrite length_app, length_map, length_replicate. lia.
  - rewrite drop_app_length'; [reflexivity | symmetry; apply length_map].
  - rewrite real_keypoints_padded by apply length_map.
    rewrite take_app_length'; [reflexivity | symmetry; apply length_map].
  - apply Forall_app. split.
    + apply List.Forall_map. apply Forall_forall. intros p _. unfold np_int. eauto.
    + apply Forall_forall. intros p Hp. apply elem_of_replicate in Hp. destruct Hp as [-> _].
      exists 0%Z, 0%Z. reflexivity.
Qed.

Lemma process_polygon_m_cases (self : loader) (raw : list Q) (v : option (list point * list Z)) :
  process_polygon_m np_sqrt np_argsort simplify self raw = Ok v ->
  ((length raw mod 2 =? 0)%nat && (6 <=? length raw)%nat = false /\ v = None) \/
  ((length raw mod 2 =? 0)%nat && (6 <=? length raw)%nat = true /\ is_Some v).
Proof.
  intros H. unfold process_polygon_m in H.
  destruct ((length raw mod 2 =? 0)%nat && (6 <=? length raw)%nat).
  - right. split; [reflexivity|].
    apply bind_Ok_inv in H as (pts0 & _ & H). cbv zeta in H.
    apply bind_Ok_inv in H as (first & _ & H).
    apply bind_Ok_inv in H as (final & _ & H).
    apply bind_Ok_inv in H as (min_y & _ & H).
    apply bind_Ok_inv in H as (xs & _ & H).
    apply bind_Ok_inv in H as (min_idx & _ & H).
    apply bind_Ok_inv in H as (min_index & _ & H).
    apply bind_Ok_inv in H as (poly' & _ & H).
    injection H as <-. eauto.
  - left. injection H as <-. auto.
Qed.

Lemma process_polygons_m_inv (self : loader) (polygons : mask_ann)
    (valid : list (option (list point * list Z))) :
  Forall2 (fun p v => process_polygon_m np_sqrt np_argsort simplify self p = Ok v) polygons valid ->
  length (omap id valid) = length (process_polygons polygons) /\
  Forall (fun y => length (fst y) = Z.to_nat (thres self) /\
                   length (snd y) = Z.to_nat (thres self)) (omap id valid).
Proof.
  unfold process_polygons, mask_ann.
  induction 1 as [|p v polygons valid Hv _ [IHl IHf]]; [split; [reflexivity | constructor]|].
  destruct (process_polygon_m_cases self p v Hv) as [[E ->]|[E [[pts ws] ->]]].
  - rewrite filter_cons_False by (rewrite E; exact id). cbn [omap list_omap id]. split; assumption.
  - rewrite filter_cons_True by (rewrite E; exact I). cbn [omap list_omap id length].
    split; [f_equal; exact IHl|].
    constructor; [|exact IHf]. cbn [fst snd].
    destruct (process_polygon_m_inv self p pts ws Hv) as (poly & Hk & -> & ->).
    rewrite !length_app, length_map, !length_replicate. lia.
Qed.

(** X11. Whenever [process_polygons_m] returns, it returns one array of
    points and one array of weights, each of [_thres] entries, for every
    polygon that [process_polygons] keeps (an even number of coordinates,
    six or more), and nothing for the others. *)
Theorem process_polygons_m_shape (self : loader) (polygons : mask_ann)
    (pts : list (list point)) (ws : list (list Z)) :
  process_polygons_m np_sqrt np_argsort simplify self polygons = Ok (pts, ws) ->
  length pts = length (process_polygons polygons) /\
  length ws = length (process_polygons polygons) /\
  Forall (fun p => length p = Z.to_nat (thres self)) pts /\
  Forall (fun w => length w = Z.to_nat (thres self)) ws.
Proof.
  intros H. unfold process_polygons_m in H.
  apply bind_Ok_inv in H as (valid & Hvalid & H). cbv zeta in H. injection H as <- <-.
  apply list_comp_Forall2 in Hvalid.
  destruct (process_polygons_m_inv self polygons valid Hvalid) as [Hl Hf].
  rewrite !length_map. split; [exact Hl|]. split; [exact Hl|].
  split; apply List.Forall_map; (eapply Forall_impl; [exact Hf|]); cbv beta; tauto.
Qed.

Variable linear_sum_assignment : list (list Q) -> list nat * list nat.

Lemma match_keypoints_inv (self : loader) (_poly _poly2 : list point) (_poly_weight2 : list Z)
    (p : list point) (l : list Z) :
  match_keypoints np_sqrt linear_sum_assignment self _poly _poly2 _poly_weight2 = Ok (p, l) ->
  length p = length _poly /\
  length l = Z.to_nat (num_points self) /\
  Forall (fun x => x = 1%Z \/ x = astype_int (key_points_weight self)) l.
Proof.
  clear simplify. unfold match_keypoints. cbv zeta. intros H.
  apply bind_Ok_inv in H as (vals & _ & H).
  apply bind_Ok_inv in H as (p' & Hp & H).
  apply bind_Ok_inv in H as (ones & Hones & H).
  apply bind_Ok_inv in H as (l' & Hl & H). injection H as <- <-.
  split; [exact (np_assign_length _ _ _ _ Hp)|].
  unfold np_ones in Hones. destruct (Z.ltb_spec (num_points self) 0) as [|_]; [discriminate|].
  injection Hones as <-.
  assert (Hall : Forall (fun x => x = 1%Z \/ x = astype_int (key_points_weight self))
                        (replicate (Z.to_nat (num_points self)) 1%Z)).
  { apply Forall_forall. intros x Hx. apply elem_of_replicate in Hx. left. tauto. }
  destruct (np_assign_const_Forall _ _ _ _ _ Hall (or_intror eq_refl) Hl) as [H1 H2].
  split; [|exact H1]. rewrite H2. apply length_replicate.
Qed.

(** What a successful [load_instance] has computed, for a positive
    [spline_num]. *)
Lemma load_instance_matched (self : loader) (gt_bboxes : list bbox) (i : nat)
    (gt_mask : mask_ann) (polys : list (list point)) (ws : list (list Z)) :
  (0 < spline_num self)%Z ->
  load_instance np_sqrt np_argsort simplify linear_sum_assignment self gt_bboxes i gt_mask
  = Ok (polys, ws) ->
  exists matched : list (list point * list Z),
    polys = map fst matched /\ ws = map snd matched /\
    length matched = length gt_mask /\
    Forall (fun y => length (fst y) = points_per_polygon self /\
                     length (snd y) = Z.to_nat (num_points self) /\
                     Forall (fun x => x = 1%Z \/ x = astype_int (key_points_weight self)) (snd y)) matched /\
    (length gt_mask <= length (process_polygons gt_mask))%nat.
Proof.
  intros Hsn H. unfold load_instance in H.
  destruct (Z.ltb_spec 0 (spline_num self)) as [_|]; [|lia].
  apply bind_Ok_inv in H as (gt_bbox & _ & H).
  apply bind_Ok_inv in H as ([upolys uws] & Hpw & H).
  apply bind_Ok_inv in H as ([kpts kws] & Hpw2 & H).
  apply bind_Ok_inv in H as (matched & Hm & H). injection H as <- <-.
  cbn [fst snd] in Hm. apply list_comp_Forall2 in Hm.
  destruct (unify_polygons_returns _ _ _ _ _ _ _ Hpw) as [Hlu _].
  destruct (unify_polygons_inv self gt_mask gt_bbox upolys uws Hsn Hpw) as [Hup _].
  assert (Hlm : length matched = length upolys).
  { rewrite <- (Forall2_length _ _ _ Hm). apply length_seq. }
  exists matched. split; [reflexivity|]. split; [reflexivity|].
  split; [lia|]. split.
  - eapply Forall2_right; [|exact Hm]. cbv beta. intros idx [p l] Hy.
    apply bind_Ok_inv in Hy as (_poly & Hpoly & Hy).
    apply bind_Ok_inv in Hy as (_poly2 & _ & Hy).
    apply bind_Ok_inv in Hy as (_w2 & _ & Hy).
    destruct (match_keypoints_inv self _poly _poly2 _w2 p l Hy) as (H1 & H2 & H3).
    cbn [fst snd]. split; [|split; assumption].
    unfold py_index in Hpoly. destruct (upolys !! idx) as [q|] eqn:Eq; [|discriminate Hpoly].
    injection Hpoly as ->. rewrite H1.
    rewrite Forall_lookup in Hup. exact (proj1 (Hup idx _poly Eq)).
  - destruct (decide (length gt_mask = 0)%nat) as [E0|Hne]; [lia|].
    assert (Hlast : seq 0 (length upolys) !! (length upolys - 1)%nat = Some (length upolys - 1)%nat).
    { rewrite lookup_seq_lt by lia. reflexivity. }
    destruct (Forall2_lookup_l _ _ _ _ _ Hm Hlast) as (y & _ & Hy).
    apply bind_Ok_inv in Hy as (_poly & _ & Hy).
    apply bind_Ok_inv in Hy as (_poly2 & Hpoly2 & _).
    unfold py_index in Hpoly2.
    destruct (kpts !! (length upolys - 1)%nat) as [q|] eqn:Eq; [|discriminate Hpoly2].
    apply lookup_lt_Some in Eq.
    unfold process_polygons_m in Hpw2.
    apply bind_Ok_inv in Hpw2 as (valid & Hvalid & Hpw2). cbv zeta in Hpw2.
    injection Hpw2 as <- <-. apply list_comp_Forall2 in Hvalid.
    destruct (process_polygons_m_inv self gt_mask valid Hvalid) as [Hl _].
    rewrite length_map, Hl in Eq. lia.
Qed.

(** X12. With a positive [spline_num], an instance is loaded as a whole or
    not at all: whenever [load_instance] returns, it returns one polygon
    and one weight array for every polygon of the annotation, and every
    polygon of the annotation is well formed (an even number of
    coordinates, six or more).  Each polygon then has
    ceil([spline_poly_num] / [spline_num]) points, each weight array has
    [num_points] entries, and a weight is 1 or the integer part of
    [key_points_weight] (the weight truncated toward zero). *)
Theorem load_instance_shape (self : loader) (gt_bboxes : list bbox) (i : nat)
    (gt_mask : mask_ann) (polys : list (list point)) (ws : list (list Z)) :
  (0 < spline_num self)%Z ->
  (- 2 ^ 63 <= astype_int (key_points_weight self) < 2 ^ 63)%Z ->
  load_instance np_sqrt np_argsort simplify linear_sum_assignment self gt_bboxes i gt_mask
  = Ok (polys, ws) ->
  length polys = length gt_mask /\
  length ws = length gt_mask /\
  process_polygons gt_mask = gt_mask /\
  Forall (fun p => length p = points_per_polygon self) polys /\
  Forall (fun w => length w = Z.to_nat (num_points self) /\
                   Forall (fun x => x = 1%Z \/ x = astype_int (key_points_weight self)) w) ws.
Proof.
  intros Hsn _ H.
  destruct (load_instance_matched self gt_bboxes i gt_mask polys ws Hsn H)
    as (matched & -> & -> & Hlen & Hall & Hvalid).
  rewrite !length_map. split; [exact Hlen|]. split; [exact Hlen|]. split.
  - unfold process_polygons, mask_ann in *. apply filter_length_eq. exact Hvalid.
  - split; apply List.Forall_map; (eapply Forall_impl; [exact Hall|]); cbv beta; tauto.
Qed.

End Shapes.

(** ** [_load_masks] *)

Section Masks.

Variable np_sqrt : Q -> Q.
Variable np_argsort : list Q -> list nat.
Variable simplify : polygon -> polygon.
Variable linear_sum_assignment : list (list Q) -> list nat * list nat.
Variable _poly2mask : mask_ann -> nat -> nat -> ndarray.
Hypothesis np_sqrt_nonneg : forall x, (0 <= np_sqrt x)%Q.
Hypothesis np_argsort_perm : forall keys, np_argsort keys ≡ₚ seq 0 (length keys).

Lemma load_instance_pairs (self : loader) (gt_bboxes : list bbox) (i : nat)
    (gt_mask : mask_ann) (polys : list (list point)) (ws : list (list Z)) :
  load_instance np_sqrt np_argsort simplify linear_sum_assignment self gt_bboxes i gt_mask
  = Ok (polys, ws) ->
  length polys = length ws.
Proof.
  intros H. destruct (Z.lt_ge_cases 0 (spline_num self)) as [Hsn|Hsn].
  - destruct (load_instance_matched np_sqrt np_argsort np_sqrt_nonneg np_argsort_perm
                simplify linear_sum_assignment self gt_bboxes i gt_mask polys ws Hsn H)
      as (matched & -> & -> & _).
    rewrite !length_map. reflexivity.
  - unfold load_instance in H. destruct (Z.ltb_spec 0 (spline_num self)) as [|_]; [lia|].
    unfold process_polygons_m in H. apply bind_Ok_inv in H as (valid & _ & H).
    cbv zeta in H. injection H as <- <-. rewrite !length_map. reflexivity.
Qed.

Lemma load_poly_masks_shape (gt_masks : list mask_ann) (h w : nat) (m : ndarray) :
  load_poly_masks _poly2mask gt_masks h w = Ok m -> nd_shape m = [h; w].
Proof.
  unfold load_poly_masks. intros H. apply bind_Ok_inv in H as (s & _ & H).
  destruct (shape_eqb (nd_shape s) [h; w]) eqn:E; cbn [negb] in H; injection H as <-.
  - unfold shape_eqb in E. apply bool_decide_eq_true in E. exact E.
  - reflexivity.
Qed.

(** X13. What [_load_masks] returns.  Outside training the annotation is
    handed back as it is.  In training there is one entry per instance,
    each with as many weight arrays as polygons (and, for a positive
    [spline_num], as many polygons as the instance's annotation); the
    raster is present exactly when [poly2mask] is set, and then has the
    shape (h, w). *)
Theorem load_masks_shape (self : loader) (h w : nat) (gt_masks : list mask_ann)
    (gt_bboxes : list bbox) (r : loaded_masks) :
  _load_masks np_sqrt np_argsort simplify linear_sum_assignment _poly2mask self h w
    gt_masks gt_bboxes = Ok r ->
  if training self then
    exists polys raster,
      r = PolygonMasks polys h w raster /\
      length polys = length gt_masks /\
      Forall (fun pw => length (fst pw) = length (snd pw)) polys /\
      ((0 < spline_num self)%Z ->
       Forall2 (fun mask pw => length (fst pw) = length mask) gt_masks polys) /\
      (if poly2mask self then exists m, raster = Some m /\ nd_shape m = [h; w]
       else raster = None)
  else r = RawMasks gt_masks.
Proof.
  unfold _load_masks. destruct (training self); cbn [negb]; intros H.
  2: { injection H as <-. reflexivity. }
  apply bind_Ok_inv in H as (raster & Hr & H).
  apply bind_Ok_inv in H as (polys & Hp & H). injection H as <-.
  apply list_comp_Forall2 in Hp.
  assert (Hlen : length polys = length gt_masks).
  { rewrite <- (Forall2_length _ _ _ Hp), length_zip, length_seq. lia. }
  exists polys, raster. split; [reflexivity|]. split; [exact Hlen|]. split; [|split].
  - eapply Forall2_right; [|exact Hp]. cbv beta. intros ig [ps ws] Hy.
    exact (load_instance_pairs self gt_bboxes (fst ig) (snd ig) ps ws Hy).
  - intros Hsn. apply Forall2_same_length_lookup. split; [symmetry; exact Hlen|].
    intros k mask [ps ws] Hmask Hpw.
    destruct (Forall2_lookup_r _ _ _ _ _ Hp Hpw) as ([j mask'] & Hz & Hy).
    apply lookup_zip_with_Some in Hz. destruct Hz as (j' & mask'' & Heq & _ & Hm'').
    injection Heq as -> ->.
    assert (Em : mask'' = mask) by (unfold mask_ann in *; congruence). subst mask''.
    cbn [fst snd] in Hy |- *.
    destruct (load_instance_matched np_sqrt np_argsort np_sqrt_nonneg np_argsort_perm
                simplify linear_sum_assignment self gt_bboxes j' mask ps ws Hsn Hy)
      as (matched & -> & _ & Hl & _).
    rewrite length_map. exact Hl.
  - destruct (poly2mask self).
    + apply bind_Ok_inv in Hr as (m & Hm & Hr). injection Hr as <-.
      exists m. split; [reflexivity | exact (load_poly_masks_shape gt_masks h w m Hm)].
    + injection Hr as <-. reflexivity.
Qed.

End Masks.

(** ** The polygons of [unify_polygons] *)




(** ** The further properties on examples *)

(** X7 on a square resampled to 8 points. *)
Lemma uniformsample_keeps_vertices_square :
  exists (out : polygon) (edgenum : list Z),
    uniformsample sqrt_fix argsort_insertion [(0, 0); (0, 10); (10, 10); (10, 0)]%Q 8 = Ok out /\
    Z.of_nat (length out) = 8%Z /\
    length edgenum = length [(0, 0); (0, 10); (10, 10); (10, 0)]%Q /\
    Forall (fun e => (1 <= e)%Z) edgenum /\
    Zsum edgenum = 8%Z /\
    (forall i p, [(0, 0); (0, 10); (10, 10); (10, 0)]%Q !! i = Some p ->
       exists q, out !! Z.to_nat (Zsum (take i edgenum)) = Some q /\ point_eqb q p = true).
Proof.
  apply (uniformsample_keeps_vertices sqrt_fix argsort_insertion sqrt_fix_nonneg
           argsort_insertion_perm [(0, 0); (0, 10); (10, 10); (10, 0)]%Q 8).
  - exists [(0, 10); (10, 10); (10, 0); (0, 0)]%Q. split; [reflexivity|].
    vm_compute. reflexivity.
  - simpl. lia.
Defined.

(** X8 on a square, with [num_points] left at 0. *)
Lemma load_instance_default_raises_square :
  load_instance sqrt_fix argsort_insertion simplify_id assign_in_order (init true 1 0 10 true)
    [(0, 0, 10, 10)%Q] 0 [[0; 0; 0; 10; 10; 10; 10; 0]%Q] = Raise ValueError \/
  load_instance sqrt_fix argsort_insertion simplify_id assign_in_order (init true 1 0 10 true)
    [(0, 0, 10, 10)%Q] 0 [[0; 0; 0; 10; 10; 10; 10; 0]%Q] = Raise IndexError.
Proof.
  apply (load_instance_default_raises sqrt_fix argsort_insertion argsort_insertion_perm
           simplify_id assign_in_order true 1 10 true
           [(0, 0, 10, 10)%Q] 0 [[0; 0; 0; 10; 10; 10; 10; 0]%Q]).
  - lia.
  - discriminate.
Defined.

(** X9 on a square, for [num_points = 4] and [spline_num = 10]. *)
Lemma unify_polygons_points_square :
  exists polys ws,
    unify_polygons sqrt_fix argsort_insertion (init true 5 4 10 true)
      [[0; 0; 0; 10; 10; 10; 10; 0]%Q] (0, 0, 10, 10)%Q = Ok (polys, ws) /\
    length polys = length [[0; 0; 0; 10; 10; 10; 10; 0]%Q] /\
    Forall (fun p => Z.of_nat (length p)
                     = ((spline_poly_num (init true 5 4 10 true)
                         + spline_num (init true 5 4 10 true) - 1)
                        / spline_num (init true 5 4 10 true))%Z /\
                     (3 <= length p)%nat) polys /\
    Forall (fun w => w = replicate (Z.to_nat (num_points (init true 5 4 10 true))) 1%Z) ws.
Proof.
  eexists _, _. split; [vm_compute; reflexivity|].
  apply (unify_polygons_points sqrt_fix argsort_insertion sqrt_fix_nonneg argsort_insertion_perm
           (init true 5 4 10 true) [[0; 0; 0; 10; 10; 10; 10; 0]%Q] (0, 0, 10, 10)%Q).
  - simpl. lia.
  - vm_compute. reflexivity.
Defined.

(** X10 on a square, padded from 4 points to [num_points = 6]. *)
Lemma process_polygon_m_padding_square :
  exists k,
    (1 <= k <= Z.to_nat (thres (init true 5 6 10 true)))%nat /\
    length [(0, 0); (0, 10); (10, 10); (10, 0); (0, 0); (0, 0)]%Q
    = Z.to_nat (thres (init true 5 6 10 true)) /\
    [1; 1; 1; 1; 0; 0]%Z
    = replicate k 1%Z ++ replicate (Z.to_nat (thres (init true 5 6 10 true)) - k) 0%Z /\
    drop k [(0, 0); (0, 10); (10, 10); (10, 0); (0, 0); (0, 0)]%Q
    = replicate (Z.to_nat (thres (init true 5 6 10 true)) - k) (0%Q, 0%Q) /\
    real_keypoints [(0, 0); (0, 10); (10, 10); (10, 0); (0, 0); (0, 0)]%Q [1; 1; 1; 1; 0; 0]%Z
    = take k [(0, 0); (0, 10); (10, 10); (10, 0); (0, 0); (0, 0)]%Q /\
    Forall (fun p => exists a b : Z, p = (inject_Z a, inject_Z b))
      [(0, 0); (0, 10); (10, 10); (10, 0); (0, 0); (0, 0)]%Q.
Proof.
  apply (process_polygon_m_padding sqrt_fix argsort_insertion argsort_insertion_perm simplify_id
           (init true 5 6 10 true) [0; 0; 0; 10; 10; 10; 10; 0]%Q).
  vm_compute. reflexivity.
Defined.

(** X11 on a square followed by a polygon of three coordinates. *)
Lemma process_polygons_m_shape_pair :
  length [[(0, 0); (0, 10); (10, 10); (10, 0); (0, 0); (0, 0)]%Q]
  = length (process_polygons [[0; 0; 0; 10; 10; 10; 10; 0]; [0; 0; 1]]%Q) /\
  length [[1; 1; 1; 1; 0; 0]%Z]
  = length (process_polygons [[0; 0; 0; 10; 10; 10; 10; 0]; [0; 0; 1]]%Q) /\
  Forall (fun p => length p = Z.to_nat (thres (init true 5 6 10 true)))
    [[(0, 0); (0, 10); (10, 10); (10, 0); (0, 0); (0, 0)]%Q] /\
  Forall (fun w => length w = Z.to_nat (thres (init true 5 6 10 true))) [[1; 1; 1; 1; 0; 0]%Z].
Proof.
  apply (process_polygons_m_shape sqrt_fix argsort_insertion argsort_insertion_perm simplify_id
           (init true 5 6 10 true) [[0; 0; 0; 10; 10; 10; 10; 0]; [0; 0; 1]]%Q).
  vm_compute. reflexivity.
Defined.

(** X12 on an instance made of one square. *)
Lemma load_instance_shape_square :
  length [[(0, 0); (0, 10); (10, 10); (10, 0)]%Q] = length [[0; 0; 0; 10; 10; 10; 10; 0]%Q] /\
  length [[5; 5; 5; 5]%Z] = length [[0; 0; 0; 10; 10; 10; 10; 0]%Q] /\
  process_polygons [[0; 0; 0; 10; 10; 10; 10; 0]%Q] = [[0; 0; 0; 10; 10; 10; 10; 0]%Q] /\
  Forall (fun p => length p = points_per_polygon (init true 5 4 10 true))
    [[(0, 0); (0, 10); (10, 10); (10, 0)]%Q] /\
  Forall (fun w => length w = Z.to_nat (num_points (init true 5 4 10 true)) /\
                   Forall (fun x => x = 1%Z \/ x = astype_int (key_points_weight (init true 5 4 10 true))) w)
    [[5; 5; 5; 5]%Z].
Proof.
  apply (load_instance_shape sqrt_fix argsort_insertion sqrt_fix_nonneg argsort_insertion_perm
           simplify_id assign_in_order (init true 5 4 10 true) [(0, 0, 10, 10)%Q] 0
           [[0; 0; 0; 10; 10; 10; 10; 0]%Q]).
  - simpl. lia.
  - vm_compute. split; [discriminate | reflexivity].
  - vm_compute. reflexivity.
Defined.

(** X13 on an image of 2 x 3 pixels with one square and a decoder that
    returns empty bitmaps. *)
Lemma load_masks_shape_square :
  exists polys raster,
    PolygonMasks [([[(0, 0); (0, 10); (10, 10); (10, 0)]%Q], [[5; 5; 5; 5]%Z])] 2 3
      (Some (np_zeros [2; 3]%nat))
    = PolygonMasks polys 2 3 raster /\
    length polys = length [[[0; 0; 0; 10; 10; 10; 10; 0]%Q]] /\
    Forall (fun pw => length (fst pw) = length (snd pw)) polys /\
    ((0 < spline_num (init true 5 4 10 true))%Z ->
     Forall2 (fun mask pw => length (fst pw) = length mask)
       [[[0; 0; 0; 10; 10; 10; 10; 0]%Q]] polys) /\
    (exists m, raster = Some m /\ nd_shape m = [2; 3]%nat).
Proof.
  apply (load_masks_shape sqrt_fix argsort_insertion simplify_id assign_in_order decode_empty
           sqrt_fix_nonneg argsort_insertion_perm (init true 5 4 10 true) 2 3
           [[[0; 0; 0; 10; 10; 10; 10; 0]%Q]] [(0, 0, 10, 10)%Q]).
  vm_compute. reflexivity.
Defined.

(** X15 on a polygon of three coordinates. *)
Lemma load_instance_odd_three :
  load_instance sqrt_fix argsort_insertion simplify_id assign_in_order (init true 5 4 10 true)
    [(0, 0, 10, 10)%Q] 0 [[0; 0; 10]%Q] = Raise ValueError.
Proof.
  apply (load_instance_odd sqrt_fix argsort_insertion simplify_id assign_in_order
           (init true 5 4 10 true) [(0, 0, 10, 10)%Q] 0 [[0; 0; 10]%Q]).
  - simpl. lia.
  - exists (0, 0, 10, 10)%Q. reflexivity.
  - left. reflexivity.
Defined.

(** X16 on a square followed by a polygon of three coordinates. *)
Lemma process_polygons_m_skips_three :
  process_polygons_m sqrt_fix argsort_insertion simplify_id (init true 5 6 10 true)
    ([[0; 0; 0; 10; 10; 10; 10; 0]%Q] ++ [0; 0; 1]%Q :: [])
  = process_polygons_m sqrt_fix argsort_insertion simplify_id (init true 5 6 10 true)
      ([[0; 0; 0; 10; 10; 10; 10; 0]%Q] ++ []).
Proof.
  apply (process_polygons_m_skips sqrt_fix argsort_insertion simplify_id (init true 5 6 10 true)
           [[0; 0; 0; 10; 10; 10; 10; 0]%Q] [] [0; 0; 1]%Q).
  left. simpl. lia.
Defined.

